(** * Ride-sharing dispatch: a shallow embedding of [ride_sharing_system.py]

    The development follows the split implementation
    ([src/ride_sharing_system.py], [src/driver.py], [src/passenger.py]).

    - Python objects that are mutated and shared (drivers, passenger
      requests) live in object stores indexed by references; the queue and
      the driver registry hold references, as the Python lists do.
    - A Python float is the rational it denotes, or [float('inf')]. Two
      things are parameters of the model: the outcome of the trigonometry of
      [calculate_distance], a float or the [ValueError] of [sqrt], and the
      rounding of a float operation, of which only monotonicity is used.
    - Exceptions and loops are explicit: every operation that can raise
      returns an [outcome], and the [while] loops take fuel. The route
      computation is shown to return, given enough fuel, on every graph with
      positive weights whose neighbours are keys.
    - Logging and [time.sleep] have no effect on the state and are left out. *)

From Stdlib Require Import List String Bool Arith ZArith QArith Qround Lia.
Import ListNotations.

Local Open Scope string_scope.
Local Open Scope list_scope.
Local Open Scope Z_scope.

(** ** Outcomes of operations that may raise or loop *)

Inductive exn : Type :=
| KeyError            (* a dict subscript with a missing key *)
| UnboundLocalError   (* a local variable read before assignment *)
| ValueError.         (* math domain error: [sqrt] of a negative float *)

Inductive outcome (A : Type) : Type :=
| Ok (a : A)
| Raise (e : exn)
| OutOfFuel.

Arguments Ok {A} a.
Arguments Raise {A} e.
Arguments OutOfFuel {A}.

Definition bind {A B : Type} (m : outcome A) (k : A -> outcome B) : outcome B :=
  match m with
  | Ok a => k a
  | Raise e => Raise e
  | OutOfFuel => OutOfFuel
  end.

Notation "x <- m ;; k" := (bind m (fun x => k))
  (at level 61, m at next level, right associativity).

Definition is_ok {A : Type} (m : outcome A) : bool :=
  match m with Ok _ => true | _ => false end.

(** ** Numbers: a value or [float('inf')] *)

Inductive ext (A : Type) : Type :=
| Fin (a : A)
| Inf.

Arguments Fin {A} a.
Arguments Inf {A}.

Definition ext_ltb {A : Type} (ltb : A -> A -> bool) (x y : ext A) : bool :=
  match x, y with
  | Fin a, Fin b => ltb a b
  | Fin _, Inf => true
  | Inf, _ => false
  end.

Definition ext_eqb {A : Type} (eqb : A -> A -> bool) (x y : ext A) : bool :=
  match x, y with
  | Fin a, Fin b => eqb a b
  | Inf, Inf => true
  | _, _ => false
  end.

Definition ext_leb {A : Type} (leb : A -> A -> bool) (x y : ext A) : bool :=
  match x, y with
  | Fin a, Fin b => leb a b
  | _, Inf => true
  | Inf, Fin _ => false
  end.

Definition Qltb (a b : Q) : bool := negb (Qle_bool b a).

(** ** Graph nodes and dicts

    A node is what [get_coordinates] returns: a location identifier or
    Python's [None]. *)

Definition node := option string.

Definition node_eqb (a b : node) : bool :=
  match a, b with
  | None, None => true
  | Some x, Some y => String.eqb x y
  | _, _ => false
  end.

(** Truth value of a node in [while current_node:]. [None] and the empty
    string are false. *)
Definition truthy (n : node) : bool :=
  match n with
  | None => false
  | Some s => negb (String.eqb s "")
  end.

(** A dict keyed by nodes, in insertion order. *)
Definition dict (V : Type) := list (node * V).

Fixpoint dict_get {V : Type} (d : dict V) (k : node) : option V :=
  match d with
  | [] => None
  | (k', v) :: d' => if node_eqb k' k then Some v else dict_get d' k
  end.

(** [d[k] = v]: overwrite in place, or add the key at the end. *)
Fixpoint dict_set {V : Type} (d : dict V) (k : node) (v : V) : dict V :=
  match d with
  | [] => [(k, v)]
  | (k', v') :: d' =>
      if node_eqb k' k then (k', v) :: d' else (k', v') :: dict_set d' k v
  end.

(** The routing graph: identifier -> (neighbour -> weight). *)
Definition graph_t := list (string * list (string * Z)).

Fixpoint graph_get (g : graph_t) (k : node) : option (list (string * Z)) :=
  match g with
  | [] => None
  | (k', nbrs) :: g' =>
      if node_eqb (Some k') k then Some nbrs else graph_get g' k
  end.

(** ** The priority queue of [heapq]

    Entries are tuples [(distance, node)], compared lexicographically.
    [heappop] returns a least entry and equal tuples cannot be told apart, so
    the binary heap is represented by the ascending list of its entries.
    Python refuses to order [None] against a string; the only entry that can
    hold [None] is the initial one, which is alone in the queue when it is
    popped, so that comparison never happens and [None] is put first here. *)

Definition node_ltb (a b : node) : bool :=
  match a, b with
  | None, Some _ => true
  | Some x, Some y => String.ltb x y
  | _, None => false
  end.

Definition entry := (Z * node)%type.

Definition entry_ltb (a b : entry) : bool :=
  (fst a <? fst b) || ((fst a =? fst b) && node_ltb (snd a) (snd b)).

Fixpoint heappush (q : list entry) (e : entry) : list entry :=
  match q with
  | [] => [e]
  | x :: q' => if entry_ltb e x then e :: q else x :: heappush q' e
  end.

(** ** calculate_optimal_route *)

(** A value returned by [calculate_optimal_route]: a list of nodes or
    [None]. *)
Inductive pyroute : Type :=
| PyNone
| PyList (path : list node).

(** [not optimal_route] *)
Definition route_is_empty (r : pyroute) : bool :=
  match r with
  | PyNone => true
  | PyList [] => true
  | PyList (_ :: _) => false
  end.

Record search_state : Type := mkSearch {
  distances : dict (ext Z);
  predecessors : dict node;
  pqueue : list entry
}.

(** The inner [for neighbor, weight in self.graph[current_node].items()]. *)
Fixpoint relax (current_distance : Z) (current_node : node)
    (nbrs : list (string * Z)) (st : search_state) : outcome search_state :=
  match nbrs with
  | [] => Ok st
  | (neighbor, weight) :: nbrs' =>
      let distance := current_distance + weight in
      match dict_get (distances st) (Some neighbor) with
      | None => Raise KeyError
      | Some old =>
          if ext_ltb Z.ltb (Fin distance) old then
            relax current_distance current_node nbrs'
              (mkSearch (dict_set (distances st) (Some neighbor) (Fin distance))
                        (dict_set (predecessors st) (Some neighbor) current_node)
                        (heappush (pqueue st) (distance, Some neighbor)))
          else relax current_distance current_node nbrs' st
      end
  end.

(** The path reconstruction loop, followed by [return path[::-1]]. *)
Fixpoint reconstruct (fuel : nat) (preds : dict node) (current_node : node)
    (path : list node) : outcome pyroute :=
  if truthy current_node then
    match fuel with
    | O => OutOfFuel
    | S fuel' =>
        match dict_get preds current_node with
        | None => Raise KeyError
        | Some p => reconstruct fuel' preds p (path ++ [current_node])
        end
    end
  else Ok (PyList (rev path)).

(** The main [while queue:] loop. *)
Fixpoint search (fuel : nat) (g : graph_t) (end_node : node)
    (st : search_state) : outcome pyroute :=
  match pqueue st with
  | [] => Ok PyNone
  | (current_distance, current_node) :: rest =>
      match fuel with
      | O => OutOfFuel
      | S fuel' =>
          let st := mkSearch (distances st) (predecessors st) rest in
          if node_eqb current_node end_node then
            reconstruct fuel' (predecessors st) current_node []
          else
            match dict_get (distances st) current_node with
            | None => Raise KeyError
            | Some best =>
                if ext_ltb Z.ltb best (Fin current_distance) then
                  search fuel' g end_node st
                else
                  match graph_get g current_node with
                  | None => Raise KeyError
                  | Some nbrs =>
                      st' <- relax current_distance current_node nbrs st ;;
                      search fuel' g end_node st'
                  end
            end
      end
  end.

Definition calculate_optimal_route (fuel : nat) (g : graph_t)
    (start_location end_location : node) : outcome pyroute :=
  let start_node := start_location in
  let end_node := end_location in
  let distances := map (fun kv => (Some (fst kv), @Inf Z)) g in
  let predecessors := map (fun kv => (Some (fst kv), @None string)) g in
  let distances := dict_set distances start_node (Fin 0) in
  search fuel g end_node (mkSearch distances predecessors [(0, start_node)]).

(** The class attribute [graph]. *)
Definition sample_graph : graph_t :=
  [ ("A", [("B", 1); ("C", 4)]);
    ("B", [("A", 1); ("C", 2); ("D", 5)]);
    ("C", [("A", 4); ("B", 2); ("D", 1)]);
    ("D", [("B", 5); ("C", 1)]) ].

(** Every neighbour named in the graph is itself a key of the graph. *)
Definition neighbours_are_keys (g : graph_t) : bool :=
  forallb (fun kv =>
             forallb (fun nw => existsb (String.eqb (fst nw)) (map fst g))
                     (snd kv))
          g.

(** Every edge weight is positive. *)
Definition weights_positive (g : graph_t) : bool :=
  forallb (fun kv => forallb (fun nw => 0 <? snd nw) (snd kv)) g.

Definition is_key (g : graph_t) (n : node) : Prop := graph_get g n <> None.

(** The variant of the search loop: the number of nodes still at infinity,
    then the sum of the finite distances. *)
Definition inf_count (d : dict (ext Z)) : nat :=
  List.length (filter (fun kv => match snd kv with Inf => true | Fin _ => false end) d).

Fixpoint fin_sum (d : dict (ext Z)) : nat :=
  match d with
  | [] => O
  | (_, Fin v) :: d' => (Z.to_nat v + fin_sum d')%nat
  | (_, Inf) :: d' => fin_sum d'
  end.

(** The invariant of the search loop: queued nodes are keys whose recorded
    distance is finite and no larger than the queued one; every key has a
    distance and a predecessor entry; finite distances are non-negative; a
    predecessor is a key that is strictly nearer to the start. *)
Record search_inv (g : graph_t) (st : search_state) : Prop := mkSearchInv {
  inv_queue : forall d n, In (d, n) (pqueue st) ->
    is_key g n
    /\ exists d', dict_get (distances st) n = Some (Fin d') /\ d' <= d;
  inv_keys : forall n, is_key g n ->
    dict_get (distances st) n <> None /\ dict_get (predecessors st) n <> None;
  inv_nonneg : forall n v, dict_get (distances st) n = Some (Fin v) -> 0 <= v;
  inv_pred : forall n u, dict_get (predecessors st) n = Some (Some u) ->
    is_key g (Some u)
    /\ exists dn du, dict_get (distances st) n = Some (Fin dn)
                     /\ dict_get (distances st) (Some u) = Some (Fin du)
                     /\ du < dn
}.

(** Weight of the edge [u -> v], and of a path, in a graph. *)
Definition edge_weight (g : graph_t) (u v : node) : option Z :=
  match graph_get g u with
  | None => None
  | Some nbrs =>
      match find (fun e => node_eqb (Some (fst e)) v) nbrs with
      | Some e => Some (snd e)
      | None => None
      end
  end.

Fixpoint path_weight (g : graph_t) (p : list node) : option Z :=
  match p with
  | [] => Some 0
  | u :: p' =>
      match p' with
      | [] => Some 0
      | v :: _ =>
          match edge_weight g u v, path_weight g p' with
          | Some w, Some rest => Some (w + rest)
          | _, _ => None
          end
      end
  end.

(** ** Coordinates and the location resolver *)

Definition coord := (Q * Q)%type.

(** Tuple equality [location_coordinates == address]. *)
Definition coord_eqb (a b : coord) : bool :=
  Qeq_bool (fst a) (fst b) && Qeq_bool (snd a) (snd b).

(** The class attribute [location_mapping]. *)
Definition sample_location_mapping : list (string * coord) :=
  [ ("A", (48.8566, 2.3522)%Q);
    ("B", (40.7128, -74.0060)%Q);
    ("C", (51.5074, -0.1278)%Q);
    ("D", (52.5200, 13.4050)%Q) ].

(** ** Floating-point arithmetic

    [calculate_distance] computes [a] from the coordinates with [sin] and
    [cos], then [RADIUS_OF_EARTH * 2 * atan2(sqrt(a), sqrt(1 - a))]. [sqrt]
    raises [ValueError] on a negative argument, which happens when the
    rounded [a] lies outside [0, 1] (points that are nearly antipodal, or a
    latitude beyond the poles). The model takes the outcome as given:
    [haversine] is the distance in kilometres, or [None] where [sqrt]
    raises.

    Division and multiplication round their exact result to the nearest
    float, [fl]; what is rounded here is a distance on the globe over a speed
    and a time in minutes, far from the range where a float overflows.
    Rounding is monotone, and that is all the model uses of it: two
    distances that differ may well have the same estimated arrival time. *)
Class Floats := {
  haversine : coord -> coord -> option Q;
  fl : Q -> Q;
  fl_monotone : forall x y : Q, (x <= y)%Q -> (fl x <= fl y)%Q
}.

Definition MAX_DISTANCE : ext Q := Inf.
Definition AVERAGE_SPEED : Q := 30.
Definition RADIUS_OF_EARTH : Q := 6371.

Definition calculate_distance `{Floats} (location1 location2 : coord)
    : outcome Q :=
  match haversine location1 location2 with
  | Some distance => Ok distance
  | None => Raise ValueError
  end.

Definition calculate_estimated_arrival_time `{Floats} (distance : Q) : Q :=
  fl (fl (distance / AVERAGE_SPEED) * 60).

(** ** Objects and the system state *)

Definition ref := nat.

(** [passenger.py]: the passenger name and the uuid only feed the logger. *)
Record PassengerRequest : Type := mkRequest {
  pickup_address : coord;
  dropoff_address : coord;
  is_canceled : bool
}.

(** [driver.py]; [current_passenger] and [current_route] are attributes that
    exist only once [assign_ride] has set them. *)
Record Driver : Type := mkDriver {
  name : string;
  location : coord;
  is_available : bool;
  current_passenger : option ref;
  current_route : option pyroute
}.

(** The attributes of a [RideSharingSystem] instance together with the two
    object stores its references point into. [graph] and [location_mapping]
    are attributes like [drivers] and [passenger_request_queue]; their class
    defaults are [sample_graph] and [sample_location_mapping]. *)
Record RideSharingSystem : Type := mkSystem {
  passenger_request_queue : list ref;
  drivers : list ref;
  graph : graph_t;
  location_mapping : list (string * coord);
  request_obj : ref -> PassengerRequest;
  driver_obj : ref -> Driver
}.

(** Attribute assignment on the object behind a reference. *)
Definition store_set {A : Type} (h : ref -> A) (r : ref) (v : A) : ref -> A :=
  fun x => if Nat.eqb x r then v else h x.

Definition with_queue (s : RideSharingSystem) (q : list ref) : RideSharingSystem :=
  mkSystem q (drivers s) (graph s) (location_mapping s)
           (request_obj s) (driver_obj s).

Definition with_driver (s : RideSharingSystem) (d : ref) (v : Driver)
    : RideSharingSystem :=
  mkSystem (passenger_request_queue s) (drivers s) (graph s)
           (location_mapping s) (request_obj s) (store_set (driver_obj s) d v).

Definition with_request (s : RideSharingSystem) (r : ref) (v : PassengerRequest)
    : RideSharingSystem :=
  mkSystem (passenger_request_queue s) (drivers s) (graph s)
           (location_mapping s) (store_set (request_obj s) r v) (driver_obj s).

(** ** Methods of RideSharingSystem *)

Fixpoint lookup_coordinates (m : list (string * coord)) (address : coord) : node :=
  match m with
  | [] => None
  | (location_identifier, location_coordinates) :: m' =>
      if coord_eqb location_coordinates address then Some location_identifier
      else lookup_coordinates m' address
  end.

Definition get_coordinates (s : RideSharingSystem) (address : coord) : node :=
  lookup_coordinates (location_mapping s) address.

(** The loop of [find_available_drivers] over the registry. The distance is
    computed only for a driver that is available: [and] does not evaluate its
    second operand otherwise. *)
Fixpoint available_among `{Floats} (s : RideSharingSystem)
    (passenger_location : coord) (drivers : list ref) : outcome (list ref) :=
  match drivers with
  | [] => Ok []
  | driver :: rest =>
      keep <- (if is_available (driver_obj s driver)
               then distance <- calculate_distance
                                  (location (driver_obj s driver))
                                  passenger_location ;;
                    Ok (ext_leb Qle_bool (Fin distance) MAX_DISTANCE)
               else Ok false) ;;
      available_drivers <- available_among s passenger_location rest ;;
      Ok (if keep then driver :: available_drivers else available_drivers)
  end.

Definition find_available_drivers `{Floats} (s : RideSharingSystem)
    (passenger_location : coord) : outcome (list ref) :=
  available_among s passenger_location (drivers s).

Definition handle_unavailable_driver (s : RideSharingSystem) (passenger : ref)
    : RideSharingSystem :=
  with_queue s (passenger_request_queue s ++ [passenger]).

Definition assign_ride (s : RideSharingSystem) (driver passenger : ref)
    (optimal_route : pyroute) (distance : ext Q) : RideSharingSystem :=
  let d := driver_obj s driver in
  if is_available d then
    with_driver s driver
      (mkDriver (name d) (location d) false (Some passenger) (Some optimal_route))
  else handle_unavailable_driver s passenger.

(** [PassengerRequest.cancel], reached through [cancel_request]. *)
Definition cancel_request (s : RideSharingSystem) (passenger_request : ref)
    : RideSharingSystem :=
  let r := request_obj s passenger_request in
  with_request s passenger_request
    (mkRequest (pickup_address r) (dropoff_address r) true).

(** The local variables of one iteration of [process_passenger_requests]
    that survive the [for driver in available_drivers] loop, and the system
    (whose queue the loop may extend). [optimal_route] is unbound until the
    loop body has run once. *)
Record locals : Type := mkLocals {
  sys : RideSharingSystem;
  best_driver : option ref;
  best_distance : ext Q;
  best_estimated_arrival_time : ext Q;
  optimal_route : option pyroute
}.

(** The test that replaces the best candidate so far. *)
Definition improves (estimated_arrival_time distance_to_pickup : Q)
    (best_estimated_arrival_time best_distance : ext Q) : bool :=
  ext_ltb Qltb (Fin estimated_arrival_time) best_estimated_arrival_time
  || (ext_eqb Qeq_bool (Fin estimated_arrival_time) best_estimated_arrival_time
      && ext_ltb Qltb (Fin distance_to_pickup) best_distance).

(** The body of the [for] loop, for one driver. *)
Definition try_driver `{Floats} (fuel : nat) (passenger_request : ref)
    (passenger_grid_pickup_location : node) (l : locals) (driver : ref)
    : outcome locals :=
  let s := sys l in
  let dobj := driver_obj s driver in
  let driver_grid_location := get_coordinates s (location dobj) in
  route <- calculate_optimal_route fuel (graph s) driver_grid_location
             passenger_grid_pickup_location ;;
  if route_is_empty route then
    Ok (mkLocals (handle_unavailable_driver s passenger_request)
                 (best_driver l) (best_distance l)
                 (best_estimated_arrival_time l) (Some route))
  else
    distance_to_pickup <-
      calculate_distance (location dobj)
        (pickup_address (request_obj s passenger_request)) ;;
    let estimated_arrival_time :=
      calculate_estimated_arrival_time distance_to_pickup in
    if improves estimated_arrival_time distance_to_pickup
                (best_estimated_arrival_time l) (best_distance l)
    then Ok (mkLocals s (Some driver) (Fin distance_to_pickup)
                      (Fin estimated_arrival_time) (Some route))
    else Ok (mkLocals s (best_driver l) (best_distance l)
                      (best_estimated_arrival_time l) (Some route)).

Fixpoint for_drivers `{Floats} (fuel : nat) (passenger_request : ref)
    (pickup : node) (available_drivers : list ref) (l : locals)
    : outcome locals :=
  match available_drivers with
  | [] => Ok l
  | driver :: rest =>
      l' <- try_driver fuel passenger_request pickup l driver ;;
      for_drivers fuel passenger_request pickup rest l'
  end.

(** One iteration of [while self.passenger_request_queue:], entered with a
    non-empty queue; on the empty queue the loop is not entered and the state
    is returned as it is. *)
Definition process_one `{Floats} (fuel : nat) (s : RideSharingSystem)
    : outcome RideSharingSystem :=
  match passenger_request_queue s with
  | [] => Ok s
  | passenger_request :: rest =>
      let s := with_queue s rest in
      if is_canceled (request_obj s passenger_request) then Ok s
      else
        available_drivers <-
          find_available_drivers s
            (pickup_address (request_obj s passenger_request)) ;;
        let pickup :=
          get_coordinates s (pickup_address (request_obj s passenger_request)) in
        l <- for_drivers fuel passenger_request pickup available_drivers
               (mkLocals s None Inf Inf None) ;;
        match best_driver l with
        | Some driver =>
            match optimal_route l with
            | Some route =>
                Ok (assign_ride (sys l) driver passenger_request route
                                (best_distance l))
            | None => Raise UnboundLocalError
            end
        | None => Ok (handle_unavailable_driver (sys l) passenger_request)
        end
  end.

(** [process_passenger_requests]: [n] bounds the number of iterations of the
    outer loop, [fuel] the loops of each route computation. *)
Fixpoint process_passenger_requests `{Floats} (n fuel : nat)
    (s : RideSharingSystem) : outcome RideSharingSystem :=
  match passenger_request_queue s with
  | [] => Ok s
  | _ :: _ =>
      match n with
      | O => OutOfFuel
      | S n' =>
          s' <- process_one fuel s ;;
          process_passenger_requests n' fuel s'
      end
  end.

(** ** Observations on a dispatch cycle *)

(** The graph node of a driver and of a request's pickup. *)
Definition driver_node (s : RideSharingSystem) (driver : ref) : node :=
  get_coordinates s (location (driver_obj s driver)).

Definition pickup_node (s : RideSharingSystem) (passenger_request : ref) : node :=
  get_coordinates s (pickup_address (request_obj s passenger_request)).

(** The candidates of a cycle: the available drivers of the registry, in
    order. They are what [find_available_drivers] returns when it returns,
    for every request, as no finite distance exceeds [MAX_DISTANCE]. *)
Definition candidates (s : RideSharingSystem) : list ref :=
  filter (fun driver => is_available (driver_obj s driver)) (drivers s).

(** [calculate_distance] returns for every candidate of the request. *)
Definition distances_defined `{Floats} (s : RideSharingSystem)
    (passenger_request : ref) : Prop :=
  forall d, In d (candidates s) ->
    haversine (location (driver_obj s d))
              (pickup_address (request_obj s passenger_request)) <> None.

(** The route computation for a candidate returns a non-empty list. *)
Definition routable (fuel : nat) (s : RideSharingSystem) (pickup : node)
    (driver : ref) : bool :=
  match calculate_optimal_route fuel (graph s) (driver_node s driver) pickup with
  | Ok route => negb (route_is_empty route)
  | _ => false
  end.

(** The route computation for a candidate returns [None] or [[]]. *)
Definition unroutable (fuel : nat) (s : RideSharingSystem) (pickup : node)
    (driver : ref) : bool :=
  match calculate_optimal_route fuel (graph s) (driver_node s driver) pickup with
  | Ok route => route_is_empty route
  | _ => false
  end.

(** The distance from a driver to the pickup of a request, where
    [calculate_distance] returns one. *)
Definition distance_to_pickup `{Floats} (s : RideSharingSystem)
    (passenger_request driver : ref) : option Q :=
  haversine (location (driver_obj s driver))
            (pickup_address (request_obj s passenger_request)).

(** Both distances are computed, and candidate [b] arrives no later than
    [c], and is no farther when they arrive at the same time. *)
Definition at_least_as_good `{Floats} (s : RideSharingSystem)
    (passenger_request b c : ref) : Prop :=
  exists x y : Q,
    distance_to_pickup s passenger_request b = Some x
    /\ distance_to_pickup s passenger_request c = Some y
    /\ (calculate_estimated_arrival_time x < calculate_estimated_arrival_time y
        \/ (calculate_estimated_arrival_time x
            == calculate_estimated_arrival_time y
            /\ x <= y))%Q.

(** The loop invariant of the [for] loop on the best candidate so far, after
    the drivers [seen]. *)
Definition best_so_far `{Floats} (fuel : nat) (s : RideSharingSystem)
    (passenger_request : ref) (pickup : node) (seen : list ref)
    (best : option ref) (best_distance best_time : ext Q) : Prop :=
  match best with
  | None =>
      best_distance = Inf /\ best_time = Inf
      /\ forall c, In c seen -> routable fuel s pickup c = false
  | Some b =>
      In b seen /\ routable fuel s pickup b = true
      /\ (exists x, distance_to_pickup s passenger_request b = Some x
                    /\ best_distance = Fin x
                    /\ best_time = Fin (calculate_estimated_arrival_time x))
      /\ forall c, In c seen -> routable fuel s pickup c = true ->
                   at_least_as_good s passenger_request b c
  end.

(** A driver holds the request: it is committed and the request is attached. *)
Definition holds (s : RideSharingSystem) (passenger_request driver : ref) : bool :=
  negb (is_available (driver_obj s driver))
  && match current_passenger (driver_obj s driver) with
     | Some p => Nat.eqb p passenger_request
     | None => false
     end.

Definition held_by_assignment (s : RideSharingSystem) (passenger_request : ref)
    : bool :=
  existsb (holds s passenger_request) (drivers s).

(** No queued request is held by an assignment. *)
Definition queue_free_of_assigned (s : RideSharingSystem) : bool :=
  forallb (fun r => negb (held_by_assignment s r)) (passenger_request_queue s).

(** What the system can go through: a collaborator enqueues a request that is
    neither queued nor assigned, a request is canceled, or one dispatch cycle
    runs. *)
Inductive step `{Floats} : RideSharingSystem -> RideSharingSystem -> Prop :=
| step_enqueue (s : RideSharingSystem) (r : ref) :
    ~ In r (passenger_request_queue s) ->
    held_by_assignment s r = false ->
    step s (with_queue s (passenger_request_queue s ++ [r]))
| step_cancel (s : RideSharingSystem) (r : ref) :
    step s (cancel_request s r)
| step_dispatch (fuel : nat) (s s' : RideSharingSystem) :
    passenger_request_queue s <> [] ->
    process_one fuel s = Ok s' ->
    step s s'.

Inductive reachable `{Floats} (s0 : RideSharingSystem)
    : RideSharingSystem -> Prop :=
| reach_init : reachable s0 s0
| reach_step (s s' : RideSharingSystem) :
    reachable s0 s -> step s s' -> reachable s0 s'.

(** Some queued, uncanceled request has no candidate with a route. *)
Definition stuck `{Floats} (fuel : nat) (s : RideSharingSystem) : Prop :=
  exists r,
    In r (passenger_request_queue s)
    /\ is_canceled (request_obj s r) = false
    /\ forall d, In d (candidates s) ->
                 unroutable fuel s (pickup_node s r) d = true.

(** Reading the result of a cycle. *)
Definition driver_after (m : outcome RideSharingSystem) (driver : ref)
    : outcome Driver :=
  s <- m ;; Ok (driver_obj s driver).

Definition queue_after (m : outcome RideSharingSystem) : outcome (list ref) :=
  s <- m ;; Ok (passenger_request_queue s).

(** ** Sample data *)

Definition paris : coord := (48.8566, 2.3522)%Q.
Definition new_york : coord := (40.7128, -74.0060)%Q.
Definition london : coord := (51.5074, -0.1278)%Q.
Definition berlin : coord := (52.5200, 13.4050)%Q.
Definition null_island : coord := (0, 0)%Q.

(** The point of the globe opposite Paris. *)
Definition paris_antipode : coord := (-48.8566, -177.6478)%Q.

(** The haversine distances between the four mapped locations, to the
    kilometre. *)
Definition sample_km (a b : string) : Q :=
  if String.eqb a b then 0
  else if (String.eqb a "A" && String.eqb b "B") || (String.eqb a "B" && String.eqb b "A") then 5837
  else if (String.eqb a "A" && String.eqb b "C") || (String.eqb a "C" && String.eqb b "A") then 344
  else if (String.eqb a "A" && String.eqb b "D") || (String.eqb a "D" && String.eqb b "A") then 877
  else if (String.eqb a "B" && String.eqb b "C") || (String.eqb a "C" && String.eqb b "B") then 5570
  else if (String.eqb a "B" && String.eqb b "D") || (String.eqb a "D" && String.eqb b "B") then 6385
  else 932.

(** The distances of the examples. Between mapped coordinates they are
    those of the table above; no example below depends on the value
    elsewhere. *)
Definition sample_haversine (x y : coord) : option Q :=
  match lookup_coordinates sample_location_mapping x,
        lookup_coordinates sample_location_mapping y with
  | Some a, Some b => Some (sample_km a b)
  | _, _ => Some 0%Q
  end.

(** Arithmetic for the examples in which no operation has to round. *)
Definition sample_floats : Floats :=
  {| haversine := sample_haversine;
     fl := fun x => x;
     fl_monotone := fun x y L => L |}.

(** Arithmetic that rounds down to a multiple of 100: coarse enough for two
    different distances of the examples to have one estimated arrival
    time. *)
Definition coarse_floats : Floats :=
  {| haversine := sample_haversine;
     fl := fun x => inject_Z (100 * Qfloor (x / 100));
     fl_monotone := ltac:(intros x y L; cbv beta; rewrite <- Zle_Qle;
                          apply Z.mul_le_mono_nonneg_l; [discriminate|];
                          apply Qfloor_resp_le;
                          apply Qmult_le_compat_r; [exact L | discriminate]) |}.

(** Arithmetic under which the distance from the antipode of Paris to Paris
    cannot be computed: [a] rounds above 1 and [sqrt(1 - a)] raises. *)
Definition raising_floats : Floats :=
  {| haversine := fun x y =>
       if coord_eqb x paris_antipode && coord_eqb y paris then None
       else sample_haversine x y;
     fl := fun x => x;
     fl_monotone := fun x y L => L |}.

Definition new_driver (name : string) (location : coord) : Driver :=
  mkDriver name location true None None.

Definition new_request (pickup dropoff : coord) : PassengerRequest :=
  mkRequest pickup dropoff false.

Definition store_of {A : Type} (objs : list A) (default : A) : ref -> A :=
  fun r => nth r objs default.

(** The system set up by [main.py]: Bob in New York, Alice in London, and
    John's request from Paris to Berlin. *)
Definition main_system : RideSharingSystem :=
  mkSystem [0%nat] [0%nat; 1%nat] sample_graph sample_location_mapping
    (store_of [new_request paris berlin] (new_request paris berlin))
    (store_of [new_driver "Bob" new_york; new_driver "Alice" london]
              (new_driver "Bob" new_york)).

(** The same with the two drivers registered in the other order. *)
Definition swapped_system : RideSharingSystem :=
  mkSystem [0%nat] [0%nat; 1%nat] sample_graph sample_location_mapping
    (store_of [new_request paris berlin] (new_request paris berlin))
    (store_of [new_driver "Alice" london; new_driver "Bob" new_york]
              (new_driver "Alice" london)).

(** A routing graph in two parts, A-B and C-D. *)
Definition split_graph : graph_t :=
  [ ("A", [("B", 1)]);
    ("B", [("A", 1)]);
    ("C", [("D", 1)]);
    ("D", [("C", 1)]) ].

(** Bob in New York, Alice in London and Carol in Berlin on the split graph;
    John's request from Paris. *)
Definition split_system : RideSharingSystem :=
  mkSystem [0%nat] [0%nat; 1%nat; 2%nat] split_graph sample_location_mapping
    (store_of [new_request paris berlin] (new_request paris berlin))
    (store_of [new_driver "Bob" new_york; new_driver "Alice" london;
               new_driver "Carol" berlin]
              (new_driver "Bob" new_york)).

(** A driver whose coordinates are not in the mapping. *)
Definition stranded_system : RideSharingSystem :=
  mkSystem [0%nat] [0%nat] sample_graph sample_location_mapping
    (store_of [new_request paris berlin] (new_request paris berlin))
    (store_of [new_driver "Eve" null_island] (new_driver "Eve" null_island)).

(** Bob in New York and, registered after him, Eve, whose coordinates are not
    in the mapping; John's request from Paris. *)
Definition mixed_system : RideSharingSystem :=
  mkSystem [0%nat] [0%nat; 1%nat] sample_graph sample_location_mapping
    (store_of [new_request paris berlin] (new_request paris berlin))
    (store_of [new_driver "Bob" new_york; new_driver "Eve" null_island]
              (new_driver "Bob" new_york)).

(** Carol in Berlin, Alice in London and Bob in New York, in this order;
    John's request from Paris. *)
Definition tie_system : RideSharingSystem :=
  mkSystem [0%nat] [0%nat; 1%nat; 2%nat] sample_graph sample_location_mapping
    (store_of [new_request paris berlin] (new_request paris berlin))
    (store_of [new_driver "Carol" berlin; new_driver "Alice" london;
               new_driver "Bob" new_york]
              (new_driver "Carol" berlin)).

(** Bob in New York and Zoe at the antipode of Paris; John's request from
    Paris. *)
Definition antipodal_system : RideSharingSystem :=
  mkSystem [0%nat] [0%nat; 1%nat] sample_graph sample_location_mapping
    (store_of [new_request paris berlin] (new_request paris berlin))
    (store_of [new_driver "Bob" new_york; new_driver "Zoe" paris_antipode]
              (new_driver "Bob" new_york)).

(** A request whose pickup is not in the mapping, with the drivers of
    [main.py]. *)
Definition unmapped_pickup_system : RideSharingSystem :=
  mkSystem [0%nat] [0%nat; 1%nat] sample_graph sample_location_mapping
    (store_of [new_request null_island berlin] (new_request null_island berlin))
    (store_of [new_driver "Bob" new_york; new_driver "Alice" london]
              (new_driver "Bob" new_york)).

(** No driver registered, and a request whose pickup is not in the mapping. *)
Definition idle_system : RideSharingSystem :=
  mkSystem [0%nat] [] sample_graph sample_location_mapping
    (store_of [new_request null_island berlin] (new_request null_island berlin))
    (store_of [] (new_driver "Bob" new_york)).

(** The state a cycle ends in, or [s] when it does not end in one. *)
Definition state_after (m : outcome RideSharingSystem) (s : RideSharingSystem)
    : RideSharingSystem :=
  match m with Ok s' => s' | _ => s end.

(** ** Further operations and observations *)

(** The state after [n] iterations of the body of
    [while self.passenger_request_queue:]. *)
Fixpoint cycles `{Floats} (n fuel : nat) (s : RideSharingSystem)
    : outcome RideSharingSystem :=
  match n with
  | O => Ok s
  | S n' => s' <- process_one fuel s ;; cycles n' fuel s'
  end.

(** The requests of a queue that are not canceled, in order. *)
Definition uncanceled (s : RideSharingSystem) (q : list ref) : list ref :=
  filter (fun r => negb (is_canceled (request_obj s r))) q.

(** Every queued request that is not canceled can be matched: the registry
    lists no driver twice and has at least as many available drivers as the
    queue has such requests, and from every available driver the distance to
    the pickup of every such request is defined and a route to it is
    found. *)
Definition all_matched `{Floats} (fuel : nat) (s : RideSharingSystem) : Prop :=
  NoDup (drivers s)
  /\ (List.length (uncanceled s (passenger_request_queue s))
      <= List.length (candidates s))%nat
  /\ forall r d,
       In r (passenger_request_queue s) ->
       is_canceled (request_obj s r) = false ->
       In d (candidates s) ->
       distance_to_pickup s r d <> None
       /\ routable fuel s (pickup_node s r) d = true.

(** Candidate [b] arrives earlier than [c], or at the same time from
    nearer: the test of the loop, between two candidates. *)
Definition strictly_better `{Floats} (s : RideSharingSystem)
    (passenger_request b c : ref) : Prop :=
  exists x y : Q,
    distance_to_pickup s passenger_request b = Some x
    /\ distance_to_pickup s passenger_request c = Some y
    /\ (calculate_estimated_arrival_time x < calculate_estimated_arrival_time y
        \/ (calculate_estimated_arrival_time x
            == calculate_estimated_arrival_time y
            /\ x < y))%Q.

(** Candidate [b] is no farther from the pickup than [c]. *)
Definition no_farther `{Floats} (s : RideSharingSystem)
    (passenger_request b c : ref) : Prop :=
  exists x y : Q,
    distance_to_pickup s passenger_request b = Some x
    /\ distance_to_pickup s passenger_request c = Some y
    /\ (x <= y)%Q.

(** No two entries of a mapping have the same coordinates. *)
Definition coordinates_distinct (m : list (string * coord)) : Prop :=
  ForallOrdPairs (fun x y => coord_eqb (snd x) (snd y) = false) m.

(** Alice holds John's request, Bob is free, and the request is queued
    again. *)
Definition requeued_system : RideSharingSystem :=
  mkSystem [0%nat] [0%nat; 1%nat] sample_graph sample_location_mapping
    (store_of [new_request paris berlin] (new_request paris berlin))
    (store_of [new_driver "Bob" new_york;
               mkDriver "Alice" london false (Some 0%nat)
                        (Some (PyList [Some "C"; Some "B"; Some "A"]))]
              (new_driver "Bob" new_york)).

(** ** Walks of the graph and the invariant of the search *)

(** [edge g u v w]: [v] is listed with weight [w] under [u]. *)
Definition edge (g : graph_t) (u v : string) (w : Z) : Prop :=
  exists nbrs, graph_get g (Some u) = Some nbrs /\ In (v, w) nbrs.

(** [walk g s l d]: [l] lists, last node first, the nodes of a walk of the
    graph that starts at [s] and whose edge weights add up to [d]. *)
Inductive walk (g : graph_t) (s : string) : list string -> Z -> Prop :=
| walk_start : walk g s [s] 0
| walk_edge (u v : string) (l : list string) (d w : Z) :
    walk g s (u :: l) d -> edge g u v w -> walk g s (v :: u :: l) (d + w).

(** The Python list for a walk. *)
Definition route_of_walk (l : list string) : pyroute :=
  PyList (rev (map Some l)).

(** The entries of the priority queue in ascending order of distance. *)
Fixpoint ascending (q : list entry) : Prop :=
  match q with
  | [] => True
  | x :: q' => (forall y, In y q' -> fst x <= fst y) /\ ascending q'
  end.

(** The invariant of the search from [s] to [e], with the nodes [settled]
    (popped with their recorded distance and relaxed). While the neighbours
    of [cur] are being relaxed, [pending] lists those still to come.
    - the start is at distance 0;
    - a finite distance is that of the start, or the distance of a settled
      predecessor plus the weight of an edge from it;
    - settled nodes are no farther than any queue entry;
    - the queue is ascending and holds every unsettled node with a finite
      distance, at that distance;
    - the edges out of settled nodes are relaxed, the pending ones apart;
    - a queue entry is not below the recorded distance of its node;
    - the end node is not settled; distances are non-negative; the nodes
      with a distance are true as conditions. *)
Record dijkstra_inv (g : graph_t) (s e : string) (settled : list string)
    (cur : string) (pending : list (string * Z)) (st : search_state) : Prop :=
  mkDijkstraInv {
  dj_start : dict_get (distances st) (Some s) = Some (Fin 0);
  dj_pred : forall n d, dict_get (distances st) (Some n) = Some (Fin d) ->
    (n = s /\ d = 0 /\ dict_get (predecessors st) (Some n) = Some None)
    \/ exists u w du,
         dict_get (predecessors st) (Some n) = Some (Some u)
         /\ In u settled
         /\ dict_get (distances st) (Some u) = Some (Fin du)
         /\ edge g u n w /\ d = du + w;
  dj_settled : forall u, In u settled ->
    exists du, dict_get (distances st) (Some u) = Some (Fin du)
               /\ forall d n, In (d, n) (pqueue st) -> du <= d;
  dj_ascending : ascending (pqueue st);
  dj_frontier : forall n d,
    dict_get (distances st) (Some n) = Some (Fin d) ->
    ~ In n settled -> In (d, Some n) (pqueue st);
  dj_relaxed : forall u v w, In u settled -> edge g u v w ->
    (u = cur /\ In (v, w) pending)
    \/ exists du dv, dict_get (distances st) (Some u) = Some (Fin du)
                     /\ dict_get (distances st) (Some v) = Some (Fin dv)
                     /\ dv <= du + w;
  dj_queue : forall d n, In (d, n) (pqueue st) ->
    exists k dk, n = Some k
                 /\ dict_get (distances st) (Some k) = Some (Fin dk)
                 /\ dk <= d;
  dj_end : forall u, In u settled -> u <> e;
  dj_nonneg : forall n d, dict_get (distances st) n = Some (Fin d) -> 0 <= d;
  dj_truthy : forall n v, dict_get (distances st) (Some n) = Some v ->
    truthy (Some n) = true
}.

(** No key of the graph is the empty string. *)
Definition key_names_nonempty (g : graph_t) : bool :=
  forallb (fun kv => negb (String.eqb (fst kv) "")) g.

(** What the search from [s] to [e] is to return: [None] when the graph has
    no walk from [s] to [e], and otherwise the nodes of one of the walks of
    least weight. *)
Definition shortest_or_none (g : graph_t) (s e : string) (r : pyroute) : Prop :=
  match r with
  | PyNone => forall l d, ~ walk g s (e :: l) d
  | PyList route =>
      exists l d,
        route = rev (map Some (e :: l))
        /\ walk g s (e :: l) d
        /\ forall l' d', walk g s (e :: l') d' -> d <= d'
  end.

(** ** The monolithic implementation, [main.py] at the root

    [RideSharingSystem] of the root [main.py] holds [Driver] and [Passenger]
    objects of its own. The model keeps the object stores, and records the
    calls of [send_notification] in order; the other [print] lines and
    [time.sleep] are left out. Object construction ([add_driver],
    [add_passenger], [add_test_data]) is not modelled. *)

Module Monolith.

Record Driver : Type := mkDriver {
  id : string;
  location : coord;
  is_available : bool;
  current_passenger : option ref;
  current_route : option (list node)
}.

(** [Passenger]: [id], [location], [destination]. *)
Record Passenger : Type := mkPassenger {
  passenger_id : string;
  passenger_location : coord;
  destination : coord
}.

(** The two messages that the class sends: the driver is on the way, with
    the distance that the estimated arrival time is formatted from, or the
    passenger waits in the queue. *)
Inductive message : Type :=
| OnTheWay (driver_id : string) (distance : Q)
| InWaitingQueue.

Record RideSharingSystem : Type := mkSystem {
  passenger_request_queue : list ref;
  graph : graph_t;
  drivers : list ref;
  passenger_obj : ref -> Passenger;
  driver_obj : ref -> Driver;
  notifications : list (ref * message)
}.

Definition get_graph : graph_t := sample_graph.

Definition get_coordinates (coordinates : coord) : node :=
  lookup_coordinates sample_location_mapping coordinates.

(** The loop of [find_available_drivers], with its local [MAX_DISTANCE];
    the distance is computed only for an available driver. *)
Fixpoint available_among `{Floats} (s : RideSharingSystem)
    (passenger_location : coord) (drivers : list ref) : outcome (list ref) :=
  match drivers with
  | [] => Ok []
  | driver :: rest =>
      keep <- (if is_available (driver_obj s driver)
               then distance <- calculate_distance
                                  (location (driver_obj s driver))
                                  passenger_location ;;
                    Ok (ext_leb Qle_bool (Fin distance) Inf)
               else Ok false) ;;
      available_drivers <- available_among s passenger_location rest ;;
      Ok (if keep then driver :: available_drivers else available_drivers)
  end.

Definition find_available_drivers `{Floats} (s : RideSharingSystem)
    (passenger_location : coord) : outcome (list ref) :=
  available_among s passenger_location (drivers s).

(** The loop of [match_passenger_with_driver]; [distance] is unbound until
    the body has run once. *)
Fixpoint match_loop `{Floats} (s : RideSharingSystem) (passenger : ref)
    (available_drivers : list ref) (best_driver : option ref)
    (min_distance : ext Q) (distance : option Q)
    : outcome (option ref * ext Q * option Q) :=
  match available_drivers with
  | [] => Ok (best_driver, min_distance, distance)
  | driver :: rest =>
      d <- calculate_distance (location (driver_obj s driver))
             (passenger_location (passenger_obj s passenger)) ;;
      if ext_ltb Qltb (Fin d) min_distance
      then match_loop s passenger rest (Some driver) (Fin d) (Some d)
      else match_loop s passenger rest best_driver min_distance (Some d)
  end.

(** [return best_driver, distance] *)
Definition match_passenger_with_driver `{Floats} (s : RideSharingSystem)
    (passenger : ref) (available_drivers : list ref)
    : outcome (option ref * Q) :=
  after <- match_loop s passenger available_drivers None Inf None ;;
  match after with
  | (best_driver, _, Some distance) => Ok (best_driver, distance)
  | (_, _, None) => Raise UnboundLocalError
  end.

(** The search is, line for line, that of the split version; when the queue
    empties this one returns [[]]. *)
Definition calculate_optimal_route (fuel : nat) (s : RideSharingSystem)
    (driver passenger : ref) (graph : graph_t) : outcome (list node) :=
  let start_node := get_coordinates (location (driver_obj s driver)) in
  let end_node :=
    get_coordinates (passenger_location (passenger_obj s passenger)) in
  route <- calculate_optimal_route fuel graph start_node end_node ;;
  Ok match route with
     | PyNone => []
     | PyList path => path
     end.

Definition send_notification (s : RideSharingSystem) (passenger : ref)
    (m : message) : RideSharingSystem :=
  mkSystem (passenger_request_queue s) (graph s) (drivers s)
           (passenger_obj s) (driver_obj s)
           (notifications s ++ [(passenger, m)]).

Definition handle_unavailable_driver (s : RideSharingSystem) (passenger : ref)
    : RideSharingSystem :=
  send_notification
    (mkSystem (passenger_request_queue s ++ [passenger]) (graph s) (drivers s)
              (passenger_obj s) (driver_obj s) (notifications s))
    passenger InWaitingQueue.

Definition assign_ride (s : RideSharingSystem) (driver passenger : ref)
    (optimal_route : list node) (distance : Q) : RideSharingSystem :=
  let d := driver_obj s driver in
  if is_available d then
    send_notification
      (mkSystem (passenger_request_queue s) (graph s) (drivers s)
                (passenger_obj s)
                (store_set (driver_obj s) driver
                   (mkDriver (id d) (location d) false (Some passenger)
                             (Some optimal_route)))
                (notifications s))
      passenger (OnTheWay (id d) distance)
  else handle_unavailable_driver s passenger.

Definition get_next_passenger_request (s : RideSharingSystem) : option ref :=
  match passenger_request_queue s with
  | [] => None
  | p :: _ => Some p
  end.

(** One iteration of [while True:] in [main]. *)
Definition main_iteration `{Floats} (fuel : nat) (s : RideSharingSystem)
    : outcome RideSharingSystem :=
  match get_next_passenger_request s with
  | None => Ok s
  | Some new_passenger_request =>
      available_drivers <-
        find_available_drivers s
          (passenger_location (passenger_obj s new_passenger_request)) ;;
      match available_drivers with
      | [] => Ok s
      | _ :: _ =>
          md <- match_passenger_with_driver s new_passenger_request
                  available_drivers ;;
          match fst md with
          | Some matched_driver =>
              optimal_route <- calculate_optimal_route fuel s matched_driver
                                 new_passenger_request (graph s) ;;
              Ok (assign_ride s matched_driver new_passenger_request
                              optimal_route (snd md))
          | None => Ok (handle_unavailable_driver s new_passenger_request)
          end
      end
  end.

(** The first [n] iterations of [while True:] in [main]. *)
Fixpoint main_loop `{Floats} (n fuel : nat) (s : RideSharingSystem)
    : outcome RideSharingSystem :=
  match n with
  | O => Ok s
  | S n' => s1 <- main_iteration fuel s ;; main_loop n' fuel s1
  end.

(** The distance from a driver to a passenger, where [calculate_distance]
    returns one. *)
Definition distance_between `{Floats} (s : RideSharingSystem)
    (passenger driver : ref) : option Q :=
  haversine (location (driver_obj s driver))
            (passenger_location (passenger_obj s passenger)).

(** Both distances are computed and that of [b] is smaller than, or at most,
    that of [c]. *)
Definition nearer `{Floats} (s : RideSharingSystem) (passenger b c : ref)
    : Prop :=
  exists x y : Q,
    distance_between s passenger b = Some x
    /\ distance_between s passenger c = Some y /\ (x < y)%Q.

Definition no_farther `{Floats} (s : RideSharingSystem)
    (passenger b c : ref) : Prop :=
  exists x y : Q,
    distance_between s passenger b = Some x
    /\ distance_between s passenger c = Some y /\ (x <= y)%Q.

(** The available drivers of the registry, in order. *)
Definition candidates (s : RideSharingSystem) : list ref :=
  filter (fun driver => is_available (driver_obj s driver)) (drivers s).

(** The state after [add_test_data]: Driver1 in New York, Driver2 in London,
    Passenger1 from Paris to Berlin. *)
Definition test_data : RideSharingSystem :=
  mkSystem [0%nat] get_graph [0%nat; 1%nat]
    (store_of [mkPassenger "Passenger1" paris berlin]
              (mkPassenger "Passenger1" paris berlin))
    (store_of [mkDriver "Driver1" new_york true None None;
               mkDriver "Driver2" london true None None]
              (mkDriver "Driver1" new_york true None None))
    [].

(** Driver1 in New York, Driver2 at the antipode of Paris, Passenger1 in
    Paris. *)
Definition antipodal_data : RideSharingSystem :=
  mkSystem [0%nat] get_graph [0%nat; 1%nat]
    (store_of [mkPassenger "Passenger1" paris berlin]
              (mkPassenger "Passenger1" paris berlin))
    (store_of [mkDriver "Driver1" new_york true None None;
               mkDriver "Driver2" paris_antipode true None None]
              (mkDriver "Driver1" new_york true None None))
    [].

End Monolith.

(** * Properties *)

(** ** Basic facts about nodes, dicts, numbers and the state *)

Lemma node_eqb_refl (n : node) : node_eqb n n = true.
Proof. destruct n as [x|]; simpl; [apply String.eqb_refl | reflexivity]. Qed.

Lemma node_eqb_eq (a b : node) : node_eqb a b = true <-> a = b.
Proof.
  destruct a as [x|], b as [y|]; simpl; split; intro E;
    try discriminate; try reflexivity.
  - apply String.eqb_eq in E. now subst.
  - injection E as ->. apply String.eqb_refl.
Qed.

Lemma node_eqb_trans_false (a b c : node) :
  node_eqb a b = true -> node_eqb b c = false -> node_eqb a c = false.
Proof. intros E N. apply node_eqb_eq in E. now subst. Qed.

Lemma dict_get_set_same {V : Type} (d : dict V) (k : node) (v : V) :
  dict_get (dict_set d k v) k = Some v.
Proof.
  induction d as [|[k' v'] d IH]; simpl.
  - now rewrite node_eqb_refl.
  - destruct (node_eqb k' k) eqn:E; simpl; rewrite E; auto.
Qed.

Lemma dict_get_set_other {V : Type} (d : dict V) (k k' : node) (v : V) :
  node_eqb k k' = false ->
  dict_get (dict_set d k v) k' = dict_get d k'.
Proof.
  intro N. induction d as [|[k0 v0] d IH]; cbn [dict_set dict_get].
  - now rewrite N.
  - destruct (node_eqb k0 k) eqn:E; cbn [dict_get].
    + rewrite (node_eqb_trans_false k0 k k' E N). reflexivity.
    + now rewrite IH.
Qed.

Lemma dict_get_set {V : Type} (d : dict V) (k k' : node) (v : V) :
  dict_get (dict_set d k v) k'
  = if node_eqb k k' then Some v else dict_get d k'.
Proof.
  destruct (node_eqb k k') eqn:E.
  - apply node_eqb_eq in E. subst. apply dict_get_set_same.
  - now apply dict_get_set_other.
Qed.

Lemma dict_get_init {V : Type} (g : graph_t) (v : V) (n : node) :
  dict_get (map (fun kv => (Some (fst kv), v)) g) n
  = match graph_get g n with Some _ => Some v | None => None end.
Proof.
  induction g as [|[k nbrs] g IH]; cbn [map dict_get graph_get fst];
    [reflexivity|].
  destruct (node_eqb (Some k) n); [reflexivity | exact IH].
Qed.

Lemma graph_get_None (g : graph_t) : graph_get g None = None.
Proof. induction g as [|[k nbrs] g IH]; simpl; auto. Qed.

Lemma graph_get_Some (g : graph_t) (k : node) (nbrs : list (string * Z)) :
  graph_get g k = Some nbrs -> exists x, k = Some x /\ In (x, nbrs) g.
Proof.
  induction g as [|[k' nbrs'] g IH]; cbn [graph_get]; [discriminate|].
  destruct (node_eqb (Some k') k) eqn:E.
  - intro S. injection S as <-. apply node_eqb_eq in E. subst k.
    exists k'. split; [reflexivity | now left].
  - intro S. destruct (IH S) as (x & -> & Hin). exists x. split; [reflexivity|].
    now right.
Qed.

Lemma graph_get_None_key (g : graph_t) (e : node) (k : string)
    (nbrs : list (string * Z)) :
  graph_get g e = None -> In (k, nbrs) g -> node_eqb (Some k) e = false.
Proof.
  induction g as [|[k' nbrs'] g IH]; cbn [graph_get]; intros G Hin;
    [destruct Hin|].
  destruct (node_eqb (Some k') e) eqn:E; [discriminate|].
  destruct Hin as [Heq | Hin]; [injection Heq as <- <-; exact E | auto].
Qed.

Lemma is_key_in (g : graph_t) (k : string) (nbrs : list (string * Z)) :
  In (k, nbrs) g -> is_key g (Some k).
Proof.
  unfold is_key. induction g as [|[k' nbrs'] g IH]; cbn [graph_get In];
    [tauto|].
  intros [E | Hin].
  - injection E as -> ->. cbn. now rewrite String.eqb_refl.
  - destruct (node_eqb (Some k') (Some k)); [discriminate | auto].
Qed.

Lemma neighbours_are_keys_spec (g : graph_t) (k n : string)
    (nbrs : list (string * Z)) (w : Z) :
  neighbours_are_keys g = true ->
  In (k, nbrs) g -> In (n, w) nbrs -> exists nbrs', In (n, nbrs') g.
Proof.
  unfold neighbours_are_keys. rewrite forallb_forall. intros C Hk Hn.
  specialize (C _ Hk). cbn in C. rewrite forallb_forall in C.
  specialize (C _ Hn). cbn in C. apply existsb_exists in C.
  destruct C as (x & Hx & E). apply String.eqb_eq in E. subst x.
  apply in_map_iff in Hx. destruct Hx as ([k' nbrs'] & E & Hin).
  cbn in E. subst k'. eauto.
Qed.

Lemma weights_positive_spec (g : graph_t) (k n : string)
    (nbrs : list (string * Z)) (w : Z) :
  weights_positive g = true -> In (k, nbrs) g -> In (n, w) nbrs -> 0 < w.
Proof.
  unfold weights_positive. rewrite forallb_forall. intros P Hk Hn.
  specialize (P _ Hk). cbn in P. rewrite forallb_forall in P.
  specialize (P _ Hn). cbn in P. now apply Z.ltb_lt.
Qed.

Lemma in_heappush (q : list entry) (e x : entry) :
  In x (heappush q e) <-> x = e \/ In x q.
Proof.
  induction q as [|y q IH]; cbn [heappush].
  - cbn. intuition.
  - destruct (entry_ltb e y); cbn [In]; [intuition|]. rewrite IH. intuition.
Qed.

Lemma with_queue_queue (s : RideSharingSystem) :
  with_queue s (passenger_request_queue s) = s.
Proof. now destruct s. Qed.

Lemma Qltb_lt (a b : Q) : Qltb a b = true <-> (a < b)%Q.
Proof.
  unfold Qltb. rewrite negb_true_iff. split; intro E.
  - apply Qnot_le_lt. intro L. apply Qle_bool_iff in L. congruence.
  - destruct (Qle_bool b a) eqn:L; [|reflexivity].
    apply Qle_bool_iff in L. exfalso. exact (Qlt_not_le _ _ E L).
Qed.

Lemma Qltb_ge (a b : Q) : Qltb a b = false <-> (b <= a)%Q.
Proof.
  unfold Qltb. rewrite negb_false_iff. apply Qle_bool_iff.
Qed.

Lemma Qeq_bool_false (a b : Q) : Qeq_bool a b = false <-> ~ (a == b)%Q.
Proof.
  split; intro E.
  - intro A. apply Qeq_bool_iff in A. congruence.
  - destruct (Qeq_bool a b) eqn:A; [|reflexivity].
    apply Qeq_bool_iff in A. contradiction.
Qed.

Lemma improves_Inf (t x : Q) : improves t x Inf Inf = true.
Proof. reflexivity. Qed.

Lemma improves_true (t x bt bx : Q) :
  improves t x (Fin bt) (Fin bx) = true <->
  (t < bt \/ (t == bt /\ x < bx))%Q.
Proof.
  unfold improves. cbn [ext_ltb ext_eqb].
  rewrite orb_true_iff, andb_true_iff, !Qltb_lt, Qeq_bool_iff. tauto.
Qed.

Lemma improves_false (t x bt bx : Q) :
  improves t x (Fin bt) (Fin bx) = false ->
  (bt < t \/ (bt == t /\ bx <= x))%Q.
Proof.
  unfold improves. cbn [ext_ltb ext_eqb].
  rewrite orb_false_iff, andb_false_iff, !Qltb_ge, Qeq_bool_false.
  intros [L [N | G]].
  - left. apply Qle_lteq in L. destruct L as [L | L]; [exact L|].
    exfalso. apply N. now symmetry.
  - apply Qle_lteq in L. destruct L as [L | L]; [now left|]. right. now split.
Qed.

(** [calculate_distance] returns where the distance is defined and raises
    [ValueError] elsewhere. *)
Lemma calculate_distance_Ok `{Floats} (a b : coord) (d : Q) :
  calculate_distance a b = Ok d <-> haversine a b = Some d.
Proof.
  unfold calculate_distance. destruct (haversine a b) as [x|]; split;
    intro E; try discriminate; now injection E as <-.
Qed.

Lemma calculate_distance_Raise `{Floats} (a b : coord) (e : exn) :
  calculate_distance a b = Raise e -> e = ValueError /\ haversine a b = None.
Proof.
  unfold calculate_distance. destruct (haversine a b) as [x|]; intro E;
    [discriminate|]. injection E as <-. now split.
Qed.

(** The estimated arrival time does not decrease with the distance. *)
Lemma arrival_time_monotone `{Floats} (x y : Q) :
  (x <= y)%Q ->
  (calculate_estimated_arrival_time x <= calculate_estimated_arrival_time y)%Q.
Proof.
  intro L. unfold calculate_estimated_arrival_time.
  apply fl_monotone. apply Qmult_le_compat_r; [|discriminate].
  apply fl_monotone. unfold Qdiv. apply Qmult_le_compat_r; [exact L|].
  discriminate.
Qed.

(** What the loop of [find_available_drivers] returns: the available
    drivers, in order, every one of them at a distance that is defined. *)
Lemma available_among_Ok `{Floats} (s : RideSharingSystem) (loc : coord)
    (ds : list ref) :
  forall l,
    available_among s loc ds = Ok l ->
    l = filter (fun d => is_available (driver_obj s d)) ds
    /\ forall d, In d l ->
         exists x, haversine (location (driver_obj s d)) loc = Some x.
Proof.
  induction ds as [|d ds IH]; intros l E.
  - injection E as <-. split; [reflexivity | intros d []].
  - cbn [available_among filter] in *.
    destruct (is_available (driver_obj s d)).
    + unfold calculate_distance in E.
      destruct (haversine (location (driver_obj s d)) loc) as [x|] eqn:D;
        cbn [bind] in E; [|discriminate].
      destruct (available_among s loc ds) as [l1| |]; cbn [bind] in E;
        try discriminate.
      destruct (IH l1 eq_refl) as [-> Hd]. cbn [ext_leb MAX_DISTANCE] in E.
      injection E as <-. split; [reflexivity|].
      intros c [<- | Hc]; [eauto | auto].
    + cbn [bind] in E.
      destruct (available_among s loc ds) as [l1| |]; cbn [bind] in E;
        try discriminate.
      injection E as <-. now apply IH.
Qed.

(** The loop returns when the distance of every available driver is
    defined. *)
Lemma available_among_returns `{Floats} (s : RideSharingSystem) (loc : coord)
    (ds : list ref) :
  (forall d, In d ds -> is_available (driver_obj s d) = true ->
     haversine (location (driver_obj s d)) loc <> None) ->
  available_among s loc ds
  = Ok (filter (fun d => is_available (driver_obj s d)) ds).
Proof.
  induction ds as [|d ds IH]; intro Hall; [reflexivity|].
  cbn [available_among filter].
  rewrite IH by (intros; apply Hall; [now right | assumption]).
  destruct (is_available (driver_obj s d)) eqn:A; [|reflexivity].
  unfold calculate_distance.
  destruct (haversine (location (driver_obj s d)) loc) as [x|] eqn:D.
  - reflexivity.
  - exfalso. exact (Hall d (or_introl eq_refl) A D).
Qed.

(** The loop raises only [ValueError], for an available driver whose
    distance is not defined. *)
Lemma available_among_Raise `{Floats} (s : RideSharingSystem) (loc : coord)
    (ds : list ref) (e : exn) :
  available_among s loc ds = Raise e ->
  e = ValueError
  /\ exists d, In d ds /\ is_available (driver_obj s d) = true
               /\ haversine (location (driver_obj s d)) loc = None.
Proof.
  induction ds as [|d ds IH]; intro E; [discriminate|].
  cbn [available_among] in E.
  destruct (is_available (driver_obj s d)) eqn:A.
  - unfold calculate_distance in E.
    destruct (haversine (location (driver_obj s d)) loc) as [x|] eqn:D;
      cbn [bind] in E.
    + destruct (available_among s loc ds) as [l1| |]; cbn [bind] in E;
        try discriminate.
      destruct (IH E) as (-> & c & Hc & Ac & Dc).
      split; [reflexivity|]. exists c. split; [now right | now split].
    + injection E as <-. split; [reflexivity|]. exists d.
      split; [now left | now split].
  - cbn [bind] in E.
    destruct (available_among s loc ds) as [l1| |]; cbn [bind] in E;
      try discriminate.
    destruct (IH E) as (-> & c & Hc & Ac & Dc).
    split; [reflexivity|]. exists c. split; [now right | now split].
Qed.

Lemma available_among_fuel `{Floats} (s : RideSharingSystem) (loc : coord)
    (ds : list ref) :
  available_among s loc ds <> OutOfFuel.
Proof.
  induction ds as [|d ds IH]; [discriminate|].
  cbn [available_among].
  destruct (is_available (driver_obj s d)).
  - unfold calculate_distance.
    destruct (haversine (location (driver_obj s d)) loc); cbn [bind];
      [|discriminate].
    destruct (available_among s loc ds); cbn [bind]; congruence.
  - cbn [bind]. destruct (available_among s loc ds); cbn [bind]; congruence.
Qed.

(** ** The route planner from an unknown start node *)

Lemma reconstruct_S (preds : dict node) (fuel : nat) (c : node)
    (path : list node) :
  reconstruct (S fuel) preds c path
  = if truthy c then
      match dict_get preds c with
      | None => Raise KeyError
      | Some p => reconstruct fuel preds p (path ++ [c])
      end
    else Ok (PyList (rev path)).
Proof. reflexivity. Qed.

Lemma search_S (fuel : nat) (g : graph_t) (e : node) (st : search_state) :
  search (S fuel) g e st
  = match pqueue st with
    | [] => Ok PyNone
    | (cd, cur) :: rest =>
        let st := mkSearch (distances st) (predecessors st) rest in
        if node_eqb cur e then reconstruct fuel (predecessors st) cur []
        else
          match dict_get (distances st) cur with
          | None => Raise KeyError
          | Some best =>
              if ext_ltb Z.ltb best (Fin cd) then search fuel g e st
              else
                match graph_get g cur with
                | None => Raise KeyError
                | Some nbrs =>
                    st' <- relax cd cur nbrs st ;; search fuel g e st'
                end
          end
    end.
Proof. reflexivity. Qed.

(** A start node that is not a key of the graph is popped first and
    [self.graph[current_node]] fails on it. *)
Lemma route_from_unknown_start (fuel : nat) (g : graph_t)
    (start_node end_node : node) :
  graph_get g start_node = None ->
  node_eqb start_node end_node = false ->
  calculate_optimal_route (S fuel) g start_node end_node = Raise KeyError.
Proof.
  intros Hg Hne. unfold calculate_optimal_route. simpl.
  rewrite Hne, dict_get_set_same. simpl. now rewrite Hg.
Qed.

(** With the same unknown node as start and end, the path reconstruction
    starts and [predecessors[current_node]] fails, unless the node is false
    as a condition. *)
Lemma route_unknown_start_to_itself (fuel : nat) (g : graph_t) (n : node) :
  graph_get g n = None ->
  calculate_optimal_route (S (S fuel)) g n n
  = if truthy n then Raise KeyError else Ok (PyList []).
Proof.
  intro Hg. unfold calculate_optimal_route.
  rewrite search_S. cbn [pqueue predecessors distances]. cbn zeta.
  rewrite node_eqb_refl, reconstruct_S.
  destruct (truthy n); [|reflexivity].
  now rewrite dict_get_init, Hg.
Qed.

(** C5: a start node that is not a key of the graph does not give the empty
    result: the search raises [KeyError], at [self.graph[current_node]] when
    the end node is another node and at [predecessors[current_node]] when it
    is the start node itself. *)
Theorem unknown_start_raises (fuel : nat) (g : graph_t)
    (start_node end_node : node) :
  graph_get g start_node = None ->
  truthy start_node = true \/ node_eqb start_node end_node = false ->
  calculate_optimal_route (S (S fuel)) g start_node end_node = Raise KeyError.
Proof.
  intros Hg Hc. destruct (node_eqb start_node end_node) eqn:E.
  - apply node_eqb_eq in E. subst end_node.
    destruct Hc as [T | N]; [|discriminate].
    rewrite route_unknown_start_to_itself by exact Hg. now rewrite T.
  - now apply route_from_unknown_start.
Qed.

Lemma unknown_start_raises_witness :
  calculate_optimal_route 10 sample_graph None (Some "A") = Raise KeyError.
Proof.
  apply (unknown_start_raises 8 sample_graph None (Some "A"));
    [reflexivity | right; reflexivity].
Defined.

(** ** The route planner to an unknown end node *)

(** The nodes pushed by the relaxation loop are neighbours. *)
Lemma relax_queue (cd : Z) (cur : node) (nbrs : list (string * Z)) :
  forall st st', relax cd cur nbrs st = Ok st' ->
    forall x, In x (pqueue st') ->
      In x (pqueue st) \/ exists n w, In (n, w) nbrs /\ snd x = Some n.
Proof.
  induction nbrs as [|[n w] nbrs IH]; intros st st' E x Hx; cbn [relax] in E.
  - injection E as <-. now left.
  - destruct (dict_get (distances st) (Some n)) as [old|]; [|discriminate].
    destruct (ext_ltb Z.ltb (Fin (cd + w)) old).
    + destruct (IH _ _ E x Hx) as [Hin | (n' & w' & Hin & Hs)].
      * cbn [pqueue] in Hin. apply in_heappush in Hin.
        destruct Hin as [-> | Hin]; [|now left].
        right. exists n, w. split; [now left | reflexivity].
      * right. exists n', w'. split; [now right | exact Hs].
    + destruct (IH _ _ E x Hx) as [Hin | (n' & w' & Hin & Hs)]; [now left|].
      right. exists n', w'. split; [now right | exact Hs].
Qed.

(** The search does not depend on an end node that is never popped. *)
Lemma search_unknown_end (g : graph_t) (e e' : node) :
  neighbours_are_keys g = true ->
  graph_get g e = None -> graph_get g e' = None ->
  forall fuel st,
    (forall x, In x (pqueue st) -> exists k nbrs, snd x = Some k /\ In (k, nbrs) g) ->
    search fuel g e st = search fuel g e' st.
Proof.
  intros C Ge Ge'. induction fuel as [|fuel IH]; intros st Hq;
    destruct (pqueue st) as [|[cd cur] rest] eqn:Q; cbn [search]; rewrite Q;
    try reflexivity.
  destruct (Hq (cd, cur)) as (k & nbrs & Hk & Hin);
    [now left|]. cbn in Hk. subst cur.
  rewrite (graph_get_None_key g e k nbrs Ge Hin).
  rewrite (graph_get_None_key g e' k nbrs Ge' Hin).
  cbn [distances predecessors pqueue].
  assert (Hrest : forall x, In x rest ->
            exists k nbrs, snd x = Some k /\ In (k, nbrs) g)
    by (intros x Hx; apply Hq; now right).
  destruct (dict_get (distances st) (Some k)) as [best|]; [|reflexivity].
  destruct (ext_ltb Z.ltb best (Fin cd)); [now apply IH|].
  destruct (graph_get g (Some k)) as [nb|] eqn:G; [|reflexivity].
  destruct (relax cd (Some k) nb _) as [st'| |] eqn:R; cbn [bind];
    try reflexivity.
  apply IH. intros x Hx.
  destruct (relax_queue _ _ _ _ _ R x Hx) as [Hin' | (n & w & Hn & Hs)].
  - now apply Hrest.
  - apply graph_get_Some in G. destruct G as (k' & Ek & Hk').
    destruct (neighbours_are_keys_spec g k' n nb w C Hk' Hn) as (nbrs' & Hn').
    eauto.
Qed.

(** On the class graph, a known start and an unknown end give [None]. *)
Lemma unknown_end_no_route (start_node : string) (end_node : node) :
  In start_node ["A"; "B"; "C"; "D"] ->
  graph_get sample_graph end_node = None ->
  calculate_optimal_route 10 sample_graph (Some start_node) end_node = Ok PyNone.
Proof.
  intros Hs Ge. unfold calculate_optimal_route.
  rewrite (search_unknown_end sample_graph end_node None eq_refl Ge eq_refl).
  - cbn in Hs. destruct Hs as [<- | [<- | [<- | [<- | []]]]];
      vm_compute; reflexivity.
  - intros x [<- | []]. cbn [snd].
    cbn in Hs. destruct Hs as [<- | [<- | [<- | [<- | []]]]];
      eexists _, _; (split; [reflexivity|]); cbn; eauto 6.
Qed.

(** ** Termination of the route planner *)

Lemma dict_set_from_Inf (d : dict (ext Z)) (k : node) (v : Z) :
  dict_get d k = Some Inf ->
  (inf_count (dict_set d k (Fin v)) < inf_count d)%nat.
Proof.
  unfold inf_count.
  induction d as [|[k0 v0] d IH]; cbn [dict_get dict_set]; [discriminate|].
  destruct (node_eqb k0 k).
  - intro E. injection E as ->. cbn. lia.
  - intro E. specialize (IH E). cbn [filter snd]. destruct v0; cbn; lia.
Qed.

Lemma dict_set_from_Fin (d : dict (ext Z)) (k : node) (o v : Z) :
  dict_get d k = Some (Fin o) -> 0 <= v < o ->
  inf_count (dict_set d k (Fin v)) = inf_count d
  /\ (fin_sum (dict_set d k (Fin v)) < fin_sum d)%nat.
Proof.
  unfold inf_count.
  induction d as [|[k0 v0] d IH]; cbn [dict_get dict_set]; [discriminate|].
  destruct (node_eqb k0 k).
  - intros E Hv. injection E as ->. cbn. split; [reflexivity | lia].
  - intros E Hv. destruct (IH E Hv) as [I1 I2].
    cbn [filter snd fin_sum]. destruct v0; cbn; split; lia.
Qed.

(** One relaxation that improves a distance keeps the invariant and lowers
    the variant. *)
Lemma relax_step_inv (g : graph_t) (cd : Z) (cur : node) (n : string) (w : Z)
    (st : search_state) (old : ext Z) :
  search_inv g st ->
  is_key g cur -> is_key g (Some n) -> 0 < w ->
  dict_get (distances st) cur = Some (Fin cd) ->
  dict_get (distances st) (Some n) = Some old ->
  ext_ltb Z.ltb (Fin (cd + w)) old = true ->
  let st1 := mkSearch (dict_set (distances st) (Some n) (Fin (cd + w)))
                      (dict_set (predecessors st) (Some n) cur)
                      (heappush (pqueue st) (cd + w, Some n)) in
  search_inv g st1
  /\ dict_get (distances st1) cur = Some (Fin cd)
  /\ ((inf_count (distances st1) < inf_count (distances st))%nat
      \/ (inf_count (distances st1) = inf_count (distances st)
          /\ (fin_sum (distances st1) < fin_sum (distances st))%nat)).
Proof.
  intros [Iq Ik In Ip] Kc Kn Hw Dc Dn Lt st1.
  assert (Hcd : 0 <= cd) by (eapply In; eauto).
  assert (Nc : node_eqb (Some n) cur = false).
  { destruct (node_eqb (Some n) cur) eqn:E; [|reflexivity].
    apply node_eqb_eq in E. subst cur. rewrite Dc in Dn. injection Dn as <-.
    cbn in Lt. apply Z.ltb_lt in Lt. lia. }
  assert (Hold : forall o, old = Fin o -> cd + w < o).
  { intros o ->. cbn in Lt. now apply Z.ltb_lt. }
  split; [|split].
  - constructor; cbn [distances predecessors pqueue st1].
    + intros d m Hin. apply in_heappush in Hin. destruct Hin as [E | Hin].
      * injection E as -> ->. split; [exact Kn|].
        exists (cd + w). rewrite dict_get_set_same. split; [reflexivity | lia].
      * destruct (Iq d m Hin) as (Km & d' & Dm & Le). split; [exact Km|].
        rewrite dict_get_set. destruct (node_eqb (Some n) m) eqn:E.
        -- apply node_eqb_eq in E. subst m. rewrite Dn in Dm. injection Dm as ->.
           exists (cd + w). split; [reflexivity|].
           specialize (Hold d' eq_refl). lia.
        -- exists d'. split; [exact Dm | exact Le].
    + intros m Km. destruct (Ik m Km) as [K1 K2].
      rewrite !dict_get_set. destruct (node_eqb (Some n) m); split;
        auto; discriminate.
    + intros m v. rewrite dict_get_set. destruct (node_eqb (Some n) m).
      * intro E. injection E as <-. lia.
      * apply In.
    + intros m u. rewrite !dict_get_set.
      destruct (node_eqb (Some n) m) eqn:E.
      * intro P. injection P as ->. split; [exact Kc|].
        exists (cd + w), cd. rewrite Nc.
        split; [reflexivity|]. split; [exact Dc | lia].
      * intro P. destruct (Ip m u P) as (Ku & dn & du & Dm & Du & Lt').
        split; [exact Ku|].
        destruct (node_eqb (Some n) (Some u)) eqn:Eu.
        -- apply node_eqb_eq in Eu. injection Eu as ->.
           rewrite Dn in Du. injection Du as ->.
           exists dn, (cd + w). specialize (Hold du eq_refl).
           split; [exact Dm|]. split; [reflexivity | lia].
        -- exists dn, du. auto.
  - cbn [distances st1]. rewrite dict_get_set, Nc. exact Dc.
  - cbn [distances st1]. destruct old as [o|].
    + right. apply dict_set_from_Fin with (o := o); [exact Dn|].
      specialize (Hold o eq_refl). lia.
    + left. now apply dict_set_from_Inf.
Qed.

(** The relaxation loop completes, keeps the invariant, and either changes
    nothing or lowers the variant. *)
Lemma relax_inv (g : graph_t) (cd : Z) (cur : node) (nbrs : list (string * Z)) :
  (forall n w, In (n, w) nbrs -> is_key g (Some n) /\ 0 < w) ->
  is_key g cur ->
  forall st,
    search_inv g st ->
    dict_get (distances st) cur = Some (Fin cd) ->
    exists st',
      relax cd cur nbrs st = Ok st'
      /\ search_inv g st'
      /\ dict_get (distances st') cur = Some (Fin cd)
      /\ (st' = st
          \/ (inf_count (distances st') < inf_count (distances st))%nat
          \/ (inf_count (distances st') = inf_count (distances st)
              /\ (fin_sum (distances st') < fin_sum (distances st))%nat)).
Proof.
  intros Hn Kc. induction nbrs as [|[n w] nbrs IH]; intros st I Dc.
  - exists st. cbn. auto.
  - destruct (Hn n w (or_introl eq_refl)) as [Kn Hw].
    assert (Hn' : forall n' w', In (n', w') nbrs -> is_key g (Some n') /\ 0 < w')
      by (intros; apply Hn; now right).
    specialize (IH Hn'). cbn [relax].
    destruct (dict_get (distances st) (Some n)) as [old|] eqn:Dn.
    2:{ exfalso. now apply (proj1 (inv_keys g st I (Some n) Kn)). }
    destruct (ext_ltb Z.ltb (Fin (cd + w)) old) eqn:Lt.
    + destruct (relax_step_inv g cd cur n w st old I Kc Kn Hw Dc Dn Lt)
        as (I1 & Dc1 & M1).
      destruct (IH _ I1 Dc1) as (st' & R & I' & Dc' & M').
      exists st'. split; [exact R|]. split; [exact I'|]. split; [exact Dc'|].
      right. destruct M' as [-> | M']; [exact M1|]. lia.
    + destruct (IH _ I Dc) as (st' & R & I' & Dc' & M'). eauto.
Qed.

(** The path reconstruction follows predecessors that are strictly nearer to
    the start, so it ends. *)
Lemma reconstruct_terminates (g : graph_t) (st : search_state) :
  search_inv g st ->
  forall (m : nat) (c : node) (dn : Z) (path : list node),
    is_key g c ->
    dict_get (distances st) c = Some (Fin dn) ->
    (Z.to_nat dn <= m)%nat ->
    exists fuel p, reconstruct fuel (predecessors st) c path = Ok (PyList p).
Proof.
  intros I. induction m as [|m IH]; intros c dn path Kc Dc Hm.
  - destruct (truthy c) eqn:T.
    + destruct (dict_get (predecessors st) c) as [[u|]|] eqn:P.
      * destruct (inv_pred g st I c u P) as (_ & dn' & du & Dc' & Du & Lt).
        rewrite Dc in Dc'. injection Dc' as <-.
        pose proof (inv_nonneg g st I _ _ Du). lia.
      * exists 1%nat. eexists. cbn. rewrite T, P. reflexivity.
      * exfalso. now apply (proj2 (inv_keys g st I c Kc)).
    + exists 0%nat. eexists. cbn. rewrite T. reflexivity.
  - destruct (truthy c) eqn:T.
    + destruct (dict_get (predecessors st) c) as [[u|]|] eqn:P.
      * destruct (inv_pred g st I c u P) as (Ku & dn' & du & Dc' & Du & Lt).
        rewrite Dc in Dc'. injection Dc' as <-.
        pose proof (inv_nonneg g st I _ _ Du).
        destruct (IH (Some u) du (path ++ [c]) Ku Du) as (fuel & p & R); [lia|].
        exists (S fuel), p. cbn [reconstruct]. now rewrite T, P.
      * exists 1%nat. eexists. cbn. rewrite T, P. reflexivity.
      * exfalso. now apply (proj2 (inv_keys g st I c Kc)).
    + exists 0%nat. eexists. cbn. rewrite T. reflexivity.
Qed.

Lemma search_inv_pop (g : graph_t) (st : search_state) (x : entry)
    (rest : list entry) :
  pqueue st = x :: rest ->
  search_inv g st ->
  search_inv g (mkSearch (distances st) (predecessors st) rest).
Proof.
  intros Q [Iq Ik In Ip]. constructor; cbn [distances predecessors pqueue]; auto.
  intros d n Hin. apply Iq. rewrite Q. now right.
Qed.

(** The search loop ends on every state that satisfies the invariant, by
    induction on the variant and then on the length of the queue. *)
Lemma search_terminates (g : graph_t) (e : node) :
  neighbours_are_keys g = true ->
  weights_positive g = true ->
  forall (a b c : nat) (st : search_state),
    inf_count (distances st) = a ->
    fin_sum (distances st) = b ->
    List.length (pqueue st) = c ->
    search_inv g st ->
    exists fuel r, search fuel g e st = Ok r.
Proof.
  intros C W.
  induction a as [a IHa] using lt_wf_ind.
  induction b as [b IHb] using lt_wf_ind.
  induction c as [c IHc] using lt_wf_ind.
  intros st Ea Eb Ec I.
  destruct (pqueue st) as [|[cd cur] rest] eqn:Q.
  { exists 0%nat, PyNone. cbn. now rewrite Q. }
  pose proof (search_inv_pop g st _ _ Q I) as I0.
  destruct (inv_queue g st I cd cur) as (Kc & d' & Dc & Le);
    [rewrite Q; now left|].
  destruct (node_eqb cur e) eqn:Ee.
  { destruct (reconstruct_terminates g _ I0 _ cur d' [] Kc Dc (Nat.le_refl _))
      as (fuel & p & R).
    exists (S fuel), (PyList p). cbn [search]. rewrite Q, Ee. exact R. }
  destruct (d' <? cd) eqn:Stale.
  { destruct (IHc (List.length rest)) with (st := mkSearch (distances st)
                                             (predecessors st) rest)
      as (fuel & r & Sr); auto.
    { subst c. cbn. lia. }
    exists (S fuel), r. cbn [search]. rewrite Q, Ee.
    cbn [distances predecessors pqueue]. rewrite Dc. cbn [ext_ltb].
    now rewrite Stale. }
  apply Z.ltb_ge in Stale. assert (d' = cd) by lia. subst d'.
  destruct (graph_get g cur) as [nbrs|] eqn:G; [|now elim Kc].
  assert (Hn : forall n w, In (n, w) nbrs -> is_key g (Some n) /\ 0 < w).
  { intros n w Hin. destruct (graph_get_Some g cur nbrs G) as (k & -> & Hk).
    split.
    - destruct (neighbours_are_keys_spec g k n nbrs w C Hk Hin) as (nb' & Hn').
      eapply is_key_in; eauto.
    - eapply weights_positive_spec; eauto. }
  destruct (relax_inv g cd cur nbrs Hn Kc _ I0 Dc) as (st' & R & I' & _ & M).
  assert (Sr : exists fuel r, search fuel g e st' = Ok r).
  { cbn [distances] in M. destruct M as [-> | [M | [M1 M2]]].
    - apply (IHc (List.length rest)); auto. subst c. cbn. lia.
    - apply (IHa (inf_count (distances st'))) with
        (b := fin_sum (distances st')) (c := List.length (pqueue st')); auto.
      lia.
    - apply (IHb (fin_sum (distances st'))) with
        (c := List.length (pqueue st')); auto; lia. }
  destruct Sr as (fuel & r & Sr).
  exists (S fuel), r. cbn [search]. rewrite Q, Ee.
  cbn [distances predecessors pqueue]. rewrite Dc. cbn [ext_ltb].
  replace (cd <? cd) with false by (symmetry; apply Z.ltb_irrefl).
  rewrite G, R. exact Sr.
Qed.

(** On a graph whose neighbours are keys and whose weights are positive, the
    route computation from a key of the graph returns: it neither raises nor
    loops. *)
Theorem route_from_key_returns (g : graph_t) (start_node end_node : node) :
  neighbours_are_keys g = true ->
  weights_positive g = true ->
  is_key g start_node ->
  exists fuel route,
    calculate_optimal_route fuel g start_node end_node = Ok route.
Proof.
  intros C W Ks. unfold calculate_optimal_route.
  eapply search_terminates; eauto.
  constructor; cbn [distances predecessors pqueue].
  - intros d n [E | []]. injection E as <- <-. split; [exact Ks|].
    exists 0. rewrite dict_get_set_same. split; [reflexivity | lia].
  - intros n Kn. rewrite dict_get_set, !dict_get_init.
    unfold is_key in Kn. destruct (graph_get g n); [|contradiction].
    destruct (node_eqb start_node n); split; discriminate.
  - intros n v. rewrite dict_get_set, dict_get_init.
    destruct (node_eqb start_node n).
    + intro E. injection E as <-. lia.
    + destruct (graph_get g n); discriminate.
  - intros n u. rewrite dict_get_init. destruct (graph_get g n); discriminate.
Qed.

Lemma route_from_key_returns_witness :
  exists fuel route,
    calculate_optimal_route fuel sample_graph (Some "A") (Some "D") = Ok route.
Proof.
  apply (route_from_key_returns sample_graph (Some "A") (Some "D"));
    [reflexivity | reflexivity | discriminate].
Defined.

(** ** More fuel does not change a result *)

Lemma reconstruct_more_fuel (preds : dict node) (fuel : nat) :
  forall c path,
    reconstruct fuel preds c path <> OutOfFuel ->
    reconstruct (S fuel) preds c path = reconstruct fuel preds c path.
Proof.
  induction fuel as [|fuel IH]; intros c path N.
  - cbn in *. destruct (truthy c); [contradiction | reflexivity].
  - rewrite (reconstruct_S preds (S fuel)).
    rewrite (reconstruct_S preds fuel) in N |- *.
    destruct (truthy c); [|reflexivity].
    destruct (dict_get preds c) as [p|]; [|reflexivity].
    now apply IH.
Qed.

Lemma search_more_fuel (g : graph_t) (e : node) (fuel : nat) :
  forall st,
    search fuel g e st <> OutOfFuel ->
    search (S fuel) g e st = search fuel g e st.
Proof.
  induction fuel as [|fuel IH]; intros st N.
  - cbn in *. destruct (pqueue st) as [|[cd cur] rest];
      [reflexivity | contradiction].
  - rewrite (search_S (S fuel)). rewrite (search_S fuel) in N |- *.
    destruct (pqueue st) as [|[cd cur] rest]; [reflexivity|].
    cbn zeta in *. cbn [distances predecessors pqueue] in *.
    destruct (node_eqb cur e).
    + now apply reconstruct_more_fuel.
    + destruct (dict_get (distances st) cur) as [best|]; [|reflexivity].
      destruct (ext_ltb Z.ltb best (Fin cd)).
      * now apply IH.
      * destruct (graph_get g cur) as [nbrs|]; [|reflexivity].
        destruct (relax cd cur nbrs _) as [st'| |]; cbn [bind] in *;
          try reflexivity.
        now apply IH.
Qed.

Lemma route_more_fuel (g : graph_t) (s e : node) (fuel fuel' : nat)
    (route : pyroute) :
  (fuel <= fuel')%nat ->
  calculate_optimal_route fuel g s e = Ok route ->
  calculate_optimal_route fuel' g s e = Ok route.
Proof.
  intros L E. induction L as [|m L IH]; [exact E|].
  unfold calculate_optimal_route in *. rewrite search_more_fuel; [exact IH|].
  rewrite IH. discriminate.
Qed.

(** ** The route planner on the class graph *)

(** C3: on the sample graph the route from A to D is [A, B, C, D], with ten
    units of fuel or more; its total weight is 4, and the alternatives A,C,D
    and A,B,D weigh 5 and 6. *)
Theorem sample_route_A_D (k : nat) :
  calculate_optimal_route (10 + k) sample_graph (Some "A") (Some "D")
    = Ok (PyList [Some "A"; Some "B"; Some "C"; Some "D"])
  /\ path_weight sample_graph [Some "A"; Some "B"; Some "C"; Some "D"] = Some 4
  /\ path_weight sample_graph [Some "A"; Some "C"; Some "D"] = Some 5
  /\ path_weight sample_graph [Some "A"; Some "B"; Some "D"] = Some 6.
Proof.
  split; [|repeat split].
  apply (route_more_fuel sample_graph (Some "A") (Some "D") 10);
    [lia | vm_compute; reflexivity].
Qed.

(** ** assign_ride *)

(** C6: on an available driver [assign_ride] clears the availability flag and
    attaches the request and the route, touching no other driver and not the
    queue; on an unavailable driver it leaves every driver as it is and
    appends the request to the queue. It never raises. *)
Theorem assign_ride_commits_or_requeues (s : RideSharingSystem)
    (driver passenger : ref) (route : pyroute) (distance : ext Q) :
  let s' := assign_ride s driver passenger route distance in
  if is_available (driver_obj s driver) then
    is_available (driver_obj s' driver) = false
    /\ current_passenger (driver_obj s' driver) = Some passenger
    /\ current_route (driver_obj s' driver) = Some route
    /\ name (driver_obj s' driver) = name (driver_obj s driver)
    /\ location (driver_obj s' driver) = location (driver_obj s driver)
    /\ (forall other, other <> driver -> driver_obj s' other = driver_obj s other)
    /\ passenger_request_queue s' = passenger_request_queue s
  else
    driver_obj s' = driver_obj s
    /\ passenger_request_queue s' = passenger_request_queue s ++ [passenger].
Proof.
  unfold assign_ride. destruct (is_available (driver_obj s driver)) eqn:E; simpl.
  - unfold store_set. rewrite Nat.eqb_refl. simpl. repeat split.
    intros other Hne. apply Nat.eqb_neq in Hne. now rewrite Hne.
  - split; reflexivity.
Qed.

(** ** The loop over the candidates *)

Section Scan.
Context `{Floats}.
Variables (fuel : nat) (r : ref) (p : node) (s0 : RideSharingSystem).

(** What one pass of the loop body does, by cases on the route. *)
Lemma try_driver_inv (q : list ref) (bd : option ref) (bdist beta : ext Q)
    (rt : option pyroute) (d : ref) (l' : locals) :
  try_driver fuel r p (mkLocals (with_queue s0 q) bd bdist beta rt) d = Ok l' ->
  exists route,
    calculate_optimal_route fuel (graph s0) (driver_node s0 d) p = Ok route
    /\ ((route_is_empty route = true
         /\ l' = mkLocals (with_queue s0 (q ++ [r])) bd bdist beta (Some route))
        \/ (route_is_empty route = false
            /\ exists x, distance_to_pickup s0 r d = Some x
            /\ improves (calculate_estimated_arrival_time x) x beta bdist = true
            /\ l' = mkLocals (with_queue s0 q) (Some d) (Fin x)
                      (Fin (calculate_estimated_arrival_time x)) (Some route))
        \/ (route_is_empty route = false
            /\ exists x, distance_to_pickup s0 r d = Some x
            /\ improves (calculate_estimated_arrival_time x) x beta bdist = false
            /\ l' = mkLocals (with_queue s0 q) bd bdist beta (Some route))).
Proof.
  unfold try_driver. cbn [sys best_driver best_distance
    best_estimated_arrival_time].
  change (graph (with_queue s0 q)) with (graph s0).
  change (get_coordinates (with_queue s0 q)
            (location (driver_obj (with_queue s0 q) d)))
    with (driver_node s0 d).
  destruct (calculate_optimal_route fuel (graph s0) (driver_node s0 d) p)
    as [route| |]; cbn [bind]; try discriminate.
  intro E. exists route. split; [reflexivity|].
  destruct (route_is_empty route).
  - left. split; [reflexivity|]. now injection E as <-.
  - right. unfold calculate_distance in E.
    change (haversine (location (driver_obj (with_queue s0 q) d))
              (pickup_address (request_obj (with_queue s0 q) r)))
      with (distance_to_pickup s0 r d) in E.
    destruct (distance_to_pickup s0 r d) as [x|]; cbn [bind] in E;
      [|discriminate].
    destruct (improves (calculate_estimated_arrival_time x) x beta bdist)
      eqn:I.
    + left. split; [reflexivity|]. exists x. repeat split; auto.
      now injection E as <-.
    + right. split; [reflexivity|]. exists x. repeat split; auto.
      now injection E as <-.
Qed.

Lemma routable_of_route (d : ref) (route : pyroute) :
  calculate_optimal_route fuel (graph s0) (driver_node s0 d) p = Ok route ->
  routable fuel s0 p d = negb (route_is_empty route)
  /\ unroutable fuel s0 p d = route_is_empty route.
Proof. intro E. unfold routable, unroutable. now rewrite E. Qed.

(** The system after the loop: only the queue has changed, by one copy of
    the request per candidate without a route. *)
Lemma for_drivers_sys (ds : list ref) :
  forall q bd bdist beta rt l',
    for_drivers fuel r p ds (mkLocals (with_queue s0 q) bd bdist beta rt) = Ok l' ->
    sys l' = with_queue s0
               (q ++ repeat r (List.length (filter (unroutable fuel s0 p) ds))).
Proof.
  induction ds as [|d ds IH]; intros q bd bdist beta rt l' E.
  - cbn in E. injection E as <-. cbn. now rewrite app_nil_r.
  - cbn [for_drivers] in E.
    destruct (try_driver fuel r p _ d) as [l1| |] eqn:T; cbn [bind] in E;
      try discriminate.
    apply try_driver_inv in T. destruct T as (route & R & T).
    apply routable_of_route in R. destruct R as [_ U].
    cbn [filter]. rewrite U.
    destruct T as [(Em & ->) | [(Em & ? & _ & _ & ->) | (Em & ? & _ & _ & ->)]];
      rewrite Em; apply IH in E; rewrite E; [|reflexivity..].
    cbn [List.length repeat]. now rewrite <- app_assoc.
Qed.

(** A cycle that completes has computed a route for every candidate. *)
Lemma for_drivers_routes (ds : list ref) :
  forall q bd bdist beta rt l',
    for_drivers fuel r p ds (mkLocals (with_queue s0 q) bd bdist beta rt) = Ok l' ->
    forall d, In d ds ->
      routable fuel s0 p d = negb (unroutable fuel s0 p d).
Proof.
  induction ds as [|d ds IH]; intros q bd bdist beta rt l' E c Hc.
  - destruct Hc.
  - cbn [for_drivers] in E.
    destruct (try_driver fuel r p _ d) as [l1| |] eqn:T; cbn [bind] in E;
      try discriminate.
    apply try_driver_inv in T. destruct T as (route & R & T).
    destruct Hc as [<- | Hc].
    + apply routable_of_route in R. destruct R as [-> ->]. reflexivity.
    + destruct T as [(_ & ->) | [(_ & ? & _ & _ & ->) | (_ & ? & _ & _ & ->)]];
        eapply IH; eauto.
Qed.

(** After a non-empty loop, [optimal_route] is the route computed for the
    last candidate. *)
Lemma for_drivers_last_route (ds : list ref) :
  forall q bd bdist beta rt l' d0,
    ds <> [] ->
    for_drivers fuel r p ds (mkLocals (with_queue s0 q) bd bdist beta rt) = Ok l' ->
    exists route,
      calculate_optimal_route fuel (graph s0) (driver_node s0 (last ds d0)) p
        = Ok route
      /\ optimal_route l' = Some route.
Proof.
  induction ds as [|d ds IH]; intros q bd bdist beta rt l' d0 Hne E;
    [contradiction|].
  cbn [for_drivers] in E.
  destruct (try_driver fuel r p _ d) as [l1| |] eqn:T; cbn [bind] in E;
    try discriminate.
  apply try_driver_inv in T. destruct T as (route & R & T).
  destruct ds as [|d' ds].
  - cbn in E. injection E as <-. exists route. split; [exact R|].
    destruct T as [(_ & ->) | [(_ & ? & _ & _ & ->) | (_ & ? & _ & _ & ->)]]; reflexivity.
  - change (last (d :: d' :: ds) d0) with (last (d' :: ds) d0).
    destruct T as [(_ & ->) | [(_ & ? & _ & _ & ->) | (_ & ? & _ & _ & ->)]];
      eapply IH; eauto; discriminate.
Qed.

Lemma at_least_as_good_refl (b : ref) (x : Q) :
  distance_to_pickup s0 r b = Some x -> at_least_as_good s0 r b b.
Proof.
  intro D. exists x, x. repeat split; auto.
  right. split; [reflexivity | apply Qle_refl].
Qed.

(** One pass of the loop body keeps the invariant. *)
Lemma try_driver_best (seen q : list ref) (bd : option ref)
    (bdist beta : ext Q) (rt : option pyroute) (d : ref) (l' : locals) :
  best_so_far fuel s0 r p seen bd bdist beta ->
  try_driver fuel r p (mkLocals (with_queue s0 q) bd bdist beta rt) d = Ok l' ->
  best_so_far fuel s0 r p (seen ++ [d]) (best_driver l') (best_distance l')
              (best_estimated_arrival_time l').
Proof.
  intros B T. apply try_driver_inv in T. destruct T as (route & R & T).
  apply routable_of_route in R. destruct R as [Rd _].
  destruct T as [(Em & ->) | [(Em & x & Dx & I & ->) | (Em & x & Dx & I & ->)]];
    rewrite Em in Rd; cbn [negb] in Rd;
    cbn [best_driver best_distance best_estimated_arrival_time].
  - (* no route: the best is kept and [d] is not routable *)
    destruct bd as [b|]; cbn [best_so_far] in *.
    + destruct B as (Hin & Hb & Hx & Hmin). repeat split; auto.
      * apply in_or_app. now left.
      * intros c Hc Rc. apply in_app_or in Hc. destruct Hc as [Hc | [<- | []]].
        -- now apply Hmin.
        -- congruence.
    + destruct B as (Hx & Ht & Hnone). repeat split; auto.
      intros c Hc. apply in_app_or in Hc. destruct Hc as [Hc | [<- | []]]; auto.
  - (* [d] becomes the best *)
    cbn [best_so_far]. split; [apply in_or_app; right; now left|].
    split; [exact Rd|]. split; [exists x; auto|].
    intros c Hc Rc. apply in_app_or in Hc. destruct Hc as [Hc | [<- | []]].
    + destruct bd as [b|]; cbn [best_so_far] in B.
      * destruct B as (_ & _ & (xb & Db & -> & ->) & Hmin).
        apply improves_true in I.
        destruct (Hmin c Hc Rc) as (xb' & y & Db' & Dy & M).
        rewrite Db in Db'. injection Db' as <-.
        exists x, y. repeat split; auto.
        destruct I as [I | [I1 I2]], M as [M | [M1 M2]].
        -- left. eapply Qlt_trans; eauto.
        -- left. now rewrite <- M1.
        -- left. now rewrite I1.
        -- right. split; [now rewrite I1|].
           apply Qlt_le_weak. eapply Qlt_le_trans; eauto.
      * destruct B as (_ & _ & Hnone). rewrite (Hnone c Hc) in Rc.
        discriminate.
    + now apply at_least_as_good_refl with x.
  - (* [d] has a route and the best is kept *)
    destruct bd as [b|]; cbn [best_so_far] in *.
    + destruct B as (Hin & Hb & (xb & Db & -> & ->) & Hmin).
      split; [apply in_or_app; now left|]. split; [exact Hb|].
      split; [exists xb; auto|].
      intros c Hc Rc. apply in_app_or in Hc. destruct Hc as [Hc | [<- | []]].
      * now apply Hmin.
      * apply improves_false in I. exists xb, x. repeat split; auto.
    + destruct B as (-> & -> & _). rewrite improves_Inf in I. discriminate.
Qed.

Lemma for_drivers_best (ds : list ref) :
  forall seen q bd bdist beta rt l',
    best_so_far fuel s0 r p seen bd bdist beta ->
    for_drivers fuel r p ds (mkLocals (with_queue s0 q) bd bdist beta rt) = Ok l' ->
    best_so_far fuel s0 r p (seen ++ ds) (best_driver l') (best_distance l')
                (best_estimated_arrival_time l').
Proof.
  induction ds as [|d ds IH]; intros seen q bd bdist beta rt l' B E.
  - cbn in E. injection E as <-. now rewrite app_nil_r.
  - cbn [for_drivers] in E.
    destruct (try_driver fuel r p _ d) as [l1| |] eqn:T; cbn [bind] in E;
      try discriminate.
    pose proof (try_driver_best _ _ _ _ _ _ _ _ B T) as B1.
    apply try_driver_inv in T. destruct T as (route & _ & T).
    replace (seen ++ d :: ds) with ((seen ++ [d]) ++ ds)
      by (now rewrite <- app_assoc).
    destruct T as [(_ & ->) | [(_ & ? & _ & _ & ->) | (_ & ? & _ & _ & ->)]];
      eapply IH; eauto.
Qed.

End Scan.

(** The loop body completes when the route computation returns and the
    distance is defined. *)
Lemma try_driver_total `{Floats} (fuel : nat) (r : ref) (p : node)
    (s0 : RideSharingSystem) (q : list ref) (bd : option ref)
    (bdist beta : ext Q) (rt : option pyroute) (d : ref) :
  is_ok (calculate_optimal_route fuel (graph s0) (driver_node s0 d) p) = true ->
  distance_to_pickup s0 r d <> None ->
  is_ok (try_driver fuel r p (mkLocals (with_queue s0 q) bd bdist beta rt) d)
  = true.
Proof.
  unfold try_driver. cbn [sys].
  change (graph (with_queue s0 q)) with (graph s0).
  change (get_coordinates (with_queue s0 q)
            (location (driver_obj (with_queue s0 q) d)))
    with (driver_node s0 d).
  destruct (calculate_optimal_route fuel (graph s0) (driver_node s0 d) p)
    as [route| |]; try discriminate.
  intros _ D. cbn [bind]. destruct (route_is_empty route); [reflexivity|].
  unfold calculate_distance.
  change (haversine (location (driver_obj (with_queue s0 q) d))
            (pickup_address (request_obj (with_queue s0 q) r)))
    with (distance_to_pickup s0 r d).
  destruct (distance_to_pickup s0 r d) as [x|]; [|contradiction].
  cbn [bind]. destruct (improves _ _ _ _); reflexivity.
Qed.

(** The loop completes when every route computation returns and every
    distance is defined. *)
Lemma for_drivers_total `{Floats} (fuel : nat) (r : ref) (p : node)
    (s0 : RideSharingSystem) (ds : list ref) :
  (forall d, In d ds ->
     is_ok (calculate_optimal_route fuel (graph s0) (driver_node s0 d) p) = true) ->
  (forall d, In d ds -> distance_to_pickup s0 r d <> None) ->
  forall q bd bdist beta rt,
    is_ok (for_drivers fuel r p ds (mkLocals (with_queue s0 q) bd bdist beta rt))
    = true.
Proof.
  induction ds as [|d ds IH]; intros Hall Hdist q bd bdist beta rt;
    [reflexivity|].
  cbn [for_drivers].
  pose proof (try_driver_total fuel r p s0 q bd bdist beta rt d
                (Hall d (or_introl eq_refl)) (Hdist d (or_introl eq_refl))) as T.
  destruct (try_driver fuel r p _ d) as [l1| |] eqn:E; try discriminate.
  cbn [bind]. apply try_driver_inv in E. destruct E as (route & _ & E).
  destruct E as [(_ & ->) | [(_ & ? & _ & _ & ->) | (_ & ? & _ & _ & ->)]];
    apply IH; intros; (apply Hall || apply Hdist); now right.
Qed.

(** ** One dispatch cycle *)

Lemma candidates_available (s : RideSharingSystem) (d : ref) :
  In d (candidates s) -> In d (drivers s) /\ is_available (driver_obj s d) = true.
Proof. unfold candidates. now rewrite filter_In. Qed.

Lemma available_candidate (s : RideSharingSystem) (d : ref) :
  In d (drivers s) -> is_available (driver_obj s d) = true -> In d (candidates s).
Proof. unfold candidates. now rewrite filter_In. Qed.

(** The queue has no part in [find_available_drivers]. *)
Lemma find_available_drivers_with_queue `{Floats} (s : RideSharingSystem)
    (q : list ref) (loc : coord) :
  find_available_drivers (with_queue s q) loc = find_available_drivers s loc.
Proof.
  unfold find_available_drivers. cbn [drivers with_queue].
  induction (drivers s) as [|d ds IH]; [reflexivity|].
  cbn [available_among]. now rewrite IH.
Qed.

(** [find_available_drivers] returns the candidates, when the distance of
    each of them is defined, and raises [ValueError] otherwise. *)
Lemma find_available_drivers_Ok `{Floats} (s : RideSharingSystem)
    (loc : coord) (l : list ref) :
  find_available_drivers s loc = Ok l ->
  l = candidates s
  /\ forall d, In d (candidates s) ->
       exists x, haversine (location (driver_obj s d)) loc = Some x.
Proof.
  intro E. apply available_among_Ok in E. destruct E as [-> Hd]. now split.
Qed.

Lemma find_available_drivers_returns `{Floats} (s : RideSharingSystem)
    (r : ref) :
  distances_defined s r ->
  find_available_drivers s (pickup_address (request_obj s r))
  = Ok (candidates s).
Proof.
  intro D. apply available_among_returns. intros d Hd Ha.
  apply D. now apply available_candidate.
Qed.

Lemma find_available_drivers_Raise `{Floats} (s : RideSharingSystem)
    (r : ref) (e : exn) :
  find_available_drivers s (pickup_address (request_obj s r)) = Raise e ->
  e = ValueError
  /\ exists d, In d (candidates s) /\ distance_to_pickup s r d = None.
Proof.
  intro E. apply available_among_Raise in E.
  destruct E as (-> & d & Hd & Ha & Dd). split; [reflexivity|].
  exists d. split; [now apply available_candidate | exact Dd].
Qed.

(** A cycle on an uncanceled request, step by step. *)
Lemma process_one_uncanceled `{Floats} (fuel : nat) (s : RideSharingSystem)
    (h : ref) (rest : list ref) :
  passenger_request_queue s = h :: rest ->
  is_canceled (request_obj s h) = false ->
  process_one fuel s
  = (available_drivers <-
       find_available_drivers s (pickup_address (request_obj s h)) ;;
     l <- for_drivers fuel h (pickup_node s h) available_drivers
            (mkLocals (with_queue s rest) None Inf Inf None) ;;
     match best_driver l with
     | Some driver =>
         match optimal_route l with
         | Some route =>
             Ok (assign_ride (sys l) driver h route (best_distance l))
         | None => Raise UnboundLocalError
         end
     | None => Ok (handle_unavailable_driver (sys l) h)
     end).
Proof.
  intros Hq Hc. unfold process_one. rewrite Hq.
  change (request_obj (with_queue s rest)) with (request_obj s).
  rewrite Hc, find_available_drivers_with_queue. reflexivity.
Qed.

(** A cycle on an uncanceled request that returns has computed the distance
    of every candidate. *)
Lemma process_one_distances `{Floats} (fuel : nat) (s : RideSharingSystem)
    (h : ref) (rest : list ref) (s' : RideSharingSystem) :
  passenger_request_queue s = h :: rest ->
  is_canceled (request_obj s h) = false ->
  process_one fuel s = Ok s' ->
  forall d, In d (candidates s) -> exists x, distance_to_pickup s h d = Some x.
Proof.
  intros Hq Hc E. rewrite (process_one_uncanceled fuel s h rest Hq Hc) in E.
  destruct (find_available_drivers s _) as [ds| |] eqn:Fd; try discriminate.
  apply find_available_drivers_Ok in Fd. now destruct Fd.
Qed.

Lemma process_one_canceled `{Floats} (fuel : nat) (s : RideSharingSystem)
    (h : ref) (rest : list ref) :
  passenger_request_queue s = h :: rest ->
  is_canceled (request_obj s h) = true ->
  process_one fuel s = Ok (with_queue s rest).
Proof.
  intros Hq Hc. unfold process_one. rewrite Hq.
  change (request_obj (with_queue s rest)) with (request_obj s).
  now rewrite Hc.
Qed.

(** C8: a request whose canceled flag is set when it is dequeued is dropped:
    the cycle ends normally, the queue is what followed the request, and no
    driver, request or registry entry changes. *)
Theorem canceled_request_is_dropped `{Floats} (fuel : nat)
    (s : RideSharingSystem) (r : ref) (rest : list ref) :
  passenger_request_queue s = r :: rest ->
  is_canceled (request_obj s r) = true ->
  exists s', process_one fuel s = Ok s'
    /\ passenger_request_queue s' = rest
    /\ driver_obj s' = driver_obj s
    /\ drivers s' = drivers s
    /\ request_obj s' = request_obj s.
Proof.
  intros Hq Hc. exists (with_queue s rest).
  unfold process_one. rewrite Hq. simpl. rewrite Hc. repeat split.
Qed.

Lemma canceled_request_is_dropped_witness :
  exists s', @process_one sample_floats 10 (cancel_request main_system 0%nat) = Ok s'
    /\ passenger_request_queue s' = []
    /\ driver_obj s' = driver_obj (cancel_request main_system 0%nat)
    /\ drivers s' = drivers (cancel_request main_system 0%nat)
    /\ request_obj s' = request_obj (cancel_request main_system 0%nat).
Proof.
  apply (@canceled_request_is_dropped sample_floats 10
           (cancel_request main_system 0%nat) 0%nat []); reflexivity.
Defined.

(** What a cycle on an uncanceled request ends in: the queue has lost its head
    and gained one copy of the request per candidate without a route; then
    either the best routable candidate is committed, with the route of the
    last candidate, or no candidate is routable and the request is appended
    once more. *)
Lemma process_one_inv `{Floats} (fuel : nat) (s : RideSharingSystem)
    (h : ref) (rest : list ref) (s' : RideSharingSystem) :
  passenger_request_queue s = h :: rest ->
  is_canceled (request_obj s h) = false ->
  process_one fuel s = Ok s' ->
  let p := pickup_node s h in
  let ds := candidates s in
  let q' := rest ++ repeat h (List.length (filter (unroutable fuel s p) ds)) in
  (forall d, In d ds -> routable fuel s p d = negb (unroutable fuel s p d))
  /\ ((exists b route,
         In b ds /\ routable fuel s p b = true
         /\ (forall c, In c ds -> routable fuel s p c = true ->
                       at_least_as_good s h b c)
         /\ calculate_optimal_route fuel (graph s) (driver_node s (last ds b)) p
            = Ok route
         /\ s' = with_driver (with_queue s q') b
                   (mkDriver (name (driver_obj s b)) (location (driver_obj s b))
                             false (Some h) (Some route)))
      \/ ((forall c, In c ds -> routable fuel s p c = false)
          /\ s' = with_queue s (q' ++ [h]))).
Proof.
  intros Hq Hc E p ds q'.
  rewrite (process_one_uncanceled fuel s h rest Hq Hc) in E.
  destruct (find_available_drivers s _) as [ds0| |] eqn:Fd; cbn [bind] in E;
    try discriminate.
  apply find_available_drivers_Ok in Fd. destruct Fd as [-> _].
  fold ds p in E.
  destruct (for_drivers fuel h p ds _) as [l| |] eqn:F; cbn [bind] in E;
    try discriminate.
  pose proof (for_drivers_sys fuel h p s ds _ _ _ _ _ _ F) as Hsys.
  pose proof (for_drivers_routes fuel h p s ds _ _ _ _ _ _ F) as Hroutes.
  assert (B0 : best_so_far fuel s h p [] None Inf Inf)
    by (cbn; repeat split; intros c []).
  pose proof (for_drivers_best fuel h p s ds _ _ _ _ _ _ _ B0 F) as B.
  cbn [app] in B. fold q' in Hsys. split; [exact Hroutes|].
  destruct (best_driver l) as [b|] eqn:Eb; cbn [best_so_far] in B.
  - left. destruct B as (Hin & Hb & _ & Hmin).
    assert (Hne : ds <> []) by (intro Z; rewrite Z in Hin; destruct Hin).
    destruct (for_drivers_last_route fuel h p s ds _ _ _ _ _ _ b Hne F)
      as (route & R & Ro).
    rewrite Ro in E. injection E as <-. exists b, route.
    repeat split; auto.
    unfold assign_ride. rewrite Hsys.
    change (driver_obj (with_queue s q') b) with (driver_obj s b).
    apply candidates_available in Hin. destruct Hin as [_ ->]. reflexivity.
  - right. destruct B as (_ & _ & Hnone). split; [exact Hnone|].
    injection E as <-. rewrite Hsys. reflexivity.
Qed.

(** A cycle leaves the requests, the configuration and the registry alone,
    moves no driver, and makes no driver available. *)
Lemma process_one_frame `{Floats} (fuel : nat) (s s' : RideSharingSystem) :
  process_one fuel s = Ok s' ->
  request_obj s' = request_obj s
  /\ graph s' = graph s
  /\ location_mapping s' = location_mapping s
  /\ drivers s' = drivers s
  /\ (forall d, location (driver_obj s' d) = location (driver_obj s d))
  /\ (forall d, is_available (driver_obj s' d) = true ->
                is_available (driver_obj s d) = true).
Proof.
  intro E. destruct (passenger_request_queue s) as [|h rest] eqn:Hq.
  - unfold process_one in E. rewrite Hq in E. injection E as <-.
    repeat split; auto.
  - destruct (is_canceled (request_obj s h)) eqn:Hc.
    + unfold process_one in E. rewrite Hq in E.
      change (request_obj (with_queue s rest)) with (request_obj s) in E.
      rewrite Hc in E. injection E as <-. repeat split; auto.
    + destruct (process_one_inv fuel s h rest s' Hq Hc E)
        as (_ & [(b & route & _ & _ & _ & _ & ->) | (_ & ->)]).
      * cbn. repeat split; auto; intro d; unfold store_set;
          destruct (Nat.eqb d b) eqn:Ed; auto.
        -- apply Nat.eqb_eq in Ed. now subst.
        -- cbn. discriminate.
      * repeat split; auto.
Qed.

(** A cycle completes when the distance of every candidate is defined and
    the route computation of every candidate returns. *)
Lemma process_one_total `{Floats} (fuel : nat) (s : RideSharingSystem)
    (h : ref) (rest : list ref) :
  passenger_request_queue s = h :: rest ->
  distances_defined s h ->
  (forall d, In d (candidates s) ->
     is_ok (calculate_optimal_route fuel (graph s) (driver_node s d)
              (pickup_node s h)) = true) ->
  exists s', process_one fuel s = Ok s'.
Proof.
  intros Hq Hdist Hall.
  destruct (is_canceled (request_obj s h)) eqn:Hc.
  { rewrite (process_one_canceled fuel s h rest Hq Hc). eauto. }
  rewrite (process_one_uncanceled fuel s h rest Hq Hc).
  rewrite (find_available_drivers_returns s h Hdist). cbn [bind].
  pose proof (for_drivers_total fuel h (pickup_node s h) s (candidates s)
                Hall Hdist rest None Inf Inf None) as T.
  destruct (for_drivers fuel h (pickup_node s h) (candidates s) _)
    as [l| |] eqn:F; try discriminate.
  cbn [bind]. destruct (best_driver l) as [b|] eqn:Eb; [|eauto].
  assert (B0 : best_so_far fuel s h (pickup_node s h) [] None Inf Inf)
    by (cbn; repeat split; intros c []).
  pose proof (for_drivers_best fuel h _ s _ _ _ _ _ _ _ _ B0 F) as B.
  rewrite Eb in B. cbn [best_so_far app] in B. destruct B as (Hin & _).
  assert (Hne : candidates s <> [])
    by (intro Z; rewrite Z in Hin; destruct Hin).
  destruct (for_drivers_last_route fuel h _ s _ _ _ _ _ _ _ b Hne F)
    as (route & _ & ->).
  eauto.
Qed.

(** One amount of fuel serves all the candidates of a cycle. *)
Lemma routes_from_keys_return (s : RideSharingSystem) (p : node)
    (ds : list ref) :
  neighbours_are_keys (graph s) = true ->
  weights_positive (graph s) = true ->
  (forall d, In d ds -> is_key (graph s) (driver_node s d)) ->
  exists fuel, forall d, In d ds ->
    is_ok (calculate_optimal_route fuel (graph s) (driver_node s d) p) = true.
Proof.
  intros C W. induction ds as [|d ds IH]; intro K.
  - exists 0%nat. intros d [].
  - destruct IH as (f1 & H1); [intros; apply K; now right|].
    destruct (route_from_key_returns (graph s) (driver_node s d) p C W
                (K d (or_introl eq_refl))) as (f2 & route & R).
    exists (Nat.max f1 f2). intros d' [<- | Hin].
    + rewrite (route_more_fuel _ _ _ f2 _ route (Nat.le_max_r f1 f2) R).
      reflexivity.
    + specialize (H1 d' Hin).
      destruct (calculate_optimal_route f1 (graph s) (driver_node s d') p)
        as [route'| |] eqn:R'; try discriminate.
      rewrite (route_more_fuel _ _ _ f1 _ route' (Nat.le_max_l f1 f2) R').
      reflexivity.
Qed.

(** On a graph whose neighbours are keys and whose weights are positive, a
    cycle returns when the distance of every candidate is defined and the
    coordinates of every candidate are mapped to a key of the graph. *)
Theorem cycle_returns_when_mapped `{Floats} (s : RideSharingSystem)
    (h : ref) (rest : list ref) :
  neighbours_are_keys (graph s) = true ->
  weights_positive (graph s) = true ->
  passenger_request_queue s = h :: rest ->
  distances_defined s h ->
  (forall d, In d (candidates s) -> is_key (graph s) (driver_node s d)) ->
  exists fuel s', process_one fuel s = Ok s'.
Proof.
  intros C W Hq D K.
  destruct (routes_from_keys_return s (pickup_node s h) (candidates s) C W K)
    as (fuel & Hall).
  exists fuel. now apply (process_one_total fuel s h rest).
Qed.

Lemma cycle_returns_when_mapped_witness :
  exists fuel s', @process_one sample_floats fuel main_system = Ok s'.
Proof.
  apply (@cycle_returns_when_mapped sample_floats main_system 0%nat []);
    try reflexivity;
    intros d Hd; vm_compute in Hd;
    destruct Hd as [<- | [<- | []]]; vm_compute; discriminate.
Defined.

(** The loop over a list of candidates in two parts. *)
Lemma for_drivers_app `{Floats} (fuel : nat) (r : ref) (p : node)
    (pre post : list ref) :
  forall l,
    for_drivers fuel r p (pre ++ post) l
    = (l1 <- for_drivers fuel r p pre l ;; for_drivers fuel r p post l1).
Proof.
  induction pre as [|d pre IH]; intro l; cbn [app for_drivers bind];
    [reflexivity|].
  destruct (try_driver fuel r p l d) as [l1| |]; cbn [bind]; auto.
Qed.

(** C9: an available driver whose coordinates are not in the mapping makes the
    cycle raise [KeyError] when the pickup is mapped and the route
    computations of the candidates before that driver return: the driver is
    not skipped, and the request, already taken off the queue, is neither
    assigned nor put back. *)
Theorem unmapped_driver_raises `{Floats} (fuel : nat)
    (s : RideSharingSystem) (r : ref) (rest : list ref)
    (pre : list ref) (d : ref) (post : list ref) (p : string) :
  passenger_request_queue s = r :: rest ->
  is_canceled (request_obj s r) = false ->
  find_available_drivers s (pickup_address (request_obj s r))
  = Ok (pre ++ d :: post) ->
  (forall c, In c pre ->
     is_ok (calculate_optimal_route (S fuel) (graph s) (driver_node s c)
              (Some p)) = true) ->
  driver_node s d = None ->
  pickup_node s r = Some p ->
  process_one (S fuel) s = Raise KeyError.
Proof.
  intros Hq Hc Hds Hpre Hd Hp.
  rewrite (process_one_uncanceled (S fuel) s r rest Hq Hc), Hds. cbn [bind].
  apply find_available_drivers_Ok in Hds. destruct Hds as [Hds Hdist].
  rewrite Hp, for_drivers_app.
  assert (Dpre : forall c, In c pre -> distance_to_pickup s r c <> None).
  { intros c Hin. destruct (Hdist c) as (x & Dx).
    - rewrite <- Hds. apply in_or_app. now left.
    - unfold distance_to_pickup. now rewrite Dx. }
  pose proof (for_drivers_total (S fuel) r (Some p) s pre Hpre Dpre rest
                None Inf Inf None) as T.
  destruct (for_drivers (S fuel) r (Some p) pre _) as [l1| |] eqn:F;
    try discriminate.
  apply for_drivers_sys in F. destruct l1 as [s1 bd bdist beta rt].
  cbn [sys] in F. subst s1. cbn [bind for_drivers]. unfold try_driver.
  cbn [sys].
  change (graph (with_queue s _)) with (graph s).
  change (get_coordinates (with_queue s _)
            (location (driver_obj (with_queue s _) d)))
    with (driver_node s d).
  rewrite Hd, (route_from_unknown_start fuel (graph s) None (Some p));
    [reflexivity | apply graph_get_None | reflexivity].
Qed.

Lemma unmapped_driver_raises_witness :
  @process_one sample_floats 10 stranded_system = Raise KeyError.
Proof.
  apply (@unmapped_driver_raises sample_floats 9 stranded_system
           0%nat [] [] 0%nat [] "A"); try reflexivity.
  intros c [].
Defined.

(** C1: with Alice registered before Bob, the cycle commits Alice, the nearer
    driver, and attaches the route computed for Bob, the last candidate
    examined, not the route from Alice's node. *)
Theorem route_of_last_candidate_is_attached :
  driver_after (@process_one sample_floats 10 swapped_system) 0%nat
    = Ok (mkDriver "Alice" london false (Some 0%nat)
                   (Some (PyList [Some "B"; Some "A"])))
  /\ calculate_optimal_route 10 sample_graph
       (driver_node swapped_system 0%nat) (pickup_node swapped_system 0%nat)
     = Ok (PyList [Some "C"; Some "B"; Some "A"])
  /\ calculate_optimal_route 10 sample_graph
       (driver_node swapped_system 1%nat) (pickup_node swapped_system 0%nat)
     = Ok (PyList [Some "B"; Some "A"]).
Proof. repeat split; vm_compute; reflexivity. Qed.

(** C7: with Bob, who has the route B, A to the pickup, registered before Eve,
    whose coordinates are not mapped, the candidates of the cycle are Bob and
    Eve and Bob is the one routable candidate; the cycle does not select
    him: it raises [KeyError] when it comes to Eve, and commits no driver. *)
Theorem routable_candidate_is_not_committed :
  @find_available_drivers sample_floats mixed_system
     (pickup_address (request_obj mixed_system 0%nat))
  = Ok [0%nat; 1%nat]
  /\ calculate_optimal_route 10 (graph mixed_system)
       (driver_node mixed_system 0%nat) (pickup_node mixed_system 0%nat)
     = Ok (PyList [Some "B"; Some "A"])
  /\ routable 10 mixed_system (pickup_node mixed_system 0%nat) 0%nat = true
  /\ driver_node mixed_system 1%nat = None
  /\ @process_one sample_floats 10 mixed_system = Raise KeyError.
Proof. repeat split; vm_compute; reflexivity. Qed.

(** C10: a cycle on an uncanceled request appends the request once per
    candidate whose route is empty, before it either commits the request to a
    routable candidate or appends it once more. On the split graph the cycle
    commits John's request to Bob and leaves two copies of it in the queue;
    on the class graph a request with an unmapped pickup comes back three
    times. *)
Theorem requeued_once_per_unroutable_candidate :
  (forall (H : Floats) (fuel : nat) (s s' : RideSharingSystem)
          (r : ref) (rest : list ref),
      passenger_request_queue s = r :: rest ->
      is_canceled (request_obj s r) = false ->
      process_one fuel s = Ok s' ->
      let k := List.length (filter (unroutable fuel s (pickup_node s r))
                                   (candidates s)) in
      (exists b, In b (candidates s) /\ holds s' r b = true
                 /\ passenger_request_queue s' = rest ++ repeat r k)
      \/ ((forall c, In c (candidates s) ->
                     unroutable fuel s (pickup_node s r) c = true)
          /\ driver_obj s' = driver_obj s
          /\ passenger_request_queue s' = rest ++ repeat r k ++ [r]))
  /\ (queue_after (@process_one sample_floats 10 split_system)
        = Ok [0%nat; 0%nat]
      /\ driver_after (@process_one sample_floats 10 split_system) 0%nat
        = Ok (mkDriver "Bob" new_york false (Some 0%nat) (Some PyNone))
      /\ filter (unroutable 10 split_system (pickup_node split_system 0%nat))
                (candidates split_system)
        = [1%nat; 2%nat])
  /\ queue_after (@process_one sample_floats 10 unmapped_pickup_system)
     = Ok [0%nat; 0%nat; 0%nat].
Proof.
  split.
  - intros H fuel s s' r rest Hq Hc E k.
    destruct (process_one_inv fuel s r rest s' Hq Hc E)
      as (Hroutes & [(b & route & Hin & _ & _ & _ & ->) | (Hnone & ->)]).
    + left. exists b. repeat split; auto.
      unfold holds. cbn. unfold store_set. rewrite Nat.eqb_refl. cbn.
      apply Nat.eqb_refl.
    + right. repeat split.
      * intros c Hin. specialize (Hroutes c Hin). rewrite (Hnone c Hin) in Hroutes.
        now destruct (unroutable fuel s (pickup_node s r) c).
      * cbn. now rewrite <- app_assoc.
  - split; [repeat split|]; vm_compute; reflexivity.
Qed.

Lemma requeued_once_per_unroutable_candidate_witness :
  (exists b, In b (candidates split_system)
             /\ holds (state_after (@process_one sample_floats 10 split_system)
                                   split_system) 0%nat b = true
             /\ passenger_request_queue
                  (state_after (@process_one sample_floats 10 split_system)
                               split_system)
                = [] ++ repeat 0%nat 2)
  \/ ((forall c, In c (candidates split_system) ->
                 unroutable 10 split_system (pickup_node split_system 0%nat) c = true)
      /\ driver_obj (state_after (@process_one sample_floats 10 split_system)
                                 split_system)
         = driver_obj split_system
      /\ passenger_request_queue
           (state_after (@process_one sample_floats 10 split_system) split_system)
         = [] ++ repeat 0%nat 2 ++ [0%nat]).
Proof.
  apply (proj1 requeued_once_per_unroutable_candidate sample_floats 10%nat
           split_system
           (state_after (@process_one sample_floats 10 split_system) split_system)
           0%nat []); vm_compute; reflexivity.
Defined.

(** Whenever a cycle returns with one candidate routable and another not, the
    request ends up both assigned and queued. *)
Lemma commit_leaves_request_queued `{Floats} (fuel : nat)
    (s s' : RideSharingSystem) (r : ref) (rest : list ref) (c u : ref) :
  passenger_request_queue s = r :: rest ->
  is_canceled (request_obj s r) = false ->
  process_one fuel s = Ok s' ->
  In c (candidates s) -> routable fuel s (pickup_node s r) c = true ->
  In u (candidates s) -> unroutable fuel s (pickup_node s r) u = true ->
  In r (passenger_request_queue s') /\ held_by_assignment s' r = true.
Proof.
  intros Hq Hc E Hin Rc Hu Uu.
  destruct (process_one_inv fuel s r rest s' Hq Hc E)
    as (_ & [(b & route & Hb & _ & _ & _ & ->) | (Hnone & _)]).
  - split.
    + cbn. apply in_or_app. right.
      assert (Hf : In u (filter (unroutable fuel s (pickup_node s r))
                                (candidates s)))
        by (apply filter_In; auto).
      destruct (filter _ _) as [|x f]; [destruct Hf | now left].
    + unfold held_by_assignment. apply existsb_exists. exists b. split.
      * cbn. now apply candidates_available in Hb.
      * unfold holds. cbn. unfold store_set. rewrite Nat.eqb_refl. cbn.
        apply Nat.eqb_refl.
  - rewrite (Hnone c Hin) in Rc. discriminate.
Qed.

(** C2: on the split graph, from a state with an empty queue and no
    assignment, enqueuing John's request and running one cycle reaches a state
    where the request is assigned to Bob and is still in the queue. *)
Theorem assigned_request_left_in_queue :
  queue_free_of_assigned (with_queue split_system []) = true
  /\ exists s',
       @reachable sample_floats (with_queue split_system []) s'
       /\ In 0%nat (passenger_request_queue s')
       /\ held_by_assignment s' 0%nat = true
       /\ queue_free_of_assigned s' = false.
Proof.
  split; [reflexivity|].
  exists (state_after (@process_one sample_floats 10 split_system) split_system).
  split.
  - eapply reach_step.
    + eapply reach_step; [apply reach_init|].
      apply (@step_enqueue sample_floats (with_queue split_system []) 0%nat).
      * intros [].
      * reflexivity.
    + apply (@step_dispatch sample_floats 10).
      * discriminate.
      * vm_compute. reflexivity.
  - repeat split; vm_compute; auto.
Qed.

(** ** The drain loop *)

(** The loop returns only on an empty queue. *)
Lemma drain_returns_empty `{Floats} (n fuel : nat) :
  forall s s', process_passenger_requests n fuel s = Ok s' ->
               passenger_request_queue s' = [].
Proof.
  induction n as [|n IH]; intros s s' E;
    destruct (passenger_request_queue s) as [|h rest] eqn:Hq;
    cbn [process_passenger_requests] in E; rewrite Hq in E.
  - now injection E as <-.
  - discriminate.
  - now injection E as <-.
  - destruct (process_one fuel s) as [s1| |]; cbn [bind] in E; try discriminate.
    eauto.
Qed.

(** A queue of canceled requests is drained in as many cycles as it is
    long. *)
Lemma drain_canceled `{Floats} (fuel : nat) (q : list ref) :
  forall s,
    passenger_request_queue s = q ->
    (forall r, In r q -> is_canceled (request_obj s r) = true) ->
    process_passenger_requests (List.length q) fuel s = Ok (with_queue s []).
Proof.
  induction q as [|h rest IH]; intros s Hq Hall;
    cbn [List.length process_passenger_requests]; rewrite Hq.
  - rewrite <- Hq. now rewrite with_queue_queue.
  - rewrite (process_one_canceled fuel s h rest Hq (Hall h (or_introl eq_refl))).
    cbn [bind]. rewrite (IH (with_queue s rest)); auto.
    intros r Hr. apply Hall. now right.
Qed.

(** A cycle that completes keeps a stuck state stuck. *)
Lemma stuck_preserved `{Floats} (fuel : nat) (s s' : RideSharingSystem) :
  stuck fuel s -> process_one fuel s = Ok s' -> stuck fuel s'.
Proof.
  intros (r & Hin & Hc & Hun) E.
  destruct (process_one_frame fuel s s' E) as (Hreq & Hg & Hm & Hd & Hloc & Hav).
  exists r. split; [|split].
  - destruct (passenger_request_queue s) as [|h rest] eqn:Hq; [destruct Hin|].
    destruct (is_canceled (request_obj s h)) eqn:Hch.
    + rewrite (process_one_canceled fuel s h rest Hq Hch) in E.
      injection E as <-. cbn. destruct Hin as [<- | Hin]; [congruence | exact Hin].
    + destruct (process_one_inv fuel s h rest s' Hq Hch E)
        as (Hroutes & [(b & route & Hb & Rb & _ & _ & ->) | (_ & ->)]); cbn.
      * destruct Hin as [<- | Hin].
        -- specialize (Hroutes b Hb). rewrite Rb, (Hun b Hb) in Hroutes.
           discriminate.
        -- apply in_or_app. now left.
      * destruct Hin as [<- | Hin].
        -- apply in_or_app. right. now left.
        -- apply in_or_app. left. apply in_or_app. now left.
  - now rewrite Hreq.
  - intros d Hd'. apply candidates_available in Hd'. destruct Hd' as [Hd1 Hd2].
    rewrite Hd in Hd1. apply Hav in Hd2.
    specialize (Hun d (available_candidate s d Hd1 Hd2)).
    unfold unroutable, pickup_node, driver_node, get_coordinates in *.
    now rewrite Hg, Hm, Hreq, Hloc.
Qed.

(** From a stuck state the loop never returns normally. *)
Lemma stuck_never_returns `{Floats} (n fuel : nat) :
  forall s, stuck fuel s -> is_ok (process_passenger_requests n fuel s) = false.
Proof.
  induction n as [|n IH]; intros s St;
    destruct (passenger_request_queue s) as [|h rest] eqn:Hq;
    cbn [process_passenger_requests]; rewrite Hq.
  - destruct St as (r & Hin & _). rewrite Hq in Hin. destruct Hin.
  - reflexivity.
  - destruct St as (r & Hin & _). rewrite Hq in Hin. destruct Hin.
  - destruct (process_one fuel s) as [s1| |] eqn:E; cbn [bind]; try reflexivity.
    apply IH. eapply stuck_preserved; eauto.
Qed.

Lemma filter_none {A : Type} (f : A -> bool) (l : list A) :
  (forall x, In x l -> f x = false) -> filter f l = [].
Proof.
  induction l as [|x l IH]; intro Hall; [reflexivity|].
  cbn [filter]. rewrite (Hall x (or_introl eq_refl)).
  apply IH. intros; apply Hall; now right.
Qed.

(** Committing a driver takes it, and no other, out of the candidates. *)
Lemma candidates_after_commit (s : RideSharingSystem) (b : ref) (v : Driver) :
  is_available v = false ->
  (forall d, In d (candidates (with_driver s b v)) -> In d (candidates s))
  /\ (NoDup (drivers s) -> In b (candidates s) ->
      S (List.length (candidates (with_driver s b v)))
      = List.length (candidates s)).
Proof.
  intro Hv. unfold candidates. cbn [with_driver drivers driver_obj].
  split.
  - intros d Hd. apply filter_In in Hd. destruct Hd as [Hin Ha].
    apply filter_In. split; [exact Hin|]. unfold store_set in Ha.
    destruct (Nat.eqb d b); [congruence | exact Ha].
  - intros N Hb. apply filter_In in Hb. destruct Hb as [Hin Ha].
    induction (drivers s) as [|d ds IH]; [destruct Hin|].
    inversion N as [|? ? Hnot N']; subst. cbn [filter].
    unfold store_set at 1. destruct (Nat.eqb d b) eqn:E.
    + apply Nat.eqb_eq in E. subst d. rewrite Hv, Ha. cbn [List.length].
      f_equal. f_equal. apply filter_ext_in. intros c Hc. unfold store_set.
      destruct (Nat.eqb c b) eqn:Ec; [|reflexivity].
      apply Nat.eqb_eq in Ec. subst c. contradiction.
    + destruct Hin as [-> | Hin]; [now rewrite Nat.eqb_refl in E|].
      destruct (is_available (driver_obj s d)); cbn [List.length];
        [f_equal|]; now apply IH.
Qed.

(** A cycle on a request that can be matched commits a candidate and puts
    nothing back in the queue, and what is left can be matched. *)
Lemma process_one_matched `{Floats} (fuel : nat) (s : RideSharingSystem)
    (h : ref) (rest : list ref) :
  passenger_request_queue s = h :: rest ->
  all_matched fuel s ->
  exists s', process_one fuel s = Ok s'
             /\ passenger_request_queue s' = rest
             /\ all_matched fuel s'.
Proof.
  intros Hq (N & L & M). rewrite Hq in L.
  destruct (is_canceled (request_obj s h)) eqn:Hc.
  - rewrite (process_one_canceled fuel s h rest Hq Hc).
    exists (with_queue s rest). split; [reflexivity|].
    split; [reflexivity|]. split; [exact N|]. split.
    + unfold uncanceled in *. cbn [filter] in L. rewrite Hc in L. exact L.
    + intros r d Hr Hu Hd. apply M; auto. rewrite Hq. now right.
  - assert (Hh : In h (passenger_request_queue s)) by (rewrite Hq; now left).
    destruct (process_one_total fuel s h rest Hq) as (s' & E).
    { intros d Hd. now apply (M h d Hh Hc Hd). }
    { intros d Hd. destruct (M h d Hh Hc Hd) as [_ R].
      unfold routable in R.
      now destruct (calculate_optimal_route fuel (graph s) (driver_node s d)
                      (pickup_node s h)). }
    exists s'. split; [exact E|].
    assert (U : filter (unroutable fuel s (pickup_node s h)) (candidates s) = []).
    { apply filter_none.
      intros d Hd. destruct (M h d Hh Hc Hd) as [_ R].
      unfold routable, unroutable in *.
      destruct (calculate_optimal_route fuel (graph s) (driver_node s d)
                  (pickup_node s h)) as [route| |]; [|reflexivity..].
      now apply negb_true_iff in R. }
    destruct (process_one_inv fuel s h rest s' Hq Hc E)
      as (_ & [(b & route & Hb & _ & _ & _ & ->) | (Hnone & _)]).
    + rewrite U. cbn [List.length repeat]. rewrite app_nil_r.
      split; [reflexivity|].
      destruct (candidates_after_commit (with_queue s rest) b
                  (mkDriver (name (driver_obj s b)) (location (driver_obj s b))
                            false (Some h) (Some route)) eq_refl) as [Hsub Hlen].
      split; [exact N|]. split.
      * cbn [passenger_request_queue with_driver with_queue].
        specialize (Hlen N Hb). unfold uncanceled in *.
        cbn [request_obj with_driver with_queue] in *.
        cbn [filter] in L. rewrite Hc in L. cbn [negb List.length] in L.
        change (candidates (with_queue s rest)) with (candidates s) in Hlen.
        lia.
      * intros r d Hr Hu Hd. apply Hsub in Hd.
        change (candidates (with_queue s rest)) with (candidates s) in Hd.
        cbn [passenger_request_queue with_driver with_queue] in Hr.
        cbn [request_obj with_driver with_queue] in Hu.
        assert (Hr' : In r (passenger_request_queue s))
          by (rewrite Hq; now right).
        destruct (M r d Hr' Hu Hd) as [D R].
        assert (Loc : location (store_set (driver_obj s) b
                        (mkDriver (name (driver_obj s b))
                           (location (driver_obj s b)) false (Some h)
                           (Some route)) d)
                      = location (driver_obj s d)).
        { unfold store_set. destruct (Nat.eqb d b) eqn:Ed; [|reflexivity].
          apply Nat.eqb_eq in Ed. now subst. }
        unfold distance_to_pickup, routable, driver_node, pickup_node,
          get_coordinates in *.
        cbn [driver_obj request_obj graph location_mapping with_driver
             with_queue].
        rewrite Loc. now split.
    + exfalso. destruct (candidates s) as [|d ds] eqn:C.
      * unfold uncanceled in L. cbn [filter] in L. rewrite Hc in L.
        cbn [negb List.length] in L. lia.
      * destruct (M h d Hh Hc) as [_ R]; [now left|].
        rewrite (Hnone d (or_introl eq_refl)) in R. discriminate.
Qed.

(** When every request can be matched the loop returns after one cycle per
    queue entry. *)
Lemma drain_matched `{Floats} (fuel : nat) (q : list ref) :
  forall s,
    passenger_request_queue s = q ->
    all_matched fuel s ->
    exists s', process_passenger_requests (List.length q) fuel s = Ok s'.
Proof.
  induction q as [|h rest IH]; intros s Hq M;
    cbn [List.length process_passenger_requests]; rewrite Hq; [eauto|].
  destruct (process_one_matched fuel s h rest Hq M) as (s1 & -> & Hq1 & M1).
  cbn [bind]. now apply IH.
Qed.

(** With no driver registered, a cycle on an uncanceled request puts the
    request back and changes nothing else. *)
Lemma idle_cycle `{Floats} (fuel : nat) :
  process_one fuel idle_system = Ok idle_system.
Proof. reflexivity. Qed.

Lemma idle_spins `{Floats} (n fuel : nat) :
  process_passenger_requests n fuel idle_system = OutOfFuel.
Proof.
  induction n as [|n IH]; [reflexivity|].
  cbn [process_passenger_requests idle_system passenger_request_queue].
  change (process_one fuel _) with (process_one fuel idle_system).
  rewrite idle_cycle. exact IH.
Qed.

(** C4, as the claim states it, fails: the request of [idle_system] can never
    be routed (its pickup has no node and no driver is registered), and the
    drain loop does not return on it, whatever the number of cycles it is
    given. *)
Lemma unroutable_request_spins :
  pickup_node idle_system 0%nat = None
  /\ drivers idle_system = []
  /\ passenger_request_queue idle_system = [0%nat]
  /\ forall n fuel, @process_passenger_requests sample_floats n fuel idle_system
                    = OutOfFuel.
Proof.
  repeat split. intros n fuel. apply idle_spins.
Qed.

(** C4, amended: the drain loop returns only with an empty queue. It does
    return, after one cycle per queue entry, when every queued request is
    canceled or can be matched: enough available drivers, and from each of
    them a distance and a route to the pickup. But an uncanceled queued
    request without a routable candidate is appended and retried by the same
    call, so that from a state with such a request the loop never returns
    normally. *)
Theorem drain_returns_empty_or_spins `{Floats} (fuel : nat)
    (s : RideSharingSystem) :
  (forall n s', process_passenger_requests n fuel s = Ok s' ->
                passenger_request_queue s' = [])
  /\ (all_matched fuel s ->
      exists s',
        process_passenger_requests (List.length (passenger_request_queue s))
          fuel s = Ok s'
        /\ passenger_request_queue s' = [])
  /\ ((forall r, In r (passenger_request_queue s) ->
                 is_canceled (request_obj s r) = true) ->
      process_passenger_requests (List.length (passenger_request_queue s)) fuel s
      = Ok (with_queue s []))
  /\ (stuck fuel s ->
      forall n, is_ok (process_passenger_requests n fuel s) = false).
Proof.
  split; [|split; [|split]].
  - intros n s'. apply drain_returns_empty.
  - intro M.
    destruct (drain_matched fuel (passenger_request_queue s) s eq_refl M)
      as (s' & E).
    exists s'. split; [exact E|]. eapply drain_returns_empty; eauto.
  - intro Hall. now apply drain_canceled.
  - intros St n. now apply stuck_never_returns.
Qed.

Lemma drain_returns_empty_or_spins_witness :
  (exists s',
     @process_passenger_requests sample_floats
        (List.length (passenger_request_queue main_system)) 10 main_system
     = Ok s'
     /\ passenger_request_queue s' = [])
  /\ @process_passenger_requests sample_floats 1 10
       (cancel_request main_system 0%nat)
     = Ok (with_queue (cancel_request main_system 0%nat) [])
  /\ forall n, is_ok (@process_passenger_requests sample_floats n 10
                        unmapped_pickup_system) = false.
Proof.
  split; [|split].
  - apply (proj1 (proj2 (@drain_returns_empty_or_spins sample_floats 10
                           main_system))).
    split; [|split].
    + repeat constructor; cbn; intuition discriminate.
    + cbn. lia.
    + intros r d Hr _ Hd. cbn in Hr, Hd.
      destruct Hr as [<- | []].
      destruct Hd as [<- | [<- | []]]; split;
        (discriminate || (vm_compute; reflexivity)).
  - apply (proj1 (proj2 (proj2 (@drain_returns_empty_or_spins sample_floats 10
                                  (cancel_request main_system 0%nat))))).
    intros r Hr. vm_compute in Hr. destruct Hr as [<- | []]. reflexivity.
  - apply (proj2 (proj2 (proj2 (@drain_returns_empty_or_spins sample_floats 10
                                  unmapped_pickup_system)))).
    exists 0%nat. split; [now left|]. split; [reflexivity|].
    intros d Hd. vm_compute in Hd.
    destruct Hd as [<- | [<- | []]]; vm_compute; reflexivity.
Defined.

(** With the drivers of [main.py] and a request whose pickup is not mapped,
    every cycle takes one copy of the request off the queue and appends
    three. *)
Lemma unmapped_pickup_cycle (q : list ref) :
  @process_one sample_floats 10 (with_queue unmapped_pickup_system (0%nat :: q))
  = Ok (with_queue unmapped_pickup_system
          (((q ++ [0%nat]) ++ [0%nat]) ++ [0%nat])).
Proof. reflexivity. Qed.

Lemma unmapped_pickup_spins (n : nat) :
  forall q, Forall (eq 0%nat) q ->
    @process_passenger_requests sample_floats n 10
      (with_queue unmapped_pickup_system (0%nat :: q)) = OutOfFuel.
Proof.
  induction n as [|n IH]; intros q Hq; [reflexivity|].
  cbn [process_passenger_requests with_queue passenger_request_queue].
  rewrite unmapped_pickup_cycle. cbn [bind].
  destruct q as [|x q].
  - apply (IH [0%nat; 0%nat]). repeat constructor.
  - inversion Hq as [|? ? <- Hq']; subst.
    apply (IH (((q ++ [0%nat]) ++ [0%nat]) ++ [0%nat])).
    repeat (apply Forall_app; split); auto.
Qed.

(** A request that is committed can keep the loop from returning too: on the
    split graph the first cycle commits John's request to Bob and queues it
    again twice, for Alice and for Carol, and from then on no candidate has a
    route to the pickup. *)
Lemma committed_request_spins (n : nat) :
  is_ok (@process_passenger_requests sample_floats n 10 split_system) = false.
Proof.
  destruct n as [|n]; [reflexivity|].
  cbn [process_passenger_requests split_system passenger_request_queue].
  change (@process_one sample_floats 10 _)
    with (@process_one sample_floats 10 split_system).
  assert (E : @process_one sample_floats 10 split_system
              = Ok (state_after (@process_one sample_floats 10 split_system)
                                split_system))
    by (vm_compute; reflexivity).
  rewrite E. cbn [bind]. apply stuck_never_returns.
  exists 0%nat. split; [vm_compute; now left|]. split; [reflexivity|].
  intros d Hd. vm_compute in Hd.
  destruct Hd as [<- | [<- | []]]; vm_compute; reflexivity.
Qed.

(** The run of [main.py]: one cycle commits John's request to Alice and the
    loop returns with an empty queue. *)
Lemma main_run :
  queue_after (@process_passenger_requests sample_floats 1 10 main_system)
    = Ok []
  /\ driver_after (@process_passenger_requests sample_floats 1 10 main_system)
       1%nat
     = Ok (mkDriver "Alice" london false (Some 0%nat)
                    (Some (PyList [Some "C"; Some "B"; Some "A"])))
  /\ driver_after (@process_passenger_requests sample_floats 1 10 main_system)
       0%nat
     = Ok (new_driver "Bob" new_york).
Proof. repeat split; vm_compute; reflexivity. Qed.

(** * Further properties *)

(** ** The location resolver *)

Lemma coord_eqb_refl (c : coord) : coord_eqb c c = true.
Proof.
  unfold coord_eqb. apply andb_true_iff. split; apply Qeq_bool_iff; reflexivity.
Qed.

(** X1: when no two entries of the mapping have the same coordinates,
    [get_coordinates] inverts the mapping: the coordinates of an entry resolve
    to the identifier of that entry. *)
Theorem get_coordinates_inverts_mapping (s : RideSharingSystem)
    (location_identifier : string) (location_coordinates : coord) :
  coordinates_distinct (location_mapping s) ->
  In (location_identifier, location_coordinates) (location_mapping s) ->
  get_coordinates s location_coordinates = Some location_identifier.
Proof.
  unfold get_coordinates, coordinates_distinct.
  induction (location_mapping s) as [|[id c] m IH]; intros D Hin;
    [destruct Hin|].
  inversion D as [|x l Hx Hl]; subst. cbn [lookup_coordinates].
  destruct Hin as [E | Hin].
  - injection E as -> ->. now rewrite coord_eqb_refl.
  - rewrite Forall_forall in Hx. specialize (Hx _ Hin). cbn in Hx.
    rewrite Hx. auto.
Qed.

Lemma get_coordinates_inverts_mapping_witness :
  get_coordinates main_system london = Some "C".
Proof.
  apply (get_coordinates_inverts_mapping main_system "C" london).
  - unfold coordinates_distinct. cbn.
    repeat (constructor; [repeat constructor|]). constructor.
  - cbn. auto.
Defined.

(** X2: [get_coordinates] returns [None] exactly when no entry of the mapping
    has the given coordinates, and otherwise the identifier of the first
    entry that has them. *)
Theorem get_coordinates_first_match (s : RideSharingSystem) (address : coord) :
  match get_coordinates s address with
  | None =>
      forall x, In x (location_mapping s) -> coord_eqb (snd x) address = false
  | Some location_identifier =>
      exists before c after,
        location_mapping s = before ++ (location_identifier, c) :: after
        /\ coord_eqb c address = true
        /\ forall x, In x before -> coord_eqb (snd x) address = false
  end.
Proof.
  unfold get_coordinates.
  induction (location_mapping s) as [|[id c] m IH]; cbn [lookup_coordinates].
  - intros x [].
  - destruct (coord_eqb c address) eqn:E.
    + exists [], c, m. repeat split; auto. intros x [].
    + destruct (lookup_coordinates m address) as [id'|].
      * destruct IH as (before & c' & after & -> & Ec & Hb).
        exists ((id, c) :: before), c', after. repeat split; auto.
        intros x [<- | Hx]; auto.
      * intros x [<- | Hx]; auto.
Qed.

(** ** The route planner from a node to itself *)

(** X3: from a key of the graph to itself the route is the one-node list,
    whatever the graph; a key that is the empty string, false as the
    condition of the reconstruction loop, gives the empty list instead. *)
Theorem route_to_itself (fuel : nat) (g : graph_t) (x : string) :
  is_key g (Some x) ->
  calculate_optimal_route (S (S fuel)) g (Some x) (Some x)
  = Ok (PyList (if truthy (Some x) then [Some x] else [])).
Proof.
  intro K. unfold calculate_optimal_route.
  rewrite search_S. cbn [pqueue predecessors distances]. cbn zeta.
  rewrite node_eqb_refl, reconstruct_S.
  destruct (truthy (Some x)); [|reflexivity].
  rewrite dict_get_init. unfold is_key in K.
  destruct (graph_get g (Some x)); [|contradiction].
  destruct fuel; reflexivity.
Qed.

Lemma route_to_itself_witness :
  calculate_optimal_route 2 sample_graph (Some "B") (Some "B")
  = Ok (PyList [Some "B"]).
Proof. apply (route_to_itself 0 sample_graph "B"). discriminate. Defined.

(** ** Cycles and committed drivers *)

Lemma no_candidates (s : RideSharingSystem) :
  (forall d, In d (drivers s) -> is_available (driver_obj s d) = false) ->
  candidates s = [].
Proof.
  intro Hall. unfold candidates.
  induction (drivers s) as [|d ds IH]; [reflexivity|].
  cbn [filter]. rewrite (Hall d (or_introl eq_refl)).
  apply IH. intros; apply Hall; now right.
Qed.

(** With no available driver [find_available_drivers] computes no distance
    and returns the empty list. *)
Lemma no_driver_found `{Floats} (s : RideSharingSystem) (loc : coord) :
  (forall d, In d (drivers s) -> is_available (driver_obj s d) = false) ->
  find_available_drivers s loc = Ok [].
Proof.
  intro Hall. unfold find_available_drivers.
  rewrite available_among_returns.
  - f_equal. now apply no_candidates.
  - intros d Hd Ha. rewrite (Hall d Hd) in Ha. discriminate.
Qed.

(** A cycle changes no driver that is not available. *)
Lemma process_one_keeps_committed `{Floats} (fuel : nat)
    (s s' : RideSharingSystem) (d : ref) :
  process_one fuel s = Ok s' ->
  is_available (driver_obj s d) = false ->
  driver_obj s' d = driver_obj s d.
Proof.
  intros E Hd. destruct (passenger_request_queue s) as [|h rest] eqn:Hq.
  - unfold process_one in E. rewrite Hq in E. now injection E as <-.
  - destruct (is_canceled (request_obj s h)) eqn:Hc.
    + rewrite (process_one_canceled fuel s h rest Hq Hc) in E.
      now injection E as <-.
    + destruct (process_one_inv fuel s h rest s' Hq Hc E)
        as (_ & [(b & route & Hb & _ & _ & _ & ->) | (_ & ->)]);
        [|reflexivity].
      cbn. unfold store_set. destruct (Nat.eqb d b) eqn:Eb; [|reflexivity].
      apply Nat.eqb_eq in Eb. subst d.
      apply candidates_available in Hb. destruct Hb as [_ Hb]. congruence.
Qed.

(** X4: a call of [process_passenger_requests] that returns has changed no
    driver that was unavailable when it started (neither its flag nor the
    passenger and route attached to it), has made no driver available, and
    has left the registry, the requests and the configuration as they
    were. *)
Theorem drain_keeps_committed_drivers `{Floats} (n fuel : nat) :
  forall s s',
    process_passenger_requests n fuel s = Ok s' ->
    (forall d, is_available (driver_obj s d) = false ->
               driver_obj s' d = driver_obj s d)
    /\ (forall d, is_available (driver_obj s' d) = true ->
                  is_available (driver_obj s d) = true)
    /\ drivers s' = drivers s
    /\ request_obj s' = request_obj s
    /\ graph s' = graph s
    /\ location_mapping s' = location_mapping s.
Proof.
  induction n as [|n IH]; intros s s' E;
    destruct (passenger_request_queue s) as [|h rest] eqn:Hq;
    cbn [process_passenger_requests] in E; rewrite Hq in E;
    try discriminate; try (injection E as <-; now repeat split).
  destruct (process_one fuel s) as [s1| |] eqn:E1; cbn [bind] in E;
    try discriminate.
  destruct (IH _ _ E) as (K & A & D & R & G & M).
  destruct (process_one_frame fuel s s1 E1) as (R1 & G1 & M1 & D1 & _ & A1).
  repeat split; try congruence.
  - intros d Hd. rewrite K.
    + now apply (process_one_keeps_committed fuel s s1).
    + rewrite (process_one_keeps_committed fuel s s1 d E1 Hd). exact Hd.
  - intros d Hd. auto.
Qed.

Lemma drain_keeps_committed_drivers_witness :
  driver_after (@process_passenger_requests sample_floats 1 10 requeued_system)
    1%nat
  = Ok (driver_obj requeued_system 1%nat).
Proof.
  destruct (@process_passenger_requests sample_floats 1 10 requeued_system)
    as [s'| |] eqn:E; try (vm_compute in E; discriminate).
  cbn [driver_after bind]. f_equal.
  apply (proj1 (@drain_keeps_committed_drivers sample_floats 1 10
                  requeued_system s' E)).
  reflexivity.
Defined.

(** A request that a driver holds stays held through a cycle. *)
Lemma process_one_keeps_held `{Floats} (fuel : nat)
    (s s' : RideSharingSystem) (r : ref) :
  process_one fuel s = Ok s' ->
  held_by_assignment s r = true ->
  held_by_assignment s' r = true.
Proof.
  intros E Hh. unfold held_by_assignment in *.
  apply existsb_exists in Hh. destruct Hh as (d & Hd & Hh).
  apply existsb_exists. exists d.
  destruct (process_one_frame fuel s s' E) as (_ & _ & _ & D & _ & _).
  rewrite D. split; [exact Hd|].
  unfold holds in *. apply andb_true_iff in Hh. destruct Hh as [Ha Hp].
  apply negb_true_iff in Ha.
  rewrite (process_one_keeps_committed fuel s s' d E Ha), Ha. exact Hp.
Qed.

Lemma drain_keeps_held `{Floats} (n fuel : nat) (r : ref) :
  forall s s',
    process_passenger_requests n fuel s = Ok s' ->
    held_by_assignment s r = true ->
    held_by_assignment s' r = true.
Proof.
  induction n as [|n IH]; intros s s' E Hh;
    destruct (passenger_request_queue s) as [|h rest] eqn:Hq;
    cbn [process_passenger_requests] in E; rewrite Hq in E;
    try discriminate; try (now injection E as <-).
  destruct (process_one fuel s) as [s1| |] eqn:E1; cbn [bind] in E;
    try discriminate.
  eapply IH; eauto. eapply process_one_keeps_held; eauto.
Qed.

(** A cycle either keeps a queued request in the queue or, when the request
    is the uncanceled head, assigns it. *)
Lemma process_one_queued_or_held `{Floats} (fuel : nat)
    (s s' : RideSharingSystem) (r : ref) :
  process_one fuel s = Ok s' ->
  In r (passenger_request_queue s) ->
  is_canceled (request_obj s r) = false ->
  In r (passenger_request_queue s') \/ held_by_assignment s' r = true.
Proof.
  intros E Hin Hc.
  destruct (passenger_request_queue s) as [|h rest] eqn:Hq; [destruct Hin|].
  destruct (is_canceled (request_obj s h)) eqn:Hch.
  - rewrite (process_one_canceled fuel s h rest Hq Hch) in E.
    injection E as <-. left. cbn.
    destruct Hin as [<- | Hin]; [congruence | exact Hin].
  - destruct (process_one_inv fuel s h rest s' Hq Hch E)
      as (_ & [(b & route & Hb & _ & _ & _ & ->) | (_ & ->)]).
    + destruct Hin as [<- | Hin].
      * right. unfold held_by_assignment. apply existsb_exists. exists b.
        split; [cbn; now apply candidates_available in Hb|].
        unfold holds. cbn. unfold store_set. rewrite Nat.eqb_refl. cbn.
        apply Nat.eqb_refl.
      * left. cbn. apply in_or_app. now left.
    + left. cbn. destruct Hin as [<- | Hin].
      * apply in_or_app. right. now left.
      * apply in_or_app. left. apply in_or_app. now left.
Qed.

(** X5: when a call of [process_passenger_requests] returns, every request
    that was queued and not canceled at the start is attached to a driver
    of the registry that is no longer available. *)
Theorem drain_assigns_every_request `{Floats} (n fuel : nat) :
  forall s s',
    process_passenger_requests n fuel s = Ok s' ->
    forall r, In r (passenger_request_queue s) ->
              is_canceled (request_obj s r) = false ->
              held_by_assignment s' r = true.
Proof.
  induction n as [|n IH]; intros s s' E r Hin Hc;
    destruct (passenger_request_queue s) as [|h rest] eqn:Hq;
    cbn [process_passenger_requests] in E; rewrite Hq in E;
    try discriminate; try (now destruct Hin).
  destruct (process_one fuel s) as [s1| |] eqn:E1; cbn [bind] in E;
    try discriminate.
  rewrite <- Hq in Hin.
  destruct (process_one_queued_or_held fuel s s1 r E1 Hin Hc) as [Hq1 | Hh].
  - apply (IH s1 s' E r Hq1).
    destruct (process_one_frame fuel s s1 E1) as (-> & _). exact Hc.
  - eapply drain_keeps_held; eauto.
Qed.

Lemma drain_assigns_every_request_witness :
  held_by_assignment
    (state_after (@process_passenger_requests sample_floats 1 10 main_system)
                 main_system) 0%nat = true.
Proof.
  apply (@drain_assigns_every_request sample_floats 1 10 main_system);
    [vm_compute; reflexivity | now left | reflexivity].
Defined.

(** ** Cancellation *)

(** X6: the copies of a request in the queue share its canceled flag: when
    every queued entry is the request [r] or is already canceled, one
    [cancel_request] on [r] lets [process_passenger_requests] return after
    one cycle per entry, with an empty queue and every driver as it was. *)
Theorem cancel_drops_every_copy `{Floats} (fuel : nat)
    (s : RideSharingSystem) (r : ref) :
  (forall x, In x (passenger_request_queue s) ->
             x = r \/ is_canceled (request_obj s x) = true) ->
  process_passenger_requests (List.length (passenger_request_queue s)) fuel
    (cancel_request s r)
  = Ok (with_queue (cancel_request s r) []).
Proof.
  intro Hall.
  apply (drain_canceled fuel (passenger_request_queue s) (cancel_request s r));
    [reflexivity|].
  intros x Hx. cbn. unfold store_set.
  destruct (Nat.eqb x r) eqn:E; [reflexivity|].
  destruct (Hall x Hx) as [-> | Hc]; [|exact Hc].
  now rewrite Nat.eqb_refl in E.
Qed.

Lemma cancel_drops_every_copy_witness :
  @process_passenger_requests sample_floats 3 10
    (cancel_request (with_queue unmapped_pickup_system [0; 0; 0]%nat) 0%nat)
  = Ok (with_queue
          (cancel_request (with_queue unmapped_pickup_system [0; 0; 0]%nat) 0%nat)
          []).
Proof.
  apply (@cancel_drops_every_copy sample_floats 10
           (with_queue unmapped_pickup_system [0; 0; 0]%nat) 0%nat).
  intros x Hx. left. cbn in Hx. intuition.
Defined.

(** ** A pass over the queue without available drivers *)

Lemma cycles_rotate `{Floats} (fuel : nat) (s : RideSharingSystem)
    (a : list ref) :
  (forall d, In d (drivers s) -> is_available (driver_obj s d) = false) ->
  forall b,
    cycles (List.length a) fuel (with_queue s (a ++ b))
    = Ok (with_queue s (b ++ uncanceled s a)).
Proof.
  intro Hall. induction a as [|x a IH]; intro b.
  - cbn. now rewrite app_nil_r.
  - cbn [List.length cycles app].
    destruct (is_canceled (request_obj s x)) eqn:Hc.
    + rewrite (process_one_canceled fuel (with_queue s (x :: a ++ b)) x (a ++ b));
        [|reflexivity | exact Hc].
      cbn [bind].
      change (with_queue (with_queue s (x :: a ++ b)) (a ++ b))
        with (with_queue s (a ++ b)).
      rewrite IH. unfold uncanceled. cbn [filter]. now rewrite Hc.
    + assert (E : process_one fuel (with_queue s (x :: a ++ b))
                  = Ok (with_queue s ((a ++ b) ++ [x]))).
      { rewrite (process_one_uncanceled fuel (with_queue s (x :: a ++ b))
                   x (a ++ b) eq_refl Hc).
        rewrite find_available_drivers_with_queue, (no_driver_found s _ Hall).
        reflexivity. }
      rewrite E. cbn [bind]. rewrite <- app_assoc, IH.
      unfold uncanceled. cbn [filter]. rewrite Hc. cbn [negb].
      now rewrite <- app_assoc.
Qed.

(** X7: while no driver of the registry is available, one pass of cycles over
    the queue, one cycle per entry, drops the canceled requests and puts the
    others back in the same order; nothing else changes, and no route is
    computed. *)
Theorem pass_without_available_driver `{Floats} (fuel : nat)
    (s : RideSharingSystem) :
  (forall d, In d (drivers s) -> is_available (driver_obj s d) = false) ->
  cycles (List.length (passenger_request_queue s)) fuel s
  = Ok (with_queue s (uncanceled s (passenger_request_queue s))).
Proof.
  intro Hall.
  pose proof (cycles_rotate fuel s (passenger_request_queue s) Hall []) as R.
  rewrite app_nil_r, with_queue_queue in R. exact R.
Qed.

Lemma pass_without_available_driver_witness :
  @cycles sample_floats 2 0
    (with_queue (cancel_request
                   (with_driver requeued_system 0%nat
                      (mkDriver "Bob" new_york false (Some 1%nat) (Some PyNone)))
                   1%nat)
                [1; 0]%nat)
  = Ok (with_queue (cancel_request
                      (with_driver requeued_system 0%nat
                         (mkDriver "Bob" new_york false (Some 1%nat) (Some PyNone)))
                      1%nat)
                   [0%nat]).
Proof.
  apply (@pass_without_available_driver sample_floats 0
           (with_queue (cancel_request
                          (with_driver requeued_system 0%nat
                             (mkDriver "Bob" new_york false (Some 1%nat)
                                       (Some PyNone)))
                          1%nat)
                       [1; 0]%nat)).
  intros d Hd. cbn in Hd. destruct Hd as [<- | [<- | []]]; reflexivity.
Defined.

(** ** Ties between candidates *)

Lemma strictly_better_then_good `{Floats} (s : RideSharingSystem)
    (r a b c : ref) :
  strictly_better s r a b -> at_least_as_good s r b c ->
  strictly_better s r a c.
Proof.
  intros (x & y & Dx & Dy & L) (y' & z & Dy' & Dz & M).
  rewrite Dy in Dy'. injection Dy' as <-.
  exists x, z. repeat split; auto.
  destruct L as [L | [E1 L1]], M as [M | [E2 M2]].
  - left. eapply Qlt_trans; eauto.
  - left. now rewrite <- E2.
  - left. now rewrite E1.
  - right. split; [now rewrite E1 | eapply Qlt_le_trans; eauto].
Qed.

Lemma strictly_better_trans `{Floats} (s : RideSharingSystem)
    (r a b c : ref) :
  strictly_better s r a b -> strictly_better s r b c ->
  strictly_better s r a c.
Proof.
  intros A (y & z & Dy & Dz & B).
  apply (strictly_better_then_good s r a b c A).
  exists y, z. repeat split; auto.
  destruct B as [L | [E L]]; [now left | right; split; auto].
  now apply Qlt_le_weak.
Qed.

(** The loop keeps the first of the best candidates: the best so far is
    strictly better than every routable candidate before it and at least as
    good as every one after it. *)
Lemma for_drivers_first_best `{Floats} (fuel : nat) (r : ref) (p : node)
    (s0 : RideSharingSystem) (ds : list ref) :
  forall seen q bd bdist beta rt l',
    match bd with
    | None => bdist = Inf /\ beta = Inf
              /\ forall c, In c seen -> routable fuel s0 p c = false
    | Some b =>
        (exists x, distance_to_pickup s0 r b = Some x
                   /\ bdist = Fin x
                   /\ beta = Fin (calculate_estimated_arrival_time x))
        /\ exists before after,
             seen = before ++ b :: after
             /\ (forall c, In c before -> routable fuel s0 p c = true ->
                           strictly_better s0 r b c)
             /\ (forall c, In c after -> routable fuel s0 p c = true ->
                           at_least_as_good s0 r b c)
    end ->
    for_drivers fuel r p ds (mkLocals (with_queue s0 q) bd bdist beta rt) = Ok l' ->
    match best_driver l' with
    | None => forall c, In c (seen ++ ds) -> routable fuel s0 p c = false
    | Some b =>
        exists before after,
          seen ++ ds = before ++ b :: after
          /\ (forall c, In c before -> routable fuel s0 p c = true ->
                        strictly_better s0 r b c)
          /\ (forall c, In c after -> routable fuel s0 p c = true ->
                        at_least_as_good s0 r b c)
    end.
Proof.
  induction ds as [|d ds IH]; intros seen q bd bdist beta rt l' B E.
  - cbn in E. injection E as <-. cbn [best_driver]. rewrite app_nil_r.
    destruct bd as [b|]; [now destruct B as (_ & B) | now destruct B as (_ & _ & B)].
  - cbn [for_drivers] in E.
    destruct (try_driver fuel r p _ d) as [l1| |] eqn:T; cbn [bind] in E;
      try discriminate.
    apply try_driver_inv in T. destruct T as (route & R & T).
    apply routable_of_route in R. destruct R as [Rd _].
    replace (seen ++ d :: ds) with ((seen ++ [d]) ++ ds)
      by (now rewrite <- app_assoc).
    destruct T as [(Em & ->) | [(Em & x & Dx & I & ->) | (Em & x & Dx & I & ->)]];
      rewrite Em in Rd; cbn [negb] in Rd; eapply IH; try exact E.
    + (* no route *)
      destruct bd as [b|].
      * destruct B as (Hx & before & after & -> & Hb & Ha).
        split; [exact Hx|]. exists before, (after ++ [d]).
        split; [now rewrite <- app_assoc|]. split; [exact Hb|].
        intros c Hc Rc. apply in_app_or in Hc.
        destruct Hc as [Hc | [<- | []]]; [auto | congruence].
      * destruct B as (-> & -> & Hn). repeat split.
        intros c Hc. apply in_app_or in Hc.
        destruct Hc as [Hc | [<- | []]]; auto.
    + (* the new candidate replaces the best *)
      split; [exists x; auto|].
      exists seen, []. split; [reflexivity|]. split; [|intros c []].
      intros c Hc Rc. destruct bd as [b|].
      * destruct B as ((xb & Db & -> & ->) & before & after & -> & Hb & Ha).
        apply improves_true in I.
        assert (Sb : strictly_better s0 r d b)
          by (exists x, xb; repeat split; auto).
        apply in_app_or in Hc. destruct Hc as [Hc | [<- | Hc]].
        -- eapply strictly_better_trans; eauto.
        -- exact Sb.
        -- eapply strictly_better_then_good; eauto.
      * destruct B as (_ & _ & Hn). rewrite (Hn c Hc) in Rc. discriminate.
    + (* the best is kept *)
      destruct bd as [b|].
      * destruct B as ((xb & Db & -> & ->) & before & after & -> & Hb & Ha).
        split; [exists xb; auto|]. exists before, (after ++ [d]).
        split; [now rewrite <- app_assoc|]. split; [exact Hb|].
        intros c Hc Rc. apply in_app_or in Hc.
        destruct Hc as [Hc | [<- | []]]; [auto|].
        apply improves_false in I. exists xb, x. repeat split; auto.
      * destruct B as (-> & -> & _). rewrite improves_Inf in I. discriminate.
Qed.

(** X9: the candidates are examined in registry order and a later candidate
    replaces the best only when it is strictly better, so the driver that a
    cycle commits is the first of the best: strictly better (an earlier
    arrival, or the same arrival time from nearer) than every routable
    candidate before it in the registry, and at least as good as every
    routable candidate after it. *)
Theorem first_of_the_best_is_committed `{Floats} (fuel : nat)
    (s s' : RideSharingSystem) (r : ref) (rest : list ref) :
  passenger_request_queue s = r :: rest ->
  is_canceled (request_obj s r) = false ->
  process_one fuel s = Ok s' ->
  (exists d, In d (candidates s)
             /\ routable fuel s (pickup_node s r) d = true) ->
  exists b before after,
    candidates s = before ++ b :: after
    /\ is_available (driver_obj s b) = true
    /\ holds s' r b = true
    /\ (forall c, In c before -> routable fuel s (pickup_node s r) c = true ->
                  strictly_better s r b c)
    /\ (forall c, In c after -> routable fuel s (pickup_node s r) c = true ->
                  at_least_as_good s r b c).
Proof.
  intros Hq Hc E (d & Hd & Rd).
  rewrite (process_one_uncanceled fuel s r rest Hq Hc) in E.
  destruct (find_available_drivers s _) as [ds| |] eqn:Fd; cbn [bind] in E;
    try discriminate.
  apply find_available_drivers_Ok in Fd. destruct Fd as [-> _].
  destruct (for_drivers fuel r (pickup_node s r) (candidates s) _)
    as [l| |] eqn:F; cbn [bind] in E; try discriminate.
  pose proof (for_drivers_sys fuel r _ s _ _ _ _ _ _ _ F) as Hsys.
  assert (B0 : @Inf Q = Inf /\ @Inf Q = Inf
               /\ forall c, In c [] -> routable fuel s (pickup_node s r) c = false)
    by (repeat split; intros c []).
  pose proof (for_drivers_first_best fuel r _ s _ [] rest None Inf Inf None l
                B0 F) as B.
  cbn [app] in B. destruct (best_driver l) as [b|].
  - destruct B as (before & after & Hsplit & Hb & Ha).
    destruct (optimal_route l) as [route|]; [|discriminate].
    injection E as <-. exists b, before, after.
    assert (Hin : In b (candidates s))
      by (rewrite Hsplit; apply in_or_app; right; now left).
    apply candidates_available in Hin. destruct Hin as [_ Hav].
    repeat split; auto.
    unfold assign_ride. rewrite Hsys.
    change (driver_obj (with_queue s _) b) with (driver_obj s b).
    rewrite Hav. unfold holds. cbn. unfold store_set. rewrite Nat.eqb_refl.
    cbn. apply Nat.eqb_refl.
  - rewrite (B d Hd) in Rd. discriminate.
Qed.

Lemma first_of_the_best_is_committed_witness :
  (@calculate_estimated_arrival_time coarse_floats 877
   == @calculate_estimated_arrival_time coarse_floats 344)%Q
  /\ driver_after (@process_one coarse_floats 10 tie_system) 1%nat
     = Ok (mkDriver "Alice" london false (Some 0%nat)
                    (Some (PyList [Some "B"; Some "A"])))
  /\ exists b before after,
       candidates tie_system = before ++ b :: after
       /\ is_available (driver_obj tie_system b) = true
       /\ holds (state_after (@process_one coarse_floats 10 tie_system)
                             tie_system) 0%nat b = true
       /\ (forall c, In c before ->
             routable 10 tie_system (pickup_node tie_system 0%nat) c = true ->
             @strictly_better coarse_floats tie_system 0%nat b c)
       /\ (forall c, In c after ->
             routable 10 tie_system (pickup_node tie_system 0%nat) c = true ->
             @at_least_as_good coarse_floats tie_system 0%nat b c).
Proof.
  split; [vm_compute; reflexivity|]. split; [vm_compute; reflexivity|].
  apply (@first_of_the_best_is_committed coarse_floats 10 tie_system
           (state_after (@process_one coarse_floats 10 tie_system) tie_system)
           0%nat []).
  - reflexivity.
  - reflexivity.
  - vm_compute. reflexivity.
  - exists 1%nat. split; [vm_compute; auto | vm_compute; reflexivity].
Defined.

(** ** The route planner returns *)

(** X10: on a graph with positive weights whose neighbours are keys, the
    route computation from a key of the graph returns a route or [None]: it
    does not raise, it does not loop, and the result is the same for every
    larger amount of fuel. *)
Theorem route_planner_returns (g : graph_t) (start_node end_node : node) :
  neighbours_are_keys g = true ->
  weights_positive g = true ->
  is_key g start_node ->
  exists fuel route, forall k,
    calculate_optimal_route (fuel + k) g start_node end_node = Ok route.
Proof.
  intros C W K.
  destruct (route_from_key_returns g start_node end_node C W K)
    as (fuel & route & R).
  exists fuel, route. intro k.
  apply (route_more_fuel g start_node end_node fuel); [lia | exact R].
Qed.

Lemma route_planner_returns_witness :
  exists fuel route, forall k,
    calculate_optimal_route (fuel + k) split_graph (Some "A") (Some "D")
    = Ok route.
Proof.
  apply (route_planner_returns split_graph (Some "A") (Some "D"));
    [reflexivity | reflexivity | discriminate].
Defined.

(** ** The route planner returns a shortest walk *)

Lemma edge_positive (g : graph_t) (u v : string) (w : Z) :
  weights_positive g = true -> edge g u v w -> 0 < w.
Proof.
  intros W (nbrs & G & Hin).
  destruct (graph_get_Some g (Some u) nbrs G) as (k & E & Hk).
  eapply weights_positive_spec; eauto.
Qed.

Lemma heappush_ascending (q : list entry) (e : entry) :
  ascending q -> ascending (heappush q e).
Proof.
  induction q as [|x q IH]; cbn [heappush ascending].
  - intros _. split; [intros y [] | exact I].
  - intros [Hx Hq]. destruct (entry_ltb e x) eqn:L; cbn [ascending].
    + assert (Le : fst e <= fst x).
      { unfold entry_ltb in L. apply orb_true_iff in L.
        destruct L as [L | L].
        - apply Z.ltb_lt in L. lia.
        - apply andb_true_iff in L. destruct L as [L _].
          apply Z.eqb_eq in L. lia. }
      split; [|split; assumption].
      intros y [<- | Hy]; [exact Le|]. specialize (Hx y Hy). lia.
    + split; [|now apply IH].
      intros y Hy. apply in_heappush in Hy. destruct Hy as [-> | Hy]; [|auto].
      unfold entry_ltb in L. apply orb_false_iff in L. destruct L as [L _].
      apply Z.ltb_ge in L. exact L.
Qed.

(** A relaxation that improves a distance keeps the invariant. *)
Lemma dj_relax_update (g : graph_t) (s e : string) (S : list string)
    (c v : string) (w cd : Z) (nbrs : list (string * Z)) (st : search_state)
    (old : ext Z) :
  weights_positive g = true ->
  dijkstra_inv g s e S c ((v, w) :: nbrs) st ->
  In c S ->
  dict_get (distances st) (Some c) = Some (Fin cd) ->
  (forall u du, In u S -> dict_get (distances st) (Some u) = Some (Fin du) ->
                du <= cd) ->
  edge g c v w ->
  dict_get (distances st) (Some v) = Some old ->
  ext_ltb Z.ltb (Fin (cd + w)) old = true ->
  let st1 := mkSearch (dict_set (distances st) (Some v) (Fin (cd + w)))
                      (dict_set (predecessors st) (Some v) (Some c))
                      (heappush (pqueue st) (cd + w, Some v)) in
  dijkstra_inv g s e S c nbrs st1
  /\ dict_get (distances st1) (Some c) = Some (Fin cd)
  /\ (forall u du, In u S ->
        dict_get (distances st1) (Some u) = Some (Fin du) -> du <= cd).
Proof.
  intros W [Is Ip Iset Iasc Ifr Irel Iq Iend Inn Itr] Hc Dc Hle He Dv Lt st1.
  assert (Hw : 0 < w) by (eapply edge_positive; eauto).
  assert (Hcd : 0 <= cd) by (eapply Inn; eauto).
  assert (Hold : forall o, old = Fin o -> cd + w < o).
  { intros o ->. cbn in Lt. now apply Z.ltb_lt. }
  assert (NS : forall u, In u S -> node_eqb (Some v) (Some u) = false).
  { intros u Hu. destruct (node_eqb (Some v) (Some u)) eqn:E; [|reflexivity].
    apply node_eqb_eq in E. injection E as <-.
    destruct (Iset v Hu) as (dv & Dv' & _). rewrite Dv in Dv'.
    injection Dv' as ->. specialize (Hle v dv Hu Dv).
    specialize (Hold dv eq_refl). lia. }
  assert (Ns : node_eqb (Some v) (Some s) = false).
  { destruct (node_eqb (Some v) (Some s)) eqn:E; [|reflexivity].
    apply node_eqb_eq in E. injection E as ->. rewrite Is in Dv.
    injection Dv as <-. specialize (Hold 0 eq_refl). lia. }
  assert (D1 : forall k,
             dict_get (dict_set (distances st) (Some v) (Fin (cd + w))) k
             = if node_eqb (Some v) k then Some (Fin (cd + w))
               else dict_get (distances st) k)
    by (intro k; apply dict_get_set).
  assert (P1 : forall k,
             dict_get (dict_set (predecessors st) (Some v) (Some c)) k
             = if node_eqb (Some v) k then Some (Some c)
               else dict_get (predecessors st) k)
    by (intro k; apply dict_get_set).
  subst st1. split; [|split]; cbn [distances predecessors pqueue].
  - constructor; cbn [distances predecessors pqueue].
    + rewrite D1, Ns. exact Is.
    + intros n d. rewrite D1, P1. destruct (node_eqb (Some v) (Some n)) eqn:E.
      * intro F. injection F as <-. apply node_eqb_eq in E. injection E as <-.
        right. exists c, w, cd. rewrite D1, (NS c Hc). auto.
      * intro Dn. destruct (Ip n d Dn) as [(-> & -> & Pn) | (u & wu & du & Pn & Hu & Du & Eu & ->)].
        -- left. auto.
        -- right. exists u, wu, du. rewrite D1, (NS u Hu). auto.
    + intros u Hu. destruct (Iset u Hu) as (du & Du & Hq).
      exists du. rewrite D1, (NS u Hu). split; [exact Du|].
      intros d n Hin. apply in_heappush in Hin.
      destruct Hin as [F | Hin]; [|eauto].
      injection F as -> ->. specialize (Hle u du Hu Du). lia.
    + now apply heappush_ascending.
    + intros n d. rewrite D1.
      destruct (node_eqb (Some v) (Some n)) eqn:E.
      * intros F _. injection F as <-. apply node_eqb_eq in E. injection E as <-.
        apply in_heappush. now left.
      * intros Dn Hn. apply in_heappush. right. auto.
    + intros u x wx Hu Ex.
      destruct (Irel u x wx Hu Ex) as [(-> & [F | Hin]) | (du & dx & Du & Dx & Le)].
      * injection F as <- <-. right. exists cd, (cd + w).
        rewrite !D1, (NS c Hc), node_eqb_refl. repeat split; auto. lia.
      * left. auto.
      * right. rewrite !D1, (NS u Hu).
        destruct (node_eqb (Some v) (Some x)) eqn:E.
        -- apply node_eqb_eq in E. injection E as <-. rewrite Dv in Dx.
           injection Dx as ->. specialize (Hold dx eq_refl).
           exists du, (cd + w). repeat split; auto. lia.
        -- exists du, dx. auto.
    + intros d n Hin. apply in_heappush in Hin.
      destruct Hin as [F | Hin].
      * injection F as -> ->. exists v, (cd + w). rewrite D1, node_eqb_refl.
        repeat split. lia.
      * destruct (Iq d n Hin) as (k & dk & -> & Dk & Le).
        destruct (node_eqb (Some v) (Some k)) eqn:E.
        -- exists k, (cd + w). rewrite D1, E. repeat split.
           apply node_eqb_eq in E. injection E as <-. rewrite Dv in Dk.
           injection Dk as ->. specialize (Hold dk eq_refl). lia.
        -- exists k, dk. rewrite D1, E. auto.
    + exact Iend.
    + intros n d. rewrite D1. destruct (node_eqb (Some v) n).
      * intro F. injection F as <-. lia.
      * apply Inn.
    + intros n x. rewrite D1. destruct (node_eqb (Some v) (Some n)) eqn:E.
      * intros _. apply node_eqb_eq in E. injection E as <-. eapply Itr; eauto.
      * apply Itr.
  - rewrite D1, (NS c Hc). exact Dc.
  - intros u du Hu. rewrite D1, (NS u Hu). now apply Hle.
Qed.

(** A relaxation that does not improve the distance leaves the edge
    relaxed. *)
Lemma dj_relax_skip (g : graph_t) (s e : string) (S : list string)
    (c v : string) (w cd : Z) (nbrs : list (string * Z)) (st : search_state)
    (old : ext Z) :
  dijkstra_inv g s e S c ((v, w) :: nbrs) st ->
  dict_get (distances st) (Some c) = Some (Fin cd) ->
  dict_get (distances st) (Some v) = Some old ->
  ext_ltb Z.ltb (Fin (cd + w)) old = false ->
  dijkstra_inv g s e S c nbrs st.
Proof.
  intros [Is Ip Iset Iasc Ifr Irel Iq Iend Inn Itr] Dc Dv Lt.
  constructor; auto.
  intros u x wx Hu Ex.
  destruct (Irel u x wx Hu Ex) as [(-> & [F | Hin]) | R]; auto.
  injection F as <- <-. right. destruct old as [o|]; [|discriminate].
  cbn in Lt. apply Z.ltb_ge in Lt. exists cd, o. auto.
Qed.

(** The relaxation loop keeps the invariant and leaves no edge pending. *)
Lemma dj_relax (g : graph_t) (s e : string) (S : list string) (c : string)
    (cd : Z) (nbrs : list (string * Z)) :
  weights_positive g = true ->
  In c S ->
  (forall v w, In (v, w) nbrs -> edge g c v w) ->
  forall st st',
    dijkstra_inv g s e S c nbrs st ->
    dict_get (distances st) (Some c) = Some (Fin cd) ->
    (forall u du, In u S -> dict_get (distances st) (Some u) = Some (Fin du) ->
                  du <= cd) ->
    relax cd (Some c) nbrs st = Ok st' ->
    dijkstra_inv g s e S c [] st'.
Proof.
  intros W Hc. induction nbrs as [|[v w] nbrs IH]; intros He st st' I Dc Hle R.
  - cbn in R. now injection R as <-.
  - cbn [relax] in R.
    assert (He' : forall v' w', In (v', w') nbrs -> edge g c v' w')
      by (intros; apply He; now right).
    destruct (dict_get (distances st) (Some v)) as [old|] eqn:Dv;
      [|discriminate].
    destruct (ext_ltb Z.ltb (Fin (cd + w)) old) eqn:Lt.
    + destruct (dj_relax_update g s e S c v w cd nbrs st old W I Hc Dc Hle
                  (He v w (or_introl eq_refl)) Dv Lt) as (I1 & Dc1 & Hle1).
      eapply IH; eauto.
    + eapply IH; eauto. eapply dj_relax_skip; eauto.
Qed.

(** Under the invariant, following the predecessors from a node with a
    finite distance gives a walk of that weight from the start, and it is
    the list that the reconstruction loop returns. *)
Lemma dj_chain (g : graph_t) (s e : string) (S : list string) (c : string)
    (pending : list (string * Z)) (st : search_state) :
  weights_positive g = true ->
  dijkstra_inv g s e S c pending st ->
  forall (m : nat) (n : string) (d : Z),
    dict_get (distances st) (Some n) = Some (Fin d) ->
    (Z.to_nat d < m)%nat ->
    exists l,
      walk g s (n :: l) d
      /\ forall fuel path r,
           reconstruct fuel (predecessors st) (Some n) path = Ok r ->
           r = PyList (rev (path ++ map Some (n :: l))).
Proof.
  intros W I. induction m as [|m IH]; intros n d Dn Hm; [lia|].
  pose proof (dj_truthy _ _ _ _ _ _ _ I n _ Dn) as T.
  destruct (dj_pred _ _ _ _ _ _ _ I n d Dn)
    as [(-> & -> & Pn) | (u & w & du & Pn & Hu & Du & Eu & ->)].
  - exists []. split; [constructor|].
    intros fuel path r R. destruct fuel as [|fuel]; cbn [reconstruct] in R;
      rewrite T in R; [discriminate|].
    rewrite Pn in R. destruct fuel; cbn in R; now injection R as <-.
  - pose proof (edge_positive g u n w W Eu) as Hw.
    pose proof (dj_nonneg _ _ _ _ _ _ _ I _ _ Du) as Hdu.
    destruct (IH u du Du) as (l & Wl & Rl); [lia|].
    exists (u :: l). split; [now constructor|].
    intros fuel path r R. destruct fuel as [|fuel]; cbn [reconstruct] in R;
      rewrite T in R; [discriminate|].
    rewrite Pn in R. apply Rl in R. rewrite R. cbn [map].
    now rewrite <- app_assoc.
Qed.

(** Under the invariant with no edge pending, a walk from the start either
    ends at a settled node that is no farther than the walk is long, or
    there is an unsettled node with a distance no larger than its weight. *)
Lemma dj_walk_bound (g : graph_t) (s e : string) (S : list string)
    (c : string) (st : search_state) :
  weights_positive g = true ->
  dijkstra_inv g s e S c [] st ->
  forall l d, walk g s l d ->
    forall y l', l = y :: l' ->
      (In y S /\ exists dy, dict_get (distances st) (Some y) = Some (Fin dy)
                            /\ dy <= d)
      \/ exists x dx, ~ In x S
                      /\ dict_get (distances st) (Some x) = Some (Fin dx)
                      /\ dx <= d.
Proof.
  intros W I l d Hw. induction Hw as [|u v l d w Hw IH He]; intros y l' E.
  - injection E as <- <-. destruct (in_dec string_dec s S) as [Hs | Hs].
    + left. split; [exact Hs|]. exists 0. split; [apply (dj_start _ _ _ _ _ _ _ I) | lia].
    + right. exists s, 0. repeat split; auto.
      * apply (dj_start _ _ _ _ _ _ _ I).
      * lia.
  - injection E as <- <-. pose proof (edge_positive g u v w W He) as Hpos.
    destruct (IH u l eq_refl) as [(Hu & du & Du & Le) | (x & dx & Hx & Dx & Le)].
    + destruct (dj_relaxed _ _ _ _ _ _ _ I u v w Hu He)
        as [(_ & []) | (du' & dv & Du' & Dv & Le')].
      rewrite Du in Du'. injection Du' as <-.
      destruct (in_dec string_dec v S) as [Hv | Hv].
      * left. split; [exact Hv|]. exists dv. split; [exact Dv | lia].
      * right. exists v, dv. repeat split; auto. lia.
    + right. exists x, dx. repeat split; auto. lia.
Qed.

(** The head of an ascending queue is a least entry. *)
Lemma ascending_head (x : entry) (q : list entry) (y : entry) :
  ascending (x :: q) -> In y (x :: q) -> fst x <= fst y.
Proof.
  intros [Hx _] [<- | Hy]; [lia | auto].
Qed.

(** Dropping a stale head keeps the invariant. *)
Lemma dj_pop_stale (g : graph_t) (s e : string) (S : list string)
    (c k : string) (st : search_state) (cd dk : Z) (rest : list entry) :
  dijkstra_inv g s e S c [] st ->
  pqueue st = (cd, Some k) :: rest ->
  dict_get (distances st) (Some k) = Some (Fin dk) ->
  dk < cd ->
  dijkstra_inv g s e S c []
    (mkSearch (distances st) (predecessors st) rest).
Proof.
  intros [Is Ip Iset Iasc Ifr Irel Iq Iend Inn Itr] Q Dk Lt.
  rewrite Q in *. constructor; cbn [distances predecessors pqueue]; auto.
  - intros u Hu. destruct (Iset u Hu) as (du & Du & Hq).
    exists du. split; [exact Du|]. intros d n Hin. apply (Hq d n). now right.
  - now destruct Iasc.
  - intros n d Dn Hn. destruct (Ifr n d Dn Hn) as [F | Hin]; [|exact Hin].
    injection F as -> ->. rewrite Dk in Dn. injection Dn as ->. lia.
  - intros d n Hin. apply Iq. now right.
Qed.

(** Settling the head keeps the invariant, with its edges pending. *)
Lemma dj_pop_settle (g : graph_t) (s e : string) (S : list string)
    (c k : string) (st : search_state) (cd : Z) (rest : list entry)
    (nbrs : list (string * Z)) :
  dijkstra_inv g s e S c [] st ->
  pqueue st = (cd, Some k) :: rest ->
  dict_get (distances st) (Some k) = Some (Fin cd) ->
  k <> e ->
  graph_get g (Some k) = Some nbrs ->
  let st0 := mkSearch (distances st) (predecessors st) rest in
  dijkstra_inv g s e (k :: S) k nbrs st0
  /\ (forall u du, In u (k :: S) ->
        dict_get (distances st0) (Some u) = Some (Fin du) -> du <= cd).
Proof.
  intros [Is Ip Iset Iasc Ifr Irel Iq Iend Inn Itr] Q Dk Ne G st0.
  rewrite Q in *. subst st0. split; cbn [distances predecessors pqueue].
  - constructor; cbn [distances predecessors pqueue]; auto.
    + intros n d Dn.
      destruct (Ip n d Dn) as [L | (u & w & du & Pn & Hu & R)]; [now left|].
      right. exists u, w, du. split; [exact Pn|]. split; [now right | exact R].
    + intros u [<- | Hu].
      * exists cd. split; [exact Dk|]. intros d n Hin.
        apply (ascending_head (cd, Some k) rest (d, n) Iasc). now right.
      * destruct (Iset u Hu) as (du & Du & Hq). exists du.
        split; [exact Du|]. intros d n Hin. apply (Hq d n). now right.
    + now destruct Iasc.
    + intros n d Dn Hn.
      destruct (Ifr n d Dn) as [F | Hin]; [intro; apply Hn; now right | | exact Hin].
      injection F as -> ->. exfalso. apply Hn. now left.
    + intros u v w [<- | Hu] He.
      * left. split; [reflexivity|]. destruct He as (nbrs' & G' & Hin).
        rewrite G in G'. now injection G' as <-.
      * destruct (Irel u v w Hu He) as [(_ & []) | R]. now right.
    + intros d n Hin. apply Iq. now right.
    + intros u [<- | Hu]; auto.
  - intros u du [<- | Hu] Du.
    + rewrite Dk in Du. injection Du as <-. lia.
    + destruct (Iset u Hu) as (du' & Du' & Hq). rewrite Du in Du'.
      injection Du' as <-. apply (Hq cd (Some k)). now left.
Qed.

(** The search started in a state that satisfies the invariant returns
    [None] only when there is no walk, and otherwise a shortest walk. *)
Lemma dj_search (g : graph_t) (s e : string) :
  weights_positive g = true ->
  forall fuel S c st r,
    dijkstra_inv g s e S c [] st ->
    search fuel g (Some e) st = Ok r ->
    shortest_or_none g s e r.
Proof.
  intro W. induction fuel as [|fuel IH]; intros S c st r I R;
    destruct (pqueue st) as [|[cd cur] rest] eqn:Q.
  1,3: (cbn in R; rewrite Q in R; injection R as <-; intros l d Hw;
        destruct (dj_walk_bound g s e S c st W I _ _ Hw e l eq_refl)
          as [(He & _) | (x & dx & Hx & Dx & _)];
        [ now apply (dj_end _ _ _ _ _ _ _ I e He)
        | pose proof (dj_frontier _ _ _ _ _ _ _ I x dx Dx Hx) as F;
          rewrite Q in F; destruct F ]).
  - cbn in R. rewrite Q in R. discriminate.
  - rewrite search_S, Q in R. cbn zeta in R.
    cbn [distances predecessors pqueue] in R.
    destruct (dj_queue _ _ _ _ _ _ _ I cd cur) as (k & dk & -> & Dk & Le);
      [rewrite Q; now left|].
    destruct (node_eqb (Some k) (Some e)) eqn:Ee.
    + apply node_eqb_eq in Ee. injection Ee as ->.
      assert (He : ~ In e S)
        by (intro He; now apply (dj_end _ _ _ _ _ _ _ I e He)).
      pose proof (dj_ascending _ _ _ _ _ _ _ I) as Asc. rewrite Q in Asc.
      assert (Hmin : forall x dx, ~ In x S ->
                dict_get (distances st) (Some x) = Some (Fin dx) -> cd <= dx).
      { intros x dx Hx Dx.
        pose proof (dj_frontier _ _ _ _ _ _ _ I x dx Dx Hx) as F.
        rewrite Q in F.
        apply (ascending_head (cd, Some e) rest (dx, Some x) Asc F). }
      pose proof (Hmin e dk He Dk) as Ge.
      destruct (dj_chain g s e S c [] st W I (Datatypes.S (Z.to_nat dk)) e dk Dk)
        as (l & Wl & Rl); [lia|].
      apply Rl in R. subst r. cbn [app]. exists l, dk.
      split; [reflexivity|]. split; [exact Wl|].
      intros l' d' Hw.
      destruct (dj_walk_bound g s e S c st W I _ _ Hw e l' eq_refl)
        as [(He' & _) | (x & dx & Hx & Dx & Lx)]; [contradiction|].
      specialize (Hmin x dx Hx Dx). lia.
    + assert (Ne : k <> e)
        by (intros ->; now rewrite node_eqb_refl in Ee).
      rewrite Dk in R. cbn [ext_ltb] in R.
      destruct (dk <? cd) eqn:Stale.
      * apply Z.ltb_lt in Stale.
        apply (IH S c _ r (dj_pop_stale g s e S c k st cd dk rest I Q Dk Stale) R).
      * apply Z.ltb_ge in Stale. assert (dk = cd) by lia. subst dk.
        destruct (graph_get g (Some k)) as [nbrs|] eqn:G; [|discriminate].
        destruct (relax cd (Some k) nbrs _) as [st'| |] eqn:Rx; cbn [bind] in R;
          try discriminate.
        destruct (dj_pop_settle g s e S c k st cd rest nbrs I Q Dk Ne G)
          as (I0 & Hle).
        apply (IH (k :: S) k st' r); [|exact R].
        apply (dj_relax g s e (k :: S) k cd nbrs W (or_introl eq_refl))
          with (st := mkSearch (distances st) (predecessors st) rest); auto.
        intros v w Hin. exists nbrs. auto.
Qed.

Lemma key_truthy (g : graph_t) (n : string) :
  key_names_nonempty g = true -> is_key g (Some n) -> truthy (Some n) = true.
Proof.
  unfold key_names_nonempty, is_key. intros N K.
  destruct (graph_get g (Some n)) as [nbrs|] eqn:G; [|contradiction].
  destruct (graph_get_Some g (Some n) nbrs G) as (k & E & Hin).
  injection E as ->. rewrite forallb_forall in N. exact (N _ Hin).
Qed.

(** The state the search starts in satisfies the invariant. *)
Lemma dj_init (g : graph_t) (s e : string) :
  key_names_nonempty g = true ->
  is_key g (Some s) ->
  dijkstra_inv g s e [] s []
    (mkSearch (dict_set (map (fun kv => (Some (fst kv), @Inf Z)) g)
                        (Some s) (Fin 0))
              (map (fun kv => (Some (fst kv), @None string)) g)
              [(0, Some s)]).
Proof.
  intros N K.
  assert (D : forall n d,
             dict_get (dict_set (map (fun kv => (Some (fst kv), @Inf Z)) g)
                                (Some s) (Fin 0)) n = Some (Fin d) ->
             n = Some s /\ d = 0).
  { intros n d. rewrite dict_get_set, dict_get_init.
    destruct (node_eqb (Some s) n) eqn:E.
    - intro F. injection F as <-. apply node_eqb_eq in E. auto.
    - destruct (graph_get g n); discriminate. }
  constructor; cbn [distances predecessors pqueue].
  - apply dict_get_set_same.
  - intros n d Dn. destruct (D _ _ Dn) as [E ->]. injection E as ->. left.
    repeat split. rewrite dict_get_init. unfold is_key in K.
    now destruct (graph_get g (Some s)).
  - intros u [].
  - split; [intros y [] | exact I].
  - intros n d Dn _. destruct (D _ _ Dn) as [E ->]. injection E as ->. now left.
  - intros u v w [].
  - intros d n [E | []]. injection E as <- <-. exists s, 0.
    rewrite dict_get_set_same. repeat split. lia.
  - intros u [].
  - intros n d Dn. destruct (D _ _ Dn) as [_ ->]. lia.
  - intros n v. rewrite dict_get_set, dict_get_init.
    destruct (node_eqb (Some s) (Some n)) eqn:E.
    + intros _. apply node_eqb_eq in E. injection E as <-.
      now apply (key_truthy g).
    + destruct (graph_get g (Some n)) eqn:G; [|discriminate].
      intros _. apply (key_truthy g); [exact N|]. unfold is_key. now rewrite G.
Qed.

(** X11: on a graph with positive weights and non-empty key names, a list
    returned for a start node that is a key is the node sequence, from start
    to end, of a walk of the graph whose weight is least among all the walks
    from the start to the end node. *)
Theorem route_is_a_shortest_walk (fuel : nat) (g : graph_t) (s e : string)
    (route : list node) :
  weights_positive g = true ->
  key_names_nonempty g = true ->
  is_key g (Some s) ->
  calculate_optimal_route fuel g (Some s) (Some e) = Ok (PyList route) ->
  exists l d,
    route = rev (map Some (e :: l))
    /\ walk g s (e :: l) d
    /\ forall l' d', walk g s (e :: l') d' -> d <= d'.
Proof.
  intros W N K R. unfold calculate_optimal_route in R.
  exact (dj_search g s e W fuel [] s _ _ (dj_init g s e N K) R).
Qed.

Lemma route_is_a_shortest_walk_witness :
  exists l d,
    [Some "A"; Some "B"; Some "C"; Some "D"] = rev (map Some ("D" :: l))
    /\ walk sample_graph "A" ("D" :: l) d
    /\ forall l' d', walk sample_graph "A" ("D" :: l') d' -> d <= d'.
Proof.
  apply (route_is_a_shortest_walk 10 sample_graph "A" "D");
    [reflexivity | reflexivity | discriminate | vm_compute; reflexivity].
Defined.

(** X12: on such a graph, [None] is returned only when the graph has no walk
    from the start node to the end node. *)
Theorem no_route_means_no_walk (fuel : nat) (g : graph_t) (s e : string) :
  weights_positive g = true ->
  key_names_nonempty g = true ->
  is_key g (Some s) ->
  calculate_optimal_route fuel g (Some s) (Some e) = Ok PyNone ->
  forall l d, ~ walk g s (e :: l) d.
Proof.
  intros W N K R. unfold calculate_optimal_route in R.
  exact (dj_search g s e W fuel [] s _ _ (dj_init g s e N K) R).
Qed.

Lemma no_route_means_no_walk_witness :
  calculate_optimal_route 10 split_graph (Some "A") (Some "C") = Ok PyNone
  /\ forall l d, ~ walk split_graph "A" ("C" :: l) d.
Proof.
  split; [vm_compute; reflexivity|].
  apply (no_route_means_no_walk 10 split_graph "A" "C");
    [reflexivity | reflexivity | discriminate | vm_compute; reflexivity].
Defined.

(** ** The nearest candidate *)

(** Rounding does not reverse an order: an earlier estimated arrival means a
    smaller distance. *)
Lemma arrival_time_lt `{Floats} (x y : Q) :
  (calculate_estimated_arrival_time x < calculate_estimated_arrival_time y)%Q ->
  (x < y)%Q.
Proof.
  intro L. destruct (Qlt_le_dec x y) as [A | A]; [exact A|].
  apply arrival_time_monotone in A. exfalso. exact (Qlt_not_le _ _ L A).
Qed.

(** X13: the driver that a cycle commits is a nearest routable candidate.
    The estimated arrival time is rounded, and rounding does not reverse an
    order: a candidate with an earlier arrival is nearer; between candidates
    whose rounded arrival times are equal it is the comparison of the
    distances that keeps the nearer. *)
Theorem nearest_routable_candidate_is_committed `{Floats} (fuel : nat)
    (s s' : RideSharingSystem) (r : ref) (rest : list ref) :
  passenger_request_queue s = r :: rest ->
  is_canceled (request_obj s r) = false ->
  process_one fuel s = Ok s' ->
  (exists d, In d (candidates s)
             /\ routable fuel s (pickup_node s r) d = true) ->
  exists b,
    In b (candidates s)
    /\ routable fuel s (pickup_node s r) b = true
    /\ is_available (driver_obj s' b) = false
    /\ current_passenger (driver_obj s' b) = Some r
    /\ forall c, In c (candidates s) ->
                 routable fuel s (pickup_node s r) c = true ->
                 no_farther s r b c.
Proof.
  intros Hq Hc E (d & Hd & Rd).
  destruct (process_one_inv fuel s r rest s' Hq Hc E)
    as (_ & [(b & route & Hin & Rb & Hmin & _ & ->) | (Hnone & _)]).
  - exists b. cbn. unfold store_set. rewrite Nat.eqb_refl. cbn.
    repeat split; auto.
    intros c Hcin Rc. destruct (Hmin c Hcin Rc) as (x & y & Dx & Dy & L).
    exists x, y. repeat split; auto.
    destruct L as [L | [_ L]]; [|exact L].
    apply Qlt_le_weak. now apply arrival_time_lt.
  - rewrite (Hnone d Hd) in Rd. discriminate.
Qed.

Lemma nearest_routable_candidate_is_committed_witness :
  exists b,
    In b (candidates tie_system)
    /\ routable 10 tie_system (pickup_node tie_system 0%nat) b = true
    /\ is_available
         (driver_obj (state_after (@process_one coarse_floats 10 tie_system)
                                  tie_system) b) = false
    /\ current_passenger
         (driver_obj (state_after (@process_one coarse_floats 10 tie_system)
                                  tie_system) b) = Some 0%nat
    /\ forall c, In c (candidates tie_system) ->
         routable 10 tie_system (pickup_node tie_system 0%nat) c = true ->
         @no_farther coarse_floats tie_system 0%nat b c.
Proof.
  apply (@nearest_routable_candidate_is_committed coarse_floats 10 tie_system
           (state_after (@process_one coarse_floats 10 tie_system) tie_system)
           0%nat []).
  - reflexivity.
  - reflexivity.
  - vm_compute. reflexivity.
  - exists 1%nat. split; [vm_compute; auto | vm_compute; reflexivity].
Defined.

(** ** When a cycle raises *)

Lemma relax_raises_KeyError (cd : Z) (cur : node) (nbrs : list (string * Z)) :
  forall st ex, relax cd cur nbrs st = Raise ex -> ex = KeyError.
Proof.
  induction nbrs as [|[n w] nbrs IH]; intros st ex R; cbn [relax] in R;
    [discriminate|].
  destruct (dict_get (distances st) (Some n)) as [old|];
    [|now injection R as <-].
  destruct (ext_ltb Z.ltb (Fin (cd + w)) old); eauto.
Qed.

Lemma reconstruct_raises_KeyError (preds : dict node) (fuel : nat) :
  forall c path ex, reconstruct fuel preds c path = Raise ex -> ex = KeyError.
Proof.
  induction fuel as [|fuel IH]; intros c path ex R; cbn [reconstruct] in R;
    destruct (truthy c); try discriminate.
  destruct (dict_get preds c) as [p|]; [eauto | now injection R as <-].
Qed.

Lemma search_raises_KeyError (g : graph_t) (e : node) (fuel : nat) :
  forall st ex, search fuel g e st = Raise ex -> ex = KeyError.
Proof.
  induction fuel as [|fuel IH]; intros st ex R.
  - cbn in R. destruct (pqueue st) as [|[cd cur] rest]; discriminate.
  - rewrite search_S in R. destruct (pqueue st) as [|[cd cur] rest];
      [discriminate|].
    cbn zeta in R. cbn [distances predecessors pqueue] in R.
    destruct (node_eqb cur e);
      [now apply reconstruct_raises_KeyError in R|].
    destruct (dict_get (distances st) cur) as [best|];
      [|now injection R as <-].
    destruct (ext_ltb Z.ltb best (Fin cd)); [eauto|].
    destruct (graph_get g cur) as [nbrs|]; [|now injection R as <-].
    destruct (relax cd cur nbrs _) as [st'| |] eqn:Rx; cbn [bind] in R;
      try discriminate; [eauto|].
    injection R as <-. now apply relax_raises_KeyError in Rx.
Qed.

(** Under the invariant of the termination proof the reconstruction loop
    does not raise. *)
Lemma reconstruct_no_raise (g : graph_t) (st : search_state) :
  search_inv g st ->
  forall fuel c path ex,
    is_key g c -> reconstruct fuel (predecessors st) c path <> Raise ex.
Proof.
  intro I. induction fuel as [|fuel IH]; intros c path ex Kc;
    cbn [reconstruct]; destruct (truthy c); try discriminate.
  destruct (dict_get (predecessors st) c) as [[u|]|] eqn:P.
  - apply IH. now destruct (inv_pred g st I c u P).
  - destruct fuel; cbn; discriminate.
  - exfalso. now apply (proj2 (inv_keys g st I c Kc)).
Qed.

(** Nor does the search loop, on a graph with positive weights whose
    neighbours are keys. *)
Lemma search_no_raise (g : graph_t) (e : node) :
  neighbours_are_keys g = true ->
  weights_positive g = true ->
  forall fuel st ex, search_inv g st -> search fuel g e st <> Raise ex.
Proof.
  intros C W. induction fuel as [|fuel IH]; intros st ex I.
  - cbn. destruct (pqueue st) as [|[cd cur] rest]; discriminate.
  - rewrite search_S. destruct (pqueue st) as [|[cd cur] rest] eqn:Q;
      [discriminate|].
    cbn zeta. cbn [distances predecessors pqueue].
    pose proof (search_inv_pop g st _ _ Q I) as I0.
    destruct (inv_queue g st I cd cur) as (Kc & d' & Dc & Le);
      [rewrite Q; now left|].
    destruct (node_eqb cur e).
    { apply (reconstruct_no_raise g _ I0). exact Kc. }
    rewrite Dc. cbn [ext_ltb]. destruct (d' <? cd) eqn:Stale; [now apply IH|].
    apply Z.ltb_ge in Stale. assert (d' = cd) by lia. subst d'.
    destruct (graph_get g cur) as [nbrs|] eqn:G; [|now elim Kc].
    assert (Hn : forall n w, In (n, w) nbrs -> is_key g (Some n) /\ 0 < w).
    { intros n w Hin. destruct (graph_get_Some g cur nbrs G) as (k & -> & Hk).
      split.
      - destruct (neighbours_are_keys_spec g k n nbrs w C Hk Hin) as (nb' & Hn').
        eapply is_key_in; eauto.
      - eapply weights_positive_spec; eauto. }
    destruct (relax_inv g cd cur nbrs Hn Kc _ I0 Dc) as (st' & R & I' & _).
    rewrite R. cbn [bind]. now apply IH.
Qed.

Lemma search_inv_init (g : graph_t) (start_node : node) :
  is_key g start_node ->
  search_inv g
    (mkSearch (dict_set (map (fun kv => (Some (fst kv), @Inf Z)) g)
                        start_node (Fin 0))
              (map (fun kv => (Some (fst kv), @None string)) g)
              [(0, start_node)]).
Proof.
  intro Ks. constructor; cbn [distances predecessors pqueue].
  - intros d n [E | []]. injection E as <- <-. split; [exact Ks|].
    exists 0. rewrite dict_get_set_same. split; [reflexivity | lia].
  - intros n Kn. rewrite dict_get_set, !dict_get_init.
    unfold is_key in Kn. destruct (graph_get g n); [|contradiction].
    destruct (node_eqb start_node n); split; discriminate.
  - intros n v. rewrite dict_get_set, dict_get_init.
    destruct (node_eqb start_node n).
    + intro E. injection E as <-. lia.
    + destruct (graph_get g n); discriminate.
  - intros n u. rewrite dict_get_init. destruct (graph_get g n); discriminate.
Qed.

(** The loop raises what the route computation or the distance computation
    of one of the drivers raises. *)
Lemma for_drivers_raise `{Floats} (fuel : nat) (r : ref) (p : node)
    (s0 : RideSharingSystem) (ds : list ref) :
  forall q bd bdist beta rt ex,
    for_drivers fuel r p ds (mkLocals (with_queue s0 q) bd bdist beta rt)
    = Raise ex ->
    exists d, In d ds
      /\ (calculate_optimal_route fuel (graph s0) (driver_node s0 d) p = Raise ex
          \/ (ex = ValueError /\ distance_to_pickup s0 r d = None)).
Proof.
  induction ds as [|d ds IH]; intros q bd bdist beta rt ex E;
    cbn [for_drivers] in E; [discriminate|].
  destruct (try_driver fuel r p _ d) as [l1| |] eqn:T; cbn [bind] in E;
    try discriminate.
  - apply try_driver_inv in T. destruct T as (route & _ & T).
    destruct T as [(_ & ->) | [(_ & ? & _ & _ & ->) | (_ & ? & _ & _ & ->)]];
      apply IH in E; destruct E as (d' & Hd' & R'); exists d';
      (split; [now right | exact R']).
  - injection E as <-. exists d. split; [now left|].
    revert T. unfold try_driver. cbn [sys].
    change (graph (with_queue s0 q)) with (graph s0).
    change (get_coordinates (with_queue s0 q)
              (location (driver_obj (with_queue s0 q) d)))
      with (driver_node s0 d).
    destruct (calculate_optimal_route fuel (graph s0) (driver_node s0 d) p)
      as [route| |]; cbn [bind]; try discriminate;
      [|intro T; left; congruence].
    destruct (route_is_empty route); [discriminate|].
    unfold calculate_distance.
    change (haversine (location (driver_obj (with_queue s0 q) d))
              (pickup_address (request_obj (with_queue s0 q) r)))
      with (distance_to_pickup s0 r d).
    destruct (distance_to_pickup s0 r d) as [x|]; cbn [bind].
    + destruct (improves _ _ _ _); discriminate.
    + intro T. injection T as <-. right. now split.
Qed.

(** On a graph with positive weights whose neighbours are keys, a cycle
    raises either [KeyError], when the coordinates of some candidate do not
    resolve to a key of the graph, or [ValueError], when the distance of some
    candidate to the pickup is not defined; [optimal_route] is never read
    unbound. *)
Lemma cycle_raises_for_a_candidate `{Floats} (fuel : nat)
    (s : RideSharingSystem) (r : ref) (rest : list ref) (ex : exn) :
  neighbours_are_keys (graph s) = true ->
  weights_positive (graph s) = true ->
  passenger_request_queue s = r :: rest ->
  process_one fuel s = Raise ex ->
  is_canceled (request_obj s r) = false
  /\ ((ex = KeyError
       /\ exists d, In d (candidates s) /\ ~ is_key (graph s) (driver_node s d))
      \/ (ex = ValueError
          /\ exists d, In d (candidates s) /\ distance_to_pickup s r d = None)).
Proof.
  intros C W Hq E.
  destruct (is_canceled (request_obj s r)) eqn:Hc.
  { rewrite (process_one_canceled fuel s r rest Hq Hc) in E. discriminate. }
  split; [reflexivity|].
  rewrite (process_one_uncanceled fuel s r rest Hq Hc) in E.
  destruct (find_available_drivers s _) as [ds|e0|] eqn:Fd; cbn [bind] in E;
    try discriminate.
  2:{ injection E as <-. right. now apply find_available_drivers_Raise. }
  apply find_available_drivers_Ok in Fd. destruct Fd as [-> _].
  destruct (for_drivers fuel r (pickup_node s r) (candidates s) _)
    as [l| |] eqn:F; cbn [bind] in E; try discriminate.
  - exfalso. destruct (best_driver l) as [b|] eqn:Eb; [|discriminate].
    assert (B0 : best_so_far fuel s r (pickup_node s r) [] None Inf Inf)
      by (cbn; repeat split; intros c []).
    pose proof (for_drivers_best fuel r _ s _ _ _ _ _ _ _ _ B0 F) as B.
    rewrite Eb in B. cbn [best_so_far app] in B. destruct B as (Hin & _).
    assert (Hne : candidates s <> [])
      by (intro Z; rewrite Z in Hin; destruct Hin).
    destruct (for_drivers_last_route fuel r _ s _ _ _ _ _ _ _ b Hne F)
      as (route & _ & Ro).
    rewrite Ro in E. discriminate.
  - injection E as <-. apply for_drivers_raise in F.
    destruct F as (d & Hd & [R | (-> & Dd)]).
    + left. split.
      * unfold calculate_optimal_route in R.
        now apply search_raises_KeyError in R.
      * exists d. split; [exact Hd|]. intro K.
        unfold calculate_optimal_route in R. revert R.
        apply (search_no_raise (graph s) (pickup_node s r) C W).
        now apply search_inv_init.
    + right. split; [reflexivity|]. eauto.
Qed.

(** A cycle puts no new request in the queue. *)
Lemma process_one_queue_incl `{Floats} (fuel : nat)
    (s s' : RideSharingSystem) (r : ref) :
  process_one fuel s = Ok s' ->
  In r (passenger_request_queue s') -> In r (passenger_request_queue s).
Proof.
  intros E Hin. destruct (passenger_request_queue s) as [|h rest] eqn:Hq.
  - unfold process_one in E. rewrite Hq in E. injection E as <-.
    now rewrite Hq in Hin.
  - destruct (is_canceled (request_obj s h)) eqn:Hc.
    + rewrite (process_one_canceled fuel s h rest Hq Hc) in E.
      injection E as <-. now right.
    + destruct (process_one_inv fuel s h rest s' Hq Hc E)
        as (_ & [(b & route & _ & _ & _ & _ & ->) | (_ & ->)]);
        cbn in Hin; repeat (apply in_app_or in Hin; destruct Hin as [Hin|Hin]);
        try (now right); try (apply repeat_spec in Hin; now left).
      destruct Hin as [<- | []]. now left.
Qed.

(** X14: on a graph with positive weights whose neighbours are keys,
    [process_passenger_requests] raises nothing but [KeyError] and
    [ValueError]: [KeyError] only when the registry has an available driver
    whose coordinates do not resolve to a key of the graph, and [ValueError]
    only when the distance from an available driver to the pickup of a
    queued, uncanceled request is not defined. *)
Theorem drain_raises_for_a_driver `{Floats} (n fuel : nat) :
  forall (s : RideSharingSystem) (ex : exn),
    neighbours_are_keys (graph s) = true ->
    weights_positive (graph s) = true ->
    process_passenger_requests n fuel s = Raise ex ->
    (ex = KeyError
     /\ exists d, In d (drivers s)
                  /\ is_available (driver_obj s d) = true
                  /\ ~ is_key (graph s) (driver_node s d))
    \/ (ex = ValueError
        /\ exists d r, In d (drivers s)
                       /\ is_available (driver_obj s d) = true
                       /\ In r (passenger_request_queue s)
                       /\ is_canceled (request_obj s r) = false
                       /\ distance_to_pickup s r d = None).
Proof.
  induction n as [|n IH]; intros s ex C W E;
    destruct (passenger_request_queue s) as [|h rest] eqn:Hq;
    cbn [process_passenger_requests] in E; rewrite Hq in E;
    try discriminate.
  destruct (process_one fuel s) as [s1|e1|] eqn:E1; cbn [bind] in E;
    try discriminate.
  - destruct (process_one_frame fuel s s1 E1) as (R1 & G1 & M1 & D1 & L1 & A1).
    rewrite <- G1 in C, W.
    destruct (IH s1 ex C W E)
      as [(-> & d & Hd & Ha & Hk) | (-> & d & r & Hd & Ha & Hr & Hc & Dd)].
    + left. split; [reflexivity|]. exists d. rewrite <- D1.
      split; [exact Hd|]. split; [now apply A1|].
      unfold driver_node, get_coordinates in *.
      now rewrite <- G1, <- M1, <- L1.
    + right. split; [reflexivity|]. exists d, r. rewrite <- D1.
      split; [exact Hd|]. split; [now apply A1|].
      split; [rewrite <- Hq; now apply (process_one_queue_incl fuel s s1)|].
      split; [now rewrite <- R1|].
      unfold distance_to_pickup in *. now rewrite <- L1, <- R1.
  - injection E as <-.
    destruct (cycle_raises_for_a_candidate fuel s h rest e1 C W Hq E1)
      as (Hc & [(-> & d & Hd & Hk) | (-> & d & Hd & Dd)]);
      apply candidates_available in Hd; destruct Hd as [Hd Ha].
    + left. split; [reflexivity|]. exists d. auto.
    + right. split; [reflexivity|]. exists d, h. repeat split; auto.
      now left.
Qed.

Lemma drain_raises_for_a_driver_witness :
  ((KeyError = KeyError
    /\ exists d, In d (drivers stranded_system)
                 /\ is_available (driver_obj stranded_system d) = true
                 /\ ~ is_key (graph stranded_system)
                             (driver_node stranded_system d))
   \/ (KeyError = ValueError
       /\ exists d r, In d (drivers stranded_system)
                      /\ is_available (driver_obj stranded_system d) = true
                      /\ In r (passenger_request_queue stranded_system)
                      /\ is_canceled (request_obj stranded_system r) = false
                      /\ @distance_to_pickup sample_floats stranded_system r d
                         = None))
  /\ @process_passenger_requests raising_floats 1 10 antipodal_system
     = Raise ValueError.
Proof.
  split; [|reflexivity].
  apply (@drain_raises_for_a_driver sample_floats 1 10
           stranded_system KeyError); reflexivity.
Defined.

(** ** The monolithic implementation *)

Lemma last_cons_default {A : Type} (l : list A) :
  forall x d : A, last (x :: l) d = last l x.
Proof.
  induction l as [|y l IH]; intros x d; [reflexivity|].
  change (last (x :: y :: l) d) with (last (y :: l) d).
  rewrite (IH y d), (IH y x). reflexivity.
Qed.

(** What the loop of [find_available_drivers] returns. *)
Lemma monolith_available_among_Ok `{Floats} (s : Monolith.RideSharingSystem)
    (loc : coord) (ds : list ref) :
  forall l,
    Monolith.available_among s loc ds = Ok l ->
    l = filter (fun d => Monolith.is_available (Monolith.driver_obj s d)) ds
    /\ forall d, In d l ->
         exists x, haversine (Monolith.location (Monolith.driver_obj s d)) loc
                   = Some x.
Proof.
  induction ds as [|d ds IH]; intros l E.
  - injection E as <-. split; [reflexivity | intros d []].
  - cbn [Monolith.available_among filter] in *.
    destruct (Monolith.is_available (Monolith.driver_obj s d)).
    + unfold calculate_distance in E.
      destruct (haversine (Monolith.location (Monolith.driver_obj s d)) loc)
        as [x|] eqn:D; cbn [bind] in E; [|discriminate].
      destruct (Monolith.available_among s loc ds) as [l1| |];
        cbn [bind] in E; try discriminate.
      destruct (IH l1 eq_refl) as [-> Hd]. cbn [ext_leb] in E.
      injection E as <-. split; [reflexivity|].
      intros c [<- | Hc]; [eauto | auto].
    + cbn [bind] in E.
      destruct (Monolith.available_among s loc ds) as [l1| |];
        cbn [bind] in E; try discriminate.
      injection E as <-. now apply IH.
Qed.

(** The loop of [match_passenger_with_driver], when it returns, has kept the
    first of the nearest drivers, and its variable [distance] ends as the
    distance of the last driver. *)
Lemma monolith_match_loop `{Floats} (s : Monolith.RideSharingSystem)
    (p : ref) (ds : list ref) :
  forall seen bd mind dist0 bd' mind' dist',
    match bd with
    | None => mind = Inf /\ seen = []
    | Some b =>
        (exists x, Monolith.distance_between s p b = Some x /\ mind = Fin x)
        /\ exists before after,
             seen = before ++ b :: after
             /\ (forall c, In c before -> Monolith.nearer s p b c)
             /\ (forall c, In c after -> Monolith.no_farther s p b c)
    end ->
    Monolith.match_loop s p ds bd mind dist0 = Ok (bd', mind', dist') ->
    dist' = match ds with
            | [] => dist0
            | d :: ds' => Monolith.distance_between s p (last ds' d)
            end
    /\ match bd' with
       | None => seen ++ ds = []
       | Some b =>
           exists before after,
             seen ++ ds = before ++ b :: after
             /\ (forall c, In c before -> Monolith.nearer s p b c)
             /\ (forall c, In c after -> Monolith.no_farther s p b c)
       end.
Proof.
  induction ds as [|d ds IH]; intros seen bd mind dist0 bd' mind' dist' B E.
  - cbn [Monolith.match_loop] in E. injection E as <- <- <-.
    split; [reflexivity|]. rewrite app_nil_r.
    destruct bd as [b|]; [now destruct B | now destruct B].
  - cbn [Monolith.match_loop] in E. unfold calculate_distance in E.
    change (haversine (Monolith.location (Monolith.driver_obj s d))
              (Monolith.passenger_location (Monolith.passenger_obj s p)))
      with (Monolith.distance_between s p d) in E.
    destruct (Monolith.distance_between s p d) as [x|] eqn:Dx;
      cbn [bind] in E; [|discriminate].
    replace (seen ++ d :: ds) with ((seen ++ [d]) ++ ds)
      by (now rewrite <- app_assoc).
    assert (Hlast : match ds with
                    | [] => Some x
                    | d0 :: ds' => Monolith.distance_between s p (last ds' d0)
                    end = Monolith.distance_between s p (last ds d)).
    { destruct ds as [|d0 ds']; [cbn [last]; now rewrite Dx|].
      now rewrite last_cons_default. }
    destruct (ext_ltb Qltb (Fin x) mind) eqn:L.
    + destruct (IH (seen ++ [d]) (Some d) (Fin x) (Some x) bd' mind' dist')
        as [Hd Hb]; [|exact E|].
      * split; [eauto|]. exists seen, []. split; [reflexivity|].
        split; [|intros c []]. intros c Hc. destruct bd as [b|].
        -- destruct B as ((xb & Db & ->) & before & after & -> & Hbef & Haft).
           cbn [ext_ltb] in L. apply Qltb_lt in L.
           apply in_app_or in Hc. destruct Hc as [Hc | [<- | Hc]].
           ++ destruct (Hbef c Hc) as (xb' & y & Db' & Dy & Lc).
              rewrite Db in Db'. injection Db' as <-.
              exists x, y. repeat split; auto. eapply Qlt_trans; eauto.
           ++ exists x, xb. repeat split; auto.
           ++ destruct (Haft c Hc) as (xb' & y & Db' & Dy & Lc).
              rewrite Db in Db'. injection Db' as <-.
              exists x, y. repeat split; auto. eapply Qlt_le_trans; eauto.
        -- destruct B as (_ & ->). destruct Hc.
      * split; [now rewrite Hd, Hlast | exact Hb].
    + destruct (IH (seen ++ [d]) bd mind (Some x) bd' mind' dist')
        as [Hd Hb]; [|exact E|].
      * destruct bd as [b|].
        -- destruct B as ((xb & Db & ->) & before & after & -> & Hbef & Haft).
           split; [eauto|]. exists before, (after ++ [d]).
           split; [now rewrite <- app_assoc|]. split; [exact Hbef|].
           intros c Hc. apply in_app_or in Hc.
           destruct Hc as [Hc | [<- | []]]; [auto|].
           cbn [ext_ltb] in L. apply Qltb_ge in L.
           exists xb, x. repeat split; auto.
        -- destruct B as (-> & _). discriminate.
      * split; [now rewrite Hd, Hlast | exact Hb].
Qed.

(** The loop returns when every distance is defined, and raises
    [ValueError] otherwise. *)
Lemma monolith_match_loop_returns `{Floats} (s : Monolith.RideSharingSystem)
    (p : ref) (ds : list ref) :
  (forall d, In d ds -> Monolith.distance_between s p d <> None) ->
  forall bd mind dist0,
    exists res, Monolith.match_loop s p ds bd mind dist0 = Ok res.
Proof.
  induction ds as [|d ds IH]; intros Hall bd mind dist0;
    cbn [Monolith.match_loop]; [eauto|].
  unfold calculate_distance.
  change (haversine (Monolith.location (Monolith.driver_obj s d))
            (Monolith.passenger_location (Monolith.passenger_obj s p)))
    with (Monolith.distance_between s p d).
  destruct (Monolith.distance_between s p d) as [x|] eqn:Dx.
  - cbn [bind]. destruct (ext_ltb Qltb (Fin x) mind);
      apply IH; intros; apply Hall; now right.
  - exfalso. exact (Hall d (or_introl eq_refl) Dx).
Qed.

Lemma monolith_match_loop_raises `{Floats} (s : Monolith.RideSharingSystem)
    (p : ref) (ds : list ref) :
  (exists d, In d ds /\ Monolith.distance_between s p d = None) ->
  forall bd mind dist0,
    Monolith.match_loop s p ds bd mind dist0 = Raise ValueError.
Proof.
  induction ds as [|d ds IH]; intros (c & Hc & Dc) bd mind dist0;
    [destruct Hc|].
  cbn [Monolith.match_loop]. unfold calculate_distance.
  change (haversine (Monolith.location (Monolith.driver_obj s d))
            (Monolith.passenger_location (Monolith.passenger_obj s p)))
    with (Monolith.distance_between s p d).
  destruct (Monolith.distance_between s p d) as [x|] eqn:Dx; [|reflexivity].
  cbn [bind]. destruct Hc as [<- | Hc]; [congruence|].
  destruct (ext_ltb Qltb (Fin x) mind); apply IH; eauto.
Qed.

(** On a non-empty list whose distances are defined,
    [match_passenger_with_driver] returns the first of the nearest drivers,
    with the distance of the last driver. *)
Lemma monolith_match_nonempty `{Floats} (s : Monolith.RideSharingSystem)
    (p : ref) (d : ref) (ds : list ref) :
  (forall c, In c (d :: ds) -> Monolith.distance_between s p c <> None) ->
  exists b before after x,
    Monolith.distance_between s p (last ds d) = Some x
    /\ Monolith.match_passenger_with_driver s p (d :: ds) = Ok (Some b, x)
    /\ d :: ds = before ++ b :: after
    /\ (forall c, In c before -> Monolith.nearer s p b c)
    /\ (forall c, In c after -> Monolith.no_farther s p b c).
Proof.
  intro Hall.
  destruct (monolith_match_loop_returns s p (d :: ds) Hall None Inf None)
    as ([[bd' m'] dist'] & E).
  destruct (monolith_match_loop s p (d :: ds) [] None Inf None bd' m' dist'
              (conj eq_refl eq_refl) E) as [-> Hb].
  unfold Monolith.match_passenger_with_driver. rewrite E. cbn [bind].
  cbn [app] in Hb.
  destruct (Monolith.distance_between s p (last ds d)) as [x|] eqn:Dl.
  - destruct bd' as [b|]; [|discriminate].
    destruct Hb as (before & after & Hs & Hbef & Haft).
    exists b, before, after, x. auto.
  - exfalso. apply (Hall (last ds d)); [|exact Dl].
    rewrite <- (last_cons_default ds d d).
    destruct (exists_last (l := d :: ds)) as (l' & a & Ea); [discriminate|].
    rewrite Ea, last_last. apply in_or_app. right. now left.
Qed.

(** X15: [match_passenger_with_driver] raises [UnboundLocalError] on an
    empty list. On a non-empty list it raises [ValueError] when the distance
    of one of the drivers is not defined; otherwise it returns the first of
    the nearest drivers (nearer than every driver before it, no farther than
    every driver after it) together with the distance of the last driver of
    the list, not the distance of the driver it returns. *)
Theorem monolith_match_first_nearest_last_distance `{Floats}
    (s : Monolith.RideSharingSystem) (p : ref) (ds : list ref) (dl : ref) :
  Monolith.match_passenger_with_driver s p [] = Raise UnboundLocalError
  /\ ((exists d, In d (ds ++ [dl]) /\ Monolith.distance_between s p d = None) ->
      Monolith.match_passenger_with_driver s p (ds ++ [dl]) = Raise ValueError)
  /\ ((forall d, In d (ds ++ [dl]) ->
         Monolith.distance_between s p d <> None) ->
      exists b before after x,
        Monolith.distance_between s p dl = Some x
        /\ Monolith.match_passenger_with_driver s p (ds ++ [dl])
           = Ok (Some b, x)
        /\ ds ++ [dl] = before ++ b :: after
        /\ (forall c, In c before -> Monolith.nearer s p b c)
        /\ (forall c, In c after -> Monolith.no_farther s p b c)).
Proof.
  split; [reflexivity|]. split.
  - intro Hn. unfold Monolith.match_passenger_with_driver.
    now rewrite (monolith_match_loop_raises s p (ds ++ [dl]) Hn).
  - intro Hall.
    destruct (ds ++ [dl]) as [|x l] eqn:E; [destruct ds; discriminate|].
    destruct (monolith_match_nonempty s p x l Hall)
      as (b & before & after & y & Dl & M & Hs & Hbef & Haft).
    exists b, before, after, y. split; [|auto].
    rewrite <- Dl, <- (last_cons_default l x dl), <- E, last_last.
    reflexivity.
Qed.

Lemma monolith_match_first_nearest_last_distance_witness :
  @Monolith.match_passenger_with_driver sample_floats Monolith.test_data
     0%nat [] = Raise UnboundLocalError
  /\ @Monolith.match_passenger_with_driver raising_floats
       Monolith.antipodal_data 0%nat ([0%nat] ++ [1%nat]) = Raise ValueError
  /\ exists b before after x,
       @Monolith.distance_between sample_floats Monolith.test_data 0%nat 0%nat
       = Some x
       /\ @Monolith.match_passenger_with_driver sample_floats
            Monolith.test_data 0%nat ([1%nat] ++ [0%nat]) = Ok (Some b, x)
       /\ [1%nat] ++ [0%nat] = before ++ b :: after
       /\ (forall c, In c before ->
             @Monolith.nearer sample_floats Monolith.test_data 0%nat b c)
       /\ (forall c, In c after ->
             @Monolith.no_farther sample_floats Monolith.test_data 0%nat b c).
Proof.
  split; [|split].
  - apply (proj1 (@monolith_match_first_nearest_last_distance sample_floats
                    Monolith.test_data 0%nat [] 0%nat)).
  - apply (proj1 (proj2 (@monolith_match_first_nearest_last_distance
                           raising_floats Monolith.antipodal_data 0%nat
                           [0%nat] 1%nat))).
    exists 1%nat. split; [right; now left | reflexivity].
  - apply (proj2 (proj2 (@monolith_match_first_nearest_last_distance
                           sample_floats Monolith.test_data 0%nat
                           [1%nat] 0%nat))).
    intros d Hd. cbn in Hd. destruct Hd as [<- | [<- | []]]; discriminate.
Defined.

Lemma monolith_find_available_drivers_Ok `{Floats}
    (s : Monolith.RideSharingSystem) (p : ref) (l : list ref) :
  Monolith.find_available_drivers s
    (Monolith.passenger_location (Monolith.passenger_obj s p)) = Ok l ->
  l = Monolith.candidates s
  /\ forall d, In d l -> Monolith.distance_between s p d <> None.
Proof.
  intro E. apply monolith_available_among_Ok in E. destruct E as [-> Hd].
  split; [reflexivity|]. intros d Hin. destruct (Hd d Hin) as (x & Dx).
  unfold Monolith.distance_between. now rewrite Dx.
Qed.

Lemma monolith_available (s : Monolith.RideSharingSystem) (d : ref) :
  In d (Monolith.candidates s) ->
  Monolith.is_available (Monolith.driver_obj s d) = true.
Proof.
  unfold Monolith.candidates. intros I. apply filter_In in I. tauto.
Qed.

(** What one iteration of the loop of [main] does. *)
Lemma monolith_iteration `{Floats} (fuel : nat)
    (s s' : Monolith.RideSharingSystem) (p : ref) :
  Monolith.get_next_passenger_request s = Some p ->
  Monolith.main_iteration fuel s = Ok s' ->
  Monolith.passenger_request_queue s' = Monolith.passenger_request_queue s
  /\ Monolith.find_available_drivers s
       (Monolith.passenger_location (Monolith.passenger_obj s p))
     = Ok (Monolith.candidates s)
  /\ match Monolith.candidates s with
     | [] => s' = s
     | d :: ds =>
         exists b before after route x,
           d :: ds = before ++ b :: after
           /\ (forall c, In c before -> Monolith.nearer s p b c)
           /\ (forall c, In c after -> Monolith.no_farther s p b c)
           /\ Monolith.calculate_optimal_route fuel s b p (Monolith.graph s)
              = Ok route
           /\ Monolith.driver_obj s' b
              = Monolith.mkDriver
                  (Monolith.id (Monolith.driver_obj s b))
                  (Monolith.location (Monolith.driver_obj s b))
                  false (Some p) (Some route)
           /\ (forall c, c <> b ->
                 Monolith.driver_obj s' c = Monolith.driver_obj s c)
           /\ Monolith.distance_between s p (last ds d) = Some x
           /\ Monolith.notifications s'
              = Monolith.notifications s
                ++ [(p, Monolith.OnTheWay
                          (Monolith.id (Monolith.driver_obj s b)) x)]
     end.
Proof.
  intros N R. unfold Monolith.main_iteration in R. rewrite N in R.
  destruct (Monolith.find_available_drivers s
              (Monolith.passenger_location (Monolith.passenger_obj s p)))
    as [l| |] eqn:A; cbn [bind] in R; try discriminate.
  apply monolith_find_available_drivers_Ok in A. destruct A as [-> Hdist].
  split; [|split; [reflexivity|]].
  - destruct (Monolith.candidates s) as [|d ds] eqn:A;
      [now injection R as <-|].
    destruct (monolith_match_nonempty s p d ds Hdist)
      as (b & before & after & x & Dl & M & Hs & Hbef & Haft).
    rewrite M in R. cbn [bind fst snd] in R.
    destruct (Monolith.calculate_optimal_route fuel s b p (Monolith.graph s))
      as [route| |] eqn:Rt; try discriminate.
    injection R as <-.
    assert (Av : Monolith.is_available (Monolith.driver_obj s b) = true).
    { apply monolith_available. rewrite A, Hs.
      apply in_or_app. right. left. reflexivity. }
    unfold Monolith.assign_ride. rewrite Av. reflexivity.
  - destruct (Monolith.candidates s) as [|d ds] eqn:A;
      [now injection R as <-|].
    destruct (monolith_match_nonempty s p d ds Hdist)
      as (b & before & after & x & Dl & M & Hs & Hbef & Haft).
    rewrite M in R. cbn [bind fst snd] in R.
    destruct (Monolith.calculate_optimal_route fuel s b p (Monolith.graph s))
      as [route| |] eqn:Rt; try discriminate.
    injection R as <-.
    assert (Av : Monolith.is_available (Monolith.driver_obj s b) = true).
    { apply monolith_available. rewrite A, Hs.
      apply in_or_app. right. left. reflexivity. }
    unfold Monolith.assign_ride. rewrite Av.
    exists b, before, after, route, x.
    repeat split; try assumption.
    + cbn. unfold store_set. now rewrite Nat.eqb_refl.
    + intros c Hc. cbn. unfold store_set.
      apply Nat.eqb_neq in Hc. now rewrite Hc.
Qed.

(** X16: an iteration of the loop of [main] that returns leaves the request
    queue as it was: the head request is read, never removed.
    [find_available_drivers] has returned the available drivers. With none
    nothing changes; otherwise the first of the nearest available drivers is
    committed to the head passenger with the route computed for it, no other
    driver changes, and the one notification sent announces that driver with
    the distance of the last available driver. *)
Theorem monolith_iteration_keeps_head_request `{Floats} (fuel : nat)
    (s s' : Monolith.RideSharingSystem) (p : ref) :
  Monolith.get_next_passenger_request s = Some p ->
  Monolith.main_iteration fuel s = Ok s' ->
  Monolith.passenger_request_queue s' = Monolith.passenger_request_queue s
  /\ Monolith.find_available_drivers s
       (Monolith.passenger_location (Monolith.passenger_obj s p))
     = Ok (Monolith.candidates s)
  /\ match Monolith.candidates s with
     | [] => s' = s
     | d :: ds =>
         exists b before after route x,
           d :: ds = before ++ b :: after
           /\ (forall c, In c before -> Monolith.nearer s p b c)
           /\ (forall c, In c after -> Monolith.no_farther s p b c)
           /\ Monolith.calculate_optimal_route fuel s b p (Monolith.graph s)
              = Ok route
           /\ Monolith.driver_obj s' b
              = Monolith.mkDriver
                  (Monolith.id (Monolith.driver_obj s b))
                  (Monolith.location (Monolith.driver_obj s b))
                  false (Some p) (Some route)
           /\ (forall c, c <> b ->
                 Monolith.driver_obj s' c = Monolith.driver_obj s c)
           /\ Monolith.distance_between s p (last ds d) = Some x
           /\ Monolith.notifications s'
              = Monolith.notifications s
                ++ [(p, Monolith.OnTheWay
                          (Monolith.id (Monolith.driver_obj s b)) x)]
     end.
Proof.
  apply monolith_iteration.
Qed.

Lemma monolith_iteration_keeps_head_request_witness :
  exists s',
    @Monolith.main_iteration sample_floats 10 Monolith.test_data = Ok s'
    /\ Monolith.passenger_request_queue s' = [0%nat]
    /\ Monolith.is_available (Monolith.driver_obj s' 1%nat) = false
    /\ Monolith.current_route (Monolith.driver_obj s' 1%nat)
       = Some [Some "C"; Some "B"; Some "A"].
Proof.
  destruct (@Monolith.main_iteration sample_floats 10 Monolith.test_data)
    as [s'| |] eqn:R; try (vm_compute in R; discriminate).
  exists s'. split; [reflexivity|].
  pose proof (@monolith_iteration_keeps_head_request sample_floats 10
                Monolith.test_data s' 0%nat eq_refl R) as [Q _].
  split; [exact Q|].
  vm_compute in R. injection R as <-. split; reflexivity.
Defined.

(** X17: however many iterations the loop of [main] runs, the request queue
    stays as it was, and every driver is either untouched or was available
    and is now committed to the passenger at the head of the queue: no
    passenger behind the head is ever served. *)
Theorem monolith_main_serves_only_head `{Floats} (n fuel : nat) :
  forall (s s' : Monolith.RideSharingSystem) (p : ref),
    Monolith.get_next_passenger_request s = Some p ->
    Monolith.main_loop n fuel s = Ok s' ->
    Monolith.passenger_request_queue s' = Monolith.passenger_request_queue s
    /\ forall d,
         Monolith.driver_obj s' d = Monolith.driver_obj s d
         \/ (Monolith.is_available (Monolith.driver_obj s d) = true
             /\ Monolith.is_available (Monolith.driver_obj s' d) = false
             /\ Monolith.current_passenger (Monolith.driver_obj s' d)
                = Some p).
Proof.
  induction n as [|n IH]; intros s s' p N R.
  - injection R as <-. split; [reflexivity|]. intros d. now left.
  - cbn [Monolith.main_loop] in R.
    destruct (Monolith.main_iteration fuel s) as [s1| |] eqn:I;
      try discriminate.
    cbn [bind] in R.
    destruct (monolith_iteration fuel s s1 p N I) as (Q1 & _ & D1).
    assert (N1 : Monolith.get_next_passenger_request s1 = Some p).
    { unfold Monolith.get_next_passenger_request in *. now rewrite Q1. }
    destruct (IH s1 s' p N1 R) as [Q2 D2].
    split; [congruence|]. intros d.
    destruct (Monolith.candidates s) as [|x l] eqn:A.
    + subst s1. apply D2.
    + destruct D1 as (b & before & after & route & y & Hs & _ & _ & _
                      & Hb & Hother & _).
      assert (Av : Monolith.is_available (Monolith.driver_obj s b) = true).
      { apply monolith_available. rewrite A, Hs.
        apply in_or_app. right. left. reflexivity. }
      destruct (Nat.eq_dec d b) as [->|Hd].
      * right. destruct (D2 b) as [E | (E & _)].
        -- rewrite E, Hb. cbn. auto.
        -- rewrite Hb in E. discriminate.
      * rewrite <- (Hother d Hd). apply D2.
Qed.

Lemma monolith_main_serves_only_head_witness :
  exists s',
    @Monolith.main_loop sample_floats 3 10 Monolith.test_data = Ok s'
    /\ Monolith.passenger_request_queue s' = [0%nat]
    /\ Monolith.current_passenger (Monolith.driver_obj s' 0%nat) = Some 0%nat
    /\ Monolith.current_passenger (Monolith.driver_obj s' 1%nat) = Some 0%nat.
Proof.
  destruct (@Monolith.main_loop sample_floats 3 10 Monolith.test_data)
    as [s'| |] eqn:R; try (vm_compute in R; discriminate).
  exists s'. split; [reflexivity|].
  pose proof (@monolith_main_serves_only_head sample_floats 3 10
                Monolith.test_data s' 0%nat eq_refl R) as [Q _].
  split; [exact Q|].
  vm_compute in R. injection R as <-. split; reflexivity.
Defined.
